(** * Film-grade media pipeline: LUT parsing, colour transform, effects,
      result cache and write-guard, embedded from the TypeScript sources.

    The development follows
    [contents/imageProcessor.document_start.ts] of the browser extension
    (the most recent of the pipeline variants kept in the repository) and,
    where a claim is about them, the older variants and the stand-alone
    LUT example pages.

    Conventions of the embedding:
    - a JavaScript number is an IEEE-754 binary64 value, taken from
      [SpecFloat] (exact, axiom-free, executable);
    - a number that the code only ever uses as an integer (an index, a
      size) lives in [integral]: NaN, the two infinities or a [Z]; its
      arithmetic is exact, which agrees with binary64 below 2^53;
    - a [Uint8ClampedArray] element is a [byte]; an [ImageData] buffer is
      the list of its RGBA pixels (its length is always width*height*4);
    - a thrown exception is [None] in the option monad;
    - mutable globals ([lutCache], [processedUrlCache], DOM attributes) are
      passed explicitly as state. *)

From Stdlib Require Import ZArith Lia Bool Ascii String List.
From Stdlib Require Import Strings.Byte.
From Stdlib Require Import Floats.SpecFloat.
From Stdlib Require Import DecimalString DecimalN.
From Stdlib Require Import Sorting.Sorted.
From Stdlib Require Import QArith Qround Qfield Qabs Lqa.
From stdpp Require Import base option list gmap strings sorting.

Local Open Scope Z_scope.

(* ===================================================================== *)
(** * Part I: the embedding                                               *)
(* ===================================================================== *)

(** ** JavaScript numbers and the [Math] functions the pipeline uses *)
Module JS.

Definition number := spec_float.
Definition prec : Z := 53.
Definition emax : Z := 1024.

Definition ofZ (z : Z) : number := binary_normalize prec emax z 0 false.
Definition mul : number -> number -> number := SFmul prec emax.
Definition div : number -> number -> number := SFdiv prec emax.
Definition add : number -> number -> number := SFadd prec emax.
Definition sub : number -> number -> number := SFsub prec emax.

(** Integer-valued numbers. *)
Inductive integral := NaN | NegInf | PosInf | Int (z : Z).

Definition toNumber (i : integral) : number :=
  match i with
  | NaN => S754_nan
  | NegInf => S754_infinity true
  | PosInf => S754_infinity false
  | Int z => ofZ z
  end.

Definition signedZ (s : bool) (m : positive) : Z :=
  if s then Z.neg m else Z.pos m.

(** [Math.floor]. *)
Definition floor (x : number) : integral :=
  match x with
  | S754_nan => NaN
  | S754_infinity s => if s then NegInf else PosInf
  | S754_zero _ => Int 0
  | S754_finite s m e =>
      Int (match e with
           | Z.neg k => signedZ s m / 2 ^ Z.pos k
           | _ => signedZ s m * 2 ^ e
           end)
  end.

(** [Math.round]: the nearest integer, ties towards +infinity. *)
Definition round (x : number) : integral :=
  match x with
  | S754_nan => NaN
  | S754_infinity s => if s then NegInf else PosInf
  | S754_zero _ => Int 0
  | S754_finite s m e =>
      Int (match e with
           | Z.neg k => (2 * signedZ s m + 2 ^ Z.pos k) / 2 ^ (Z.pos k + 1)
           | _ => signedZ s m * 2 ^ e
           end)
  end.

(** [Math.max] and [Math.min] on two arguments: NaN is contagious. *)
Definition max (a b : integral) : integral :=
  match a, b with
  | NaN, _ | _, NaN => NaN
  | PosInf, _ | _, PosInf => PosInf
  | NegInf, c | c, NegInf => c
  | Int x, Int y => Int (Z.max x y)
  end.

Definition min (a b : integral) : integral :=
  match a, b with
  | NaN, _ | _, NaN => NaN
  | NegInf, _ | _, NegInf => NegInf
  | PosInf, c | c, PosInf => c
  | Int x, Int y => Int (Z.min x y)
  end.

(** [a + b] and [a * b] on integer-valued numbers. *)
Definition iadd (a b : integral) : integral :=
  match a, b with
  | NaN, _ | _, NaN => NaN
  | PosInf, NegInf | NegInf, PosInf => NaN
  | PosInf, _ | _, PosInf => PosInf
  | NegInf, _ | _, NegInf => NegInf
  | Int x, Int y => Int (x + y)
  end.

Definition inf_of_sign (neg : bool) : integral :=
  if neg then NegInf else PosInf.

Definition imul (a b : integral) : integral :=
  match a, b with
  | NaN, _ | _, NaN => NaN
  | Int x, Int y => Int (x * y)
  | Int x, PosInf | PosInf, Int x =>
      if x =? 0 then NaN else inf_of_sign (x <? 0)
  | Int x, NegInf | NegInf, Int x =>
      if x =? 0 then NaN else inf_of_sign (0 <? x)
  | PosInf, PosInf | NegInf, NegInf => PosInf
  | PosInf, NegInf | NegInf, PosInf => NegInf
  end.

(** [a - 1]. *)
Definition pred (a : integral) : integral := iadd a (Int (-1)).

(** Bytes of a [Uint8ClampedArray]. *)
Definition byteZ (b : byte) : Z := Z.of_N (Byte.to_N b).

Definition toByte (z : Z) : byte :=
  match Byte.of_N (Z.to_N z) with
  | Some b => b
  | None => "255"%byte
  end.

(** Storing an integer-valued number into a [Uint8ClampedArray]:
    NaN becomes 0, everything else is clamped to 0..255. *)
Definition storeClamped (i : integral) : byte :=
  match i with
  | NaN | NegInf => "000"%byte
  | PosInf => "255"%byte
  | Int z => toByte z
  end.

(** [arr[i]] for an array index given as a number: [undefined] (here
    [None]) unless [i] is an integer within the array. *)
Definition index {A} (l : list A) (i : integral) : option A :=
  match i with
  | Int z => if z <? 0 then None else l !! Z.to_nat z
  | _ => None
  end.

(** *** Strings

    A string is the list of its code units; the texts handled here are
    8-bit. *)
Definition str := list ascii.

(** The characters [trim] and the regular expression [\s] treat as white
    space (TAB, LF, VT, FF, CR, SP, NBSP). *)
Definition isWhiteSpace (c : ascii) : bool :=
  let n := nat_of_ascii c in
  ((n =? 9) || (n =? 10) || (n =? 11) || (n =? 12) || (n =? 13)
   || (n =? 32) || (n =? 160))%nat.

Definition LF : ascii := ascii_of_nat 10.

(** [s.split(sep)] for a one-character separator. *)
Fixpoint splitOn (sep : ascii) (s : str) : list str :=
  match s with
  | [] => [[]]
  | c :: s' =>
      if Ascii.eqb c sep then [] :: splitOn sep s'
      else match splitOn sep s' with
           | l :: ls => (c :: l) :: ls
           | [] => [[c]]
           end
  end.

Fixpoint trimStart (s : str) : str :=
  match s with
  | c :: s' => if isWhiteSpace c then trimStart s' else s
  | [] => []
  end.

Definition trimEnd (s : str) : str := rev (trimStart (rev s)).

(** [s.trim()]. *)
Definition trim (s : str) : str := trimEnd (trimStart s).

(** [s.startsWith(prefix)]. *)
Fixpoint startsWith (prefix s : str) : bool :=
  match prefix, s with
  | [], _ => true
  | p :: prefix', c :: s' => Ascii.eqb p c && startsWith prefix' s'
  | _ :: _, [] => false
  end.

Definition isEmpty (s : str) : bool :=
  match s with [] => true | _ => false end.

(** [s.split(/\s+/)]: the pieces between maximal runs of white space; a
    run at either end leaves an empty piece there. *)
Fixpoint splitWhiteSpace (s : str) : list str :=
  match s with
  | [] => [[]]
  | c :: s' =>
      if isWhiteSpace c then
        match s' with
        | c' :: _ => if isWhiteSpace c' then splitWhiteSpace s'
                     else [] :: splitWhiteSpace s'
        | [] => [[]; []]
        end
      else match splitWhiteSpace s' with
           | l :: ls => (c :: l) :: ls
           | [] => [[c]]
           end
  end.

Definition digitValue (c : ascii) : option Z :=
  let n := nat_of_ascii c in
  if ((48 <=? n) && (n <=? 57))%nat then Some (Z.of_nat n - 48) else None.

(** The value of the longest prefix of decimal digits; [None] when the
    string does not start with a digit. *)
Fixpoint parseDigits (s : str) (acc : option Z) : option Z :=
  match s with
  | c :: s' =>
      match digitValue c with
      | Some d => parseDigits s' (Some (10 * default 0 acc + d))
      | None => acc
      end
  | [] => acc
  end.

(** [parseInt(input, 10)]; [None] stands for [undefined]. *)
Definition parseInt (input : option str) : integral :=
  match input with
  | None => NaN
  | Some s =>
      let s := trimStart s in
      let '(negative, s) :=
        match s with
        | c :: r => if Ascii.eqb c "-" then (true, r)
                    else if Ascii.eqb c "+" then (false, r)
                    else (false, s)
        | [] => (false, s)
        end in
      match parseDigits s None with
      | Some v => Int (if negative then - v else v)
      | None => NaN
      end
  end.

(** A number that is neither NaN nor infinite. *)
Definition is_finite (x : number) : bool :=
  match x with
  | S754_zero _ | S754_finite _ _ _ => true
  | _ => false
  end.

End JS.

(** ** The LUT table and the colour transform *)
Module ColorTransform.
Import JS.

(** [{ size: number, data: number[][] }]; every row pushed by the parser
    has exactly three components. *)
Definition row : Type := number * number * number.
Record Lut := { size : integral; data : list row }.

Record Pixel := { red : byte; green : byte; blue : byte; alpha : byte }.
Definition ImageData := list Pixel.

(** [data[i] / 255]. *)
Definition normalize (c : byte) : number := div (ofZ (byteZ c)) (ofZ 255).

(** [Math.round(v * 255)] stored into the result buffer. *)
Definition scale8 (v : number) : byte := storeClamped (round (mul v (ofZ 255))).

(** [Math.min(size - 1, Math.max(0, Math.floor(c * (size - 1))))]. *)
Definition gridIndex (size : integral) (c : number) : integral :=
  min (pred size) (max (Int 0) (floor (mul c (toNumber (pred size))))).

(** The table index computed for one pixel by the loop of [applyCubeLUT]
    (imageProcessor.document_start.ts, lines 531-548). *)
Definition lutIndex (lut : Lut) (p : Pixel) : integral :=
  let maxLutIndex := Int (Z.of_nat (length (data lut)) - 1) in
  let r := normalize (red p) in
  let g := normalize (green p) in
  let b := normalize (blue p) in
  let size := size lut in
  let x := gridIndex size r in
  let y := gridIndex size g in
  let z := gridIndex size b in
  let idx := iadd (iadd z (imul y size)) (imul (imul x size) size) in
  min maxLutIndex (max (Int 0) idx).

(** One iteration of that loop (lines 533-555): reading [lut.data[idx][0]]
    throws when [lut.data[idx]] is [undefined]. *)
Definition lutPixel (lut : Lut) (p : Pixel) : option Pixel :=
  match index (data lut) (lutIndex lut p) with
  | Some (e0, e1, e2) =>
      Some {| red := scale8 e0; green := scale8 e1; blue := scale8 e2;
              alpha := alpha p |}
  | None => None
  end.

Definition applyCubeLUT (imageData : ImageData) (lut : Lut) : option ImageData :=
  mapM (lutPixel lut) imageData.

(** The older variant (unnamed/part_003, lines 347-386): no clamping; an
    index outside the table leaves the pixel as it was. *)
Definition ge0 (i : integral) : bool :=
  match i with
  | PosInf => true
  | Int z => 0 <=? z
  | _ => false
  end.

Definition ltLen (i : integral) (len : nat) : bool :=
  match i with
  | NegInf => true
  | Int z => z <? Z.of_nat len
  | _ => false
  end.

Definition lutPixel_unclamped (lut : Lut) (p : Pixel) : option Pixel :=
  let r := normalize (red p) in
  let g := normalize (green p) in
  let b := normalize (blue p) in
  let size := size lut in
  let x := floor (mul r (toNumber (pred size))) in
  let y := floor (mul g (toNumber (pred size))) in
  let z := floor (mul b (toNumber (pred size))) in
  let idx := iadd (iadd z (imul y size)) (imul (imul x size) size) in
  if ge0 idx && ltLen idx (length (data lut)) then
    match index (data lut) idx with
    | Some (e0, e1, e2) =>
        Some {| red := scale8 e0; green := scale8 e1; blue := scale8 e2;
                alpha := alpha p |}
    | None => None
    end
  else Some p.

Definition applyCubeLUT_unclamped (imageData : ImageData) (lut : Lut)
  : option ImageData :=
  mapM (lutPixel_unclamped lut) imageData.

(** The check, by computation, that for every size from 1 to [bound] and
    every byte the scaled channel floors to a grid coordinate of the
    table. *)
Definition inGrid (n : Z) (c : byte) : bool :=
  match floor (mul (normalize c) (ofZ (n - 1))) with
  | Int q => (0 <=? q) && (q <=? n - 1)
  | _ => false
  end.

Definition gridCheck (bound : nat) : bool :=
  forallb (fun n => forallb (fun k => inGrid (Z.of_nat n) (toByte (Z.of_nat k)))
                            (seq 0 256))
          (seq 1 bound).



(** A size-2 table that maps every coordinate to pure red, and a 2x2
    image. *)
Definition red_lut : Lut :=
  {| size := Int 2; data := replicate 8 (ofZ 1, ofZ 0, ofZ 0) |}.

Definition image_2x2 : ImageData :=
  [ {| red := "000"; green := "000"; blue := "000"; alpha := "255" |};
    {| red := "255"; green := "255"; blue := "255"; alpha := "128" |};
    {| red := "012"; green := "200"; blue := "077"; alpha := "000" |};
    {| red := "130"; green := "127"; blue := "128"; alpha := "001" |} ]%byte.

(** *** The transform as the specification words it

    "For every pixel, normalize each channel to [0,1], scale by (N-1),
    quantize to an integer grid coordinate, clamp each axis to [0, N-1],
    compute a flattened index (blue fastest, green middle, red slowest),
    look up the table entry, and write back scaled to 8-bit output;
    alpha is passed through unchanged."  The quantisation rule is left
    open there; it is a parameter here. *)
Section Spec.
Variable quantize : number -> integral.
Variable N : Z.
Variable entries : list row.




End Spec.

End ColorTransform.

(** ** Grain and vignette ([applyGrain], [applyVignette], lines 560-595)

    Both draw on the canvas the pipeline has just filled; the canvas is
    given by its bitmap. *)
Module Effects.
Import JS ColorTransform.

Definition half : number := div (ofZ 1) (ofZ 2).

(** [a === b] on numbers. *)
Definition strictEq (a b : number) : bool := SFeqb a b.

(** [Math.max(a, b)] and [Math.min(a, b)] on numbers. *)
Definition numMax (a b : number) : number :=
  match SFcompare a b with
  | Some Lt => b
  | Some _ => a
  | None => S754_nan
  end.

Definition numMin (a b : number) : number :=
  match SFcompare a b with
  | Some Gt => b
  | Some _ => a
  | None => S754_nan
  end.

(** Storing a number into a [Uint8ClampedArray]: clamp to 0..255 and round
    to the nearest integer, ties to even. *)
Definition toUint8Clamp (x : number) : byte :=
  match x with
  | S754_nan | S754_zero _ | S754_finite true _ _ => "000"%byte
  | S754_infinity s => if s then "000"%byte else "255"%byte
  | S754_finite false m e =>
      match e with
      | Z.neg k =>
          let d := (2 ^ Z.pos k)%Z in
          let f := (Z.pos m / d)%Z in
          let r := (Z.pos m mod d)%Z in
          let up := if (2 * r <? d)%Z then false
                    else if (d <? 2 * r)%Z then true else Z.odd f in
          toByte (if up then f + 1 else f)%Z
      | _ => toByte (Z.pos m * 2 ^ e)%Z
      end
  end.

(** The body of the loop of [applyGrain] for one pixel; [u] is what
    [Math.random()] returned. *)
Definition grainPixel (u intensity : number) (p : Pixel) : Pixel :=
  let noise := mul (mul (sub u half) intensity) (ofZ 255) in
  let channel c :=
    toUint8Clamp (numMin (ofZ 255) (numMax (ofZ 0) (add (ofZ (byteZ c)) noise))) in
  {| red := channel (red p); green := channel (green p);
     blue := channel (blue p); alpha := alpha p |}.

(** [applyGrain(ctx, canvas, intensity)]; [random i] is the result of the
    i-th call of [Math.random()]. *)
Definition applyGrain (random : nat -> number) (intensity : number)
    (bitmap : list Pixel) : list Pixel :=
  if strictEq intensity (ofZ 0) then bitmap
  else imap (fun i p => grainPixel (random i) intensity p) bitmap.

(** *** The platform's [fillRect] with a gradient paint

    Blending and compositing follow the formulas of "Compositing and
    Blending Level 1" (overlay blend mode, source-over compositing), in
    exact rational arithmetic on non-premultiplied 8-bit pixels. *)
Local Open Scope Q_scope.

Definition color : Type := Q * Q * Q * Q.

Definition clamp01 (q : Q) : Q :=
  if Qle_bool q 0 then 0 else if Qle_bool 1 q then 1 else q.

Definition maxQ (a b : Q) : Q := if Qle_bool a b then b else a.

Definition unitQ (b : byte) : Q := inject_Z (byteZ b) / 255.

Definition byteOfUnit (q : Q) : byte := toByte (Qfloor (255 * q + (1 # 2))).

Definition multiply (cb cs : Q) : Q := cb * cs.
Definition screen (cb cs : Q) : Q := cb + cs - cb * cs.
Definition hardLight (cb cs : Q) : Q :=
  if Qle_bool cs (1 # 2) then multiply cb (2 * cs) else screen cb (2 * cs - 1).
Definition overlay (cb cs : Q) : Q := hardLight cs cb.

Definition compositeChannel (alphaS alphaB alphaO cs : Q) (c : byte) : byte :=
  let cb := unitQ c in
  let cs' := (1 - alphaB) * cs + alphaB * overlay cb cs in
  let co := alphaS * cs' + (1 - alphaS) * alphaB * cb in
  byteOfUnit (co / alphaO).

(** One pixel of [fillRect] under [globalCompositeOperation = 'overlay']:
    a result of zero alpha carries no colour, the pixel is left as it is. *)
Definition compositeOverlay (paint : color) (p : Pixel) : Pixel :=
  let '(r, g, b, a) := paint in
  let alphaB := unitQ (alpha p) in
  let alphaO := a + alphaB * (1 - a) in
  if Qeq_bool alphaO 0 then p
  else {| red := compositeChannel a alphaB alphaO r (red p);
          green := compositeChannel a alphaB alphaO g (green p);
          blue := compositeChannel a alphaB alphaO b (blue p);
          alpha := byteOfUnit alphaO |}.

Definition lerp (t a b : Q) : Q := a + (b - a) * t.

(** The colour of a two-stop gradient (offsets 0 and 1) at position [t]. *)
Definition gradientColor (c0 c1 : color) (t : Q) : color :=
  let '(r0, g0, b0, a0) := c0 in
  let '(r1, g1, b1, a1) := c1 in
  (lerp t r0 r1, lerp t g0 g1, lerp t b0 b1, lerp t a0 a1).

(** [rgba(0, 0, 0, a)] read as a CSS colour. *)
Definition rgba_black (a : Q) : color := (0, 0, 0, clamp01 a).

Record Canvas := { width : Z; height : Z; bitmap : list Pixel }.

Section Vignette.
(** The Euclidean length of a vector. *)
Variable norm : Q -> Q -> Q.

(** Position of a point in [createRadialGradient(cx, cy, r0, cx, cy, r1)]. *)
Definition radialOffset (cx cy r0 r1 x y : Q) : Q :=
  clamp01 ((norm (x - cx) (y - cy) - r0) / (r1 - r0)).

(** [applyVignette(ctx, canvas, amount)]. *)
Definition applyVignette (canvas : Canvas) (amount : Q) : Canvas :=
  let centerX := inject_Z (width canvas) / 2 in
  let centerY := inject_Z (height canvas) / 2 in
  let radius := maxQ centerX centerY * (8 # 10) in
  let paintAt (i : nat) : color :=
    let x := inject_Z (Z.of_nat i mod width canvas) + (1 # 2) in
    let y := inject_Z (Z.of_nat i / width canvas) + (1 # 2) in
    gradientColor (rgba_black 0) (rgba_black amount)
      (radialOffset centerX centerY (radius * (7 # 10)) radius x y) in
  {| width := width canvas; height := height canvas;
     bitmap := imap (fun i p => compositeOverlay (paintAt i) p) (bitmap canvas) |}.
End Vignette.

(** A 4x1 canvas and a stand-in for the Euclidean length. *)
Definition sampleCanvas : Canvas :=
  {| width := 4; height := 1;
     bitmap := [ {| red := "200"; green := "100"; blue := "050"; alpha := "255" |};
                 {| red := "120"; green := "130"; blue := "140"; alpha := "255" |};
                 {| red := "010"; green := "020"; blue := "030"; alpha := "000" |};
                 {| red := "250"; green := "240"; blue := "230"; alpha := "128" |} ]%byte |}.

Definition taxicab (dx dy : Q) : Q := Qabs dx + Qabs dy.

End Effects.

(** ** Parsing a CUBE text (the extension's [parseCubeLUT]) *)
Module LutTable.
Import JS ColorTransform.

Section Parser.
(** The conversion [Number(token)] of the platform. *)
Variable Number : str -> number.

(** The body of the loop over the lines
    (imageProcessor.document_start.ts, lines 498-517). *)
Definition parseLine (lut : Lut) (line : str) : Lut :=
  let trimmed := trim line in
  if startsWith ["#"%char] trimmed || isEmpty trimmed then lut
  else if startsWith (list_ascii_of_string "LUT_3D_SIZE") trimmed then
    {| size := parseInt (splitWhiteSpace trimmed !! 1%nat);
       data := data lut |}
  else
    match Number <$> splitWhiteSpace trimmed with
    | [v0; v1; v2] => {| size := size lut; data := data lut ++ [(v0, v1, v2)] |}
    | _ => lut
    end.

Definition parseLines (text : string) : Lut :=
  foldl parseLine {| size := Int 0; data := [] |}
        (splitOn LF (list_ascii_of_string text)).

(** [parseCubeLUT(text, presetName)] with the module-level [lutCache]
    threaded through (lines 487-522).  Presets are the names of the
    bundled assets; members inherited from [Object.prototype] are not
    preset names. *)
Definition parseCubeLUT (text presetName : string) (lutCache : gmap string Lut)
  : Lut * gmap string Lut :=
  match lutCache !! presetName with
  | Some cached => (cached, lutCache)
  | None =>
      let lut := parseLines text in
      (lut, <[presetName := lut]> lutCache)
  end.
End Parser.

End LutTable.

(** ** The parser of the stand-alone example page
  (web-luts/examples/lights-out-test.html, lines 229-325), the one
  variant that checks the row count against the declared size. *)
Module LightsOut.
Import JS ColorTransform.

Inductive ParseError :=
| CouldNotDetermineSize   (* "Could not determine LUT size from ... entries" *)
| SizeMismatchTooLarge    (* "Invalid LUT file: Expected ... values, but got ..." *)
| NotIterable.            (* TypeError: spreading [undefined] *)

Definition isNaN (x : number) : bool :=
  match x with S754_nan => true | _ => false end.

(** [line.split(/\s+/).filter(v => v !== '')]. *)
Definition tokens (line : str) : list str :=
  List.filter (fun v => negb (isEmpty v)) (splitWhiteSpace line).

(** [data.slice(0, e)]: a negative end counts from the end. *)
Definition slice0 {A} (l : list A) (e : Z) : list A :=
  if e <? 0 then take (Z.to_nat (Z.of_nat (length l) + e)) l
  else take (Z.to_nat e) l.

Section Parser.
Variable parseFloat : str -> number.
(** [Math.round(Math.pow(n, 1/3))]. *)
Variable roundedCubeRoot : nat -> Z.

(** First pass (lines 237-258): the size directive, and the index of
    the first line that looks like data. *)
Fixpoint firstPass (lines : list str) (i : nat) (size : integral)
  : integral * nat :=
  match lines with
  | [] => (size, 0%nat)
  | l :: rest =>
      let line := trim l in
      if isEmpty line || startsWith ["#"%char] line then
        firstPass rest (S i) size
      else if startsWith (list_ascii_of_string "LUT_3D_SIZE") line then
        firstPass rest (S i) (parseInt (splitOn " "%char line !! 1%nat))
      else
        match tokens line with
        | [v0; _; _] =>
            if negb (isNaN (parseFloat v0)) then (size, i)
            else firstPass rest (S i) size
        | _ => firstPass rest (S i) size
        end
  end.

(** Second pass (lines 261-272). *)
Definition secondPassLine (data : list row) (l : str) : list row :=
  let line := trim l in
  if isEmpty line || startsWith ["#"%char] line then data
  else match parseFloat <$> tokens line with
       | [v0; v1; v2] => data ++ [(v0, v1, v2)]
       | _ => data
       end.

(** Size inference when no directive was read (lines 277-296). *)
Definition inferSize (data : list row) : ParseError + Lut :=
  let len := Z.of_nat (length data) in
  let size := roundedCubeRoot (length data) in
  let size :=
    if size * size * size =? len then size
    else match List.find (fun t => Z.abs (t * t * t - len) <? 20) [17; 33; 65] with
         | Some t => t
         | None => size
         end in
  if size =? 0 then inl CouldNotDetermineSize
  else inr {| size := Int size; data := data |}.

(** The row-count check and repair (lines 297-321). *)
Definition checkRows (n : Z) (data : list row) : ParseError + Lut :=
  let len := Z.of_nat (length data) in
  let expectedCount := n * n * n in
  if len =? expectedCount then inr {| size := Int n; data := data |}
  else
    let diff := Z.abs (expectedCount - len) in
    if diff <=? 20 then
      if len <? expectedCount then
        match last data with
        | Some lastEntry =>
            inr {| size := Int n;
                   data := data ++ replicate (Z.to_nat (expectedCount - len)) lastEntry |}
        | None => inl NotIterable
        end
      else inr {| size := Int n; data := slice0 data expectedCount |}
    else inl SizeMismatchTooLarge.

Definition finish (size : integral) (data : list row) : ParseError + Lut :=
  match size with
  | Int n => if n =? 0 then inferSize data else checkRows n data
  | _ => inl SizeMismatchTooLarge
  end.

Definition parseCubeLUT (text : string) : ParseError + Lut :=
  let lines := splitOn LF (list_ascii_of_string text) in
  let '(size, dataStartIndex) := firstPass lines 0 (Int 0) in
  let data := foldl secondPassLine [] (drop dataStartIndex lines) in
  finish size data.
End Parser.
End LightsOut.

(** ** The CUBE text format, as the specification describes it

  "Input is a line-oriented text format: comment/blank lines ignored; a
  size directive declares N; subsequent numeric triples are color
  rows."  A text is given by its lines; [render] writes it out. *)
Module CubeText.
Import JS.

Definition allSpace (s : str) : Prop := Forall (fun c => isWhiteSpace c = true) s.
Definition noSpace (s : str) : Prop := Forall (fun c => isWhiteSpace c = false) s.

(** A string whose first and last characters are not white space. *)
Definition tight (s : str) : Prop :=
  (exists c rest, s = c :: rest /\ isWhiteSpace c = false) /\
  (exists init c', s = init ++ [c'] /\ isWhiteSpace c' = false).

Definition isDigit (c : ascii) : Prop := exists v, digitValue c = Some v.

Definition uintChars (d : Decimal.uint) : str :=
  list_ascii_of_string (NilEmpty.string_of_uint d).

(** White space that does not end the line. *)
Definition inlineSpace (s : str) : Prop :=
  Forall (fun c => isWhiteSpace c = true /\ c <> LF) s.

(** The characters of a decimal floating-point literal. *)
Definition numeralChar (c : ascii) : bool :=
  let n := nat_of_ascii c in
  (((48 <=? n) && (n <=? 57)) || (n =? 43) || (n =? 45) || (n =? 46)
   || (n =? 69) || (n =? 101))%nat.

Definition numeral (t : str) : Prop :=
  t <> [] /\ Forall (fun c => numeralChar c = true) t.

(** The decimal numeral of a natural number. *)
Definition decimal (n : N) : str :=
  list_ascii_of_string (NilZero.string_of_uint (N.to_uint n)).

Definition keyword : str := list_ascii_of_string "LUT_3D_SIZE".

Inductive Line :=
| Blank (space : str)
| Comment (indent body : str)
| SizeDirective (indent gap : str) (n : N) (trail : str)
| ColorRow (indent r gap1 g gap2 b trail : str).

Definition renderLine (l : Line) : str :=
  match l with
  | Blank space => space
  | Comment indent body => indent ++ "#"%char :: body
  | SizeDirective indent gap n trail => indent ++ keyword ++ gap ++ decimal n ++ trail
  | ColorRow indent r gap1 g gap2 b trail =>
      indent ++ r ++ gap1 ++ g ++ gap2 ++ b ++ trail
  end.

Definition validLine (l : Line) : Prop :=
  match l with
  | Blank space => inlineSpace space
  | Comment indent body => inlineSpace indent /\ LF ∉ body
  | SizeDirective indent gap n trail =>
      inlineSpace indent /\ inlineSpace gap /\ gap <> [] /\ inlineSpace trail
  | ColorRow indent r gap1 g gap2 b trail =>
      inlineSpace indent /\ numeral r /\
      inlineSpace gap1 /\ gap1 <> [] /\ numeral g /\
      inlineSpace gap2 /\ gap2 <> [] /\ numeral b /\
      inlineSpace trail
  end.

Fixpoint joinLines (ls : list str) : str :=
  match ls with
  | [] => []
  | [l] => l
  | l :: ls' => l ++ LF :: joinLines ls'
  end.

Definition render (ls : list Line) : string :=
  string_of_list_ascii (joinLines (renderLine <$> ls)).

(** The sizes declared and the colour rows written, in order. *)
Definition declaredSizes (ls : list Line) : list N :=
  omap (fun l => match l with SizeDirective _ _ n _ => Some n | _ => None end) ls.

Definition colorRows (ls : list Line) : list (str * str * str) :=
  omap (fun l => match l with
                 | ColorRow _ r _ g _ b _ => Some (r, g, b)
                 | _ => None
                 end) ls.

(** What a line of the text contributes to the table. *)
Definition lineEffect (Number : str -> number)
    (lut : ColorTransform.Lut) (l : Line) : ColorTransform.Lut :=
  match l with
  | Blank _ | Comment _ _ => lut
  | SizeDirective _ _ n _ =>
      {| ColorTransform.size := Int (Z.of_N n);
         ColorTransform.data := ColorTransform.data lut |}
  | ColorRow _ r _ g _ b _ =>
      {| ColorTransform.size := ColorTransform.size lut;
         ColorTransform.data :=
           ColorTransform.data lut ++ [(Number r, Number g, Number b)] |}
  end.

Definition numbers (Number : str -> number) (t : str * str * str)
  : ColorTransform.row :=
  (Number t.1.1, Number t.1.2, Number t.2).

(** A small text: a comment, the size directive [LUT_3D_SIZE 1] closed by
    CR LF, a blank line and one colour row. *)
Definition chars (s : string) : str := list_ascii_of_string s.
Definition CR : ascii := ascii_of_nat 13.

Definition sampleLines : list Line :=
  [ Comment [] (chars " identity, one point");
    SizeDirective [] (chars " ") 1 [CR];
    Blank [];
    ColorRow (chars "  ") (chars "0.5") (chars " ") (chars "1e0") (chars "  ")
             (chars "-0") [CR] ].

(** A text that declares size 2 and carries seven rows instead of
    eight. *)
Definition LFs : string := String LF EmptyString.
Definition sevenRows : string :=
  ("LUT_3D_SIZE 2" ++ LFs ++
   "0 0 0" ++ LFs ++ "0 0 1" ++ LFs ++ "0 1 0" ++ LFs ++ "0 1 1" ++ LFs ++
   "1 0 0" ++ LFs ++ "1 0 1" ++ LFs ++ "1 1 0")%string.

(** A header line of three tokens before a one-point table. *)
Definition quoteMark : string := String (ascii_of_nat 34) EmptyString.
Definition titled : string :=
  ("TITLE " ++ quoteMark ++ "Kodak 2383" ++ quoteMark ++ LFs ++
   "LUT_3D_SIZE 1" ++ LFs ++ "0 0 0")%string.

(** A text that declares size 3 and carries a single row. *)
Definition oneRow : string := ("LUT_3D_SIZE 3" ++ LFs ++ "1 1 1")%string.

(** The exact counterpart of [Math.round(Math.pow(n, 1/3))]. *)
Fixpoint cubeRootFrom (fuel : nat) (k n : Z) : Z :=
  match fuel with
  | O => k
  | S fuel' =>
      if (k + 1) * (k + 1) * (k + 1) <=? n then cubeRootFrom fuel' (k + 1) n
      else k
  end.

Definition nearestCubeRoot (n : nat) : Z :=
  let r := cubeRootFrom n 0 (Z.of_nat n) in
  if (2 * r + 1) * (2 * r + 1) * (2 * r + 1) <=? 8 * Z.of_nat n then r + 1 else r.

(** A stand-in for [Number] that reads integer literals only. *)
Definition integerLiteral (t : str) : number :=
  match parseInt (Some t) with
  | Int z => ofZ z
  | _ => S754_nan
  end.

End CubeText.

(** ** The result cache ([cacheManager], lines 247-305)

    [processedUrlCache] is a [Set] of cache keys, of which only membership
    and size are observed; [cacheManager.entries] is a [Map] from key to
    the [Date.now()] of its last [add], iterated in insertion order. *)
Module Cache.

Definition MAX_CACHE_SIZE : nat := 300.
Definition CACHE_CLEAN_THRESHOLD : nat := 250.

(** [sort((a, b) => a[1] - b[1])]: ascending timestamps; the sort of the
    platform is stable, as is this insertion sort. *)
Fixpoint insertByTime (x : string * Z) (l : list (string * Z)) : list (string * Z) :=
  match l with
  | [] => [x]
  | y :: l' => if x.2 <=? y.2 then x :: y :: l' else y :: insertByTime x l'
  end.

Definition sortByTime (l : list (string * Z)) : list (string * Z) :=
  foldr insertByTime [] l.


Record State := {
  processedUrlCache : gset string;
  entries : list (string * Z)
}.

Definition empty : State := {| processedUrlCache := ∅; entries := [] |}.

(** [Map.prototype.set]: an existing key keeps its place. *)
Definition mapSet (key : string) (value : Z) (m : list (string * Z))
  : list (string * Z) :=
  if decide (key ∈ m.*1)
  then (fun e => if decide (e.1 = key) then (key, value) else e) <$> m
  else m ++ [(key, value)].

Definition mapDelete (key : string) (m : list (string * Z)) : list (string * Z) :=
  filter (fun e => e.1 ≠ key) m.

Definition has (key : string) (s : State) : bool :=
  bool_decide (key ∈ processedUrlCache s).

Definition delete (key : string) (s : State) : State :=
  {| processedUrlCache := processedUrlCache s ∖ {[key]};
     entries := mapDelete key (entries s) |}.

Definition cleanup (s : State) : State :=
  if decide (size (processedUrlCache s) ≤ MAX_CACHE_SIZE)%nat then s
  else
    let sortedEntries := sortByTime (entries s) in
    let removeCount := (size (processedUrlCache s) - MAX_CACHE_SIZE)%nat in
    foldl (fun s e => delete e.1 s) s (take removeCount sortedEntries).

(** The state right after the two insertions of [add], before the
    threshold test. *)
Definition inserted (key : string) (now : Z) (s : State) : State :=
  {| processedUrlCache := {[key]} ∪ processedUrlCache s;
     entries := mapSet key now (entries s) |}.

Definition add (key : string) (now : Z) (s : State) : State :=
  let s := inserted key now s in
  if decide (CACHE_CLEAN_THRESHOLD < size (processedUrlCache s))%nat
  then cleanup s else s.

Definition clear (s : State) : State := empty.

(** Calls on the cache manager; [now] is what [Date.now()] returns during
    the call. *)
Inductive Call :=
| CallAdd (key : string) (now : Z)
| CallHas (key : string)
| CallDelete (key : string)
| CallClear.

Definition call (s : State) (c : Call) : State :=
  match c with
  | CallAdd key now => add key now s
  | CallHas _ => s
  | CallDelete key => delete key s
  | CallClear => clear s
  end.

Definition run (calls : list Call) : State := foldl call empty calls.

(** [n] distinct keys, the i-th added at time i. *)
Definition manyKeys (n : nat) : list Call :=
  (fun i => CallAdd (NilZero.string_of_uint (Nat.to_uint i)) (Z.of_nat i)) <$> seq 0 n.

(** The two stores agree and the map has one entry per key. *)
Definition consistent (s : State) : Prop :=
  processedUrlCache s = list_to_set (entries s).*1 /\ NoDup (entries s).*1.

End Cache.

(** ** Surfaces of the host page

    What the pipeline reads and writes on an [<img>] element or on an
    element with a background image: the visible reference ([src], or the
    URL of [style.backgroundImage]), the [data-film-grade-*] attributes,
    the accessors [lockImageSrc] installs, and the overlay
    [robustShadowReplace] inserts before the element.  URLs are absolute,
    so that the [src] property reads back the attribute. *)
Module Dom.

Inductive Kind := Image | Background.

(** The wrapper of the overlay strategy: the URL its image shows, and
    whether [wrapper.shadowRoot] gives access to its shadow tree (it does
    not when the tree was attached in closed mode). *)
Record Wrapper := { shown : string; shadowRootVisible : bool }.

Record Element := {
  kind : Kind;
  src : string;
  originalSrc : option string;     (* dataset.filmGradeOriginalSrc *)
  processed : option string;       (* dataset.filmGradeProcessed *)
  locked : option string;          (* dataset.filmGradeLocked *)
  allowSet : option string;        (* dataset.filmGradeAllowSet *)
  processing : bool;               (* data-film-grade-processing="true" *)
  srcGuard : bool;                 (* own accessor for [src] installed *)
  setAttributeGuard : bool;        (* own [setAttribute] wrapper installed *)
  robustShadow : bool;             (* data-film-grade-robust-shadow present *)
  overlay : option Wrapper;        (* the wrapper inserted before the element *)
  hidden : bool                    (* style.opacity is '0' *)
}.

Definition withSrc (v : string) (e : Element) : Element :=
  {| kind := kind e; src := v; originalSrc := originalSrc e;
     processed := processed e; locked := locked e; allowSet := allowSet e;
     processing := processing e; srcGuard := srcGuard e;
     setAttributeGuard := setAttributeGuard e; robustShadow := robustShadow e;
     overlay := overlay e; hidden := hidden e |}.

Definition withOriginalSrc (v : option string) (e : Element) : Element :=
  {| kind := kind e; src := src e; originalSrc := v;
     processed := processed e; locked := locked e; allowSet := allowSet e;
     processing := processing e; srcGuard := srcGuard e;
     setAttributeGuard := setAttributeGuard e; robustShadow := robustShadow e;
     overlay := overlay e; hidden := hidden e |}.

Definition withProcessed (v : option string) (e : Element) : Element :=
  {| kind := kind e; src := src e; originalSrc := originalSrc e;
     processed := v; locked := locked e; allowSet := allowSet e;
     processing := processing e; srcGuard := srcGuard e;
     setAttributeGuard := setAttributeGuard e; robustShadow := robustShadow e;
     overlay := overlay e; hidden := hidden e |}.

Definition withLocked (v : option string) (e : Element) : Element :=
  {| kind := kind e; src := src e; originalSrc := originalSrc e;
     processed := processed e; locked := v; allowSet := allowSet e;
     processing := processing e; srcGuard := srcGuard e;
     setAttributeGuard := setAttributeGuard e; robustShadow := robustShadow e;
     overlay := overlay e; hidden := hidden e |}.

Definition withAllowSet (v : option string) (e : Element) : Element :=
  {| kind := kind e; src := src e; originalSrc := originalSrc e;
     processed := processed e; locked := locked e; allowSet := v;
     processing := processing e; srcGuard := srcGuard e;
     setAttributeGuard := setAttributeGuard e; robustShadow := robustShadow e;
     overlay := overlay e; hidden := hidden e |}.

Definition withProcessing (v : bool) (e : Element) : Element :=
  {| kind := kind e; src := src e; originalSrc := originalSrc e;
     processed := processed e; locked := locked e; allowSet := allowSet e;
     processing := v; srcGuard := srcGuard e;
     setAttributeGuard := setAttributeGuard e; robustShadow := robustShadow e;
     overlay := overlay e; hidden := hidden e |}.

Definition withGuards (e : Element) : Element :=
  {| kind := kind e; src := src e; originalSrc := originalSrc e;
     processed := processed e; locked := locked e; allowSet := allowSet e;
     processing := processing e; srcGuard := true;
     setAttributeGuard := true; robustShadow := robustShadow e;
     overlay := overlay e; hidden := hidden e |}.

Definition withOverlay (shadow : bool) (o : option Wrapper) (h : bool) (e : Element)
  : Element :=
  {| kind := kind e; src := src e; originalSrc := originalSrc e;
     processed := processed e; locked := locked e; allowSet := allowSet e;
     processing := processing e; srcGuard := srcGuard e;
     setAttributeGuard := setAttributeGuard e; robustShadow := shadow;
     overlay := o; hidden := h |}.

(** A string in a boolean position. *)
Definition truthy (o : option string) : bool :=
  match o with
  | Some s => negb (s =? EmptyString)%string
  | None => false
  end.

Definition isTrue (o : option string) : bool :=
  match o with
  | Some s => (s =? "true")%string
  | None => false
  end.

(** ASCII lower case, as [name.toLowerCase()] on attribute names. *)
Definition lowerChar (c : ascii) : ascii :=
  let n := nat_of_ascii c in
  if ((65 <=? n) && (n <=? 90))%nat then ascii_of_nat (n + 32) else c.

Fixpoint toLowerCase (s : string) : string :=
  match s with
  | EmptyString => EmptyString
  | String c s' => String (lowerChar c) (toLowerCase s')
  end.

(** [element.src = value]: the accessor of [lockImageSrc] (lines
    1652-1670) forwards to the original setter only while
    [dataset.filmGradeAllowSet === 'true'], and otherwise returns without
    doing anything. *)
Definition setSrc (value : string) (e : Element) : Element :=
  if srcGuard e then (if isTrue (allowSet e) then withSrc value e else e)
  else withSrc value e.

(** [element.setAttribute(name, value)] for the attributes of the model
    (lines 1673-1684). *)
Definition setAttribute (name value : string) (e : Element) : Element :=
  if (toLowerCase name =? "src")%string then
    if setAttributeGuard e && negb (isTrue (allowSet e)) then e
    else withSrc value e
  else e.

(** [lockImageSrc(imgElement)] (lines 1634-1690); [descriptor] tells
    whether [HTMLImageElement.prototype] has a [src] descriptor. *)
Definition lockImageSrc (descriptor : bool) (e : Element) : Element :=
  if isTrue (locked e) then e
  else
    let e := withLocked (Some "true"%string) e in
    if descriptor then withGuards e else e.

(** Writes to the visible reference by the scripts of the host page. *)
Inductive HostWrite :=
| AssignSrc (value : string)                (* img.src = value *)
| CallSetAttribute (name value : string).   (* img.setAttribute(name, value) *)

Definition hostWrite (e : Element) (w : HostWrite) : Element :=
  match w with
  | AssignSrc value => setSrc value e
  | CallSetAttribute name value => setAttribute name value e
  end.

(** The pipeline's own write: raise the capability, write, lower it. *)
Definition authorizedSetSrc (value : string) (e : Element) : Element :=
  withAllowSet (Some "false"%string)
    (setSrc value (withAllowSet (Some "true"%string) e)).

(** [robustShadowReplace(originalImg, processedDataUrl)] (lines
    1873-2033): the wrapper, with a shadow tree attached in closed mode
    (line 1919), is inserted before the image and the image is hidden, not
    detached. *)
Definition robustShadowReplace (dataUrl : string) (e : Element) : Element :=
  if robustShadow e then e
  else withOverlay true (Some {| shown := dataUrl; shadowRootVisible := false |})
                   true e.

(** [revertElement(element)] (lines 1083-1143). *)
Definition revertElement (e : Element) : Element :=
  (* 1. the overlay, when the previous sibling is a wrapper whose
        [shadowRoot] is not null *)
  let e := match overlay e with
           | Some w => if shadowRootVisible w
                       then withOverlay false None false e else e
           | None => e
           end in
  (* 2. and 3. the visible reference *)
  let e :=
    match kind e with
    | Image =>
        let e := match originalSrc e with
                 | Some o =>
                     if negb (o =? EmptyString)%string && negb (src e =? o)%string
                     then authorizedSetSrc o e else e
                 | None => e
                 end in
        withLocked None (withProcessed None (withOriginalSrc None e))
    | Background =>
        match originalSrc e with
        | Some o =>
            if negb (o =? EmptyString)%string && String.prefix "data:image" (src e)
            then withProcessed None (withOriginalSrc None (withSrc o e))
            else e
        | None => e
        end
    end in
  (* 5. remaining markers *)
  withProcessing false (withOverlay false (overlay e) (hidden e) e).

End Dom.

(** ** The pipeline on image surfaces ([processImage], [processAllMedia])

    Hosts other than medium.com (which has a processor of its own). *)
Module Pipeline.
Import Dom.

(** [CONFIG] (lines 190-223), the limits the scheduler is concerned
    with. *)
Definition BATCH_SIZE : nat := 6.
Definition MAX_CONCURRENT : nat := 4.

Record Settings := {
  preset : string;
  enableGrain : bool;
  enableVignette : bool
}.

Definition flag (b : bool) : string := if b then "1" else "0".

(** [`${originalSrc}-${preset}-${enableGrain ? 1 : 0}-${enableVignette ? 1 : 0}`] *)
Definition cacheKey (originalSrc : string) (st : Settings) : string :=
  (originalSrc ++ "-" ++ preset st ++ "-" ++ flag (enableGrain st) ++ "-"
   ++ flag (enableVignette st))%string.

(** What a call of [processImage] has in hand when it suspends on
    [await loadImageCrossOrigin(originalSrc)]. *)
Record Job := { jobOriginalSrc : string; jobCacheKey : string }.

(** [processImage] up to its first suspension (lines 635-690): the
    element as it leaves it, and the job when the call is suspended
    rather than returned. *)
Definition start (st : Settings) (forceReprocess : bool)
    (processedUrlCache : gset string) (e : Element) : Element * option Job :=
  if (src e =? EmptyString)%string || (isTrue (locked e) && negb forceReprocess) then (e, None)
  else if processing e then (e, None)
  else
    let e := withProcessing true e in
    let '(original, forceReprocess) :=
      if String.prefix "data:image" (src e) && truthy (originalSrc e)
      then (default EmptyString (originalSrc e), true)
      else (src e, forceReprocess) in
    if (original =? EmptyString)%string then (withProcessing false e, None)
    else
      let key := cacheKey original st in
      if negb forceReprocess && bool_decide (key ∈ processedUrlCache)
         && isTrue (processed e)
      then (withProcessing false e, None)
      else (e, Some {| jobOriginalSrc := original; jobCacheKey := key |}).

(** What the platform answers after the suspension. *)
Inductive Outcome :=
| LoadError          (* [loadImageCrossOrigin] rejects, proxy fallback included *)
| EmptyImage         (* width or height is 0 *)
| NoContext          (* [getContext('2d')] is null *)
| PixelReadBlocked   (* [getImageData] throws on a tainted canvas *)
| Rendered (lutOk : bool) (dataUrl : string) (useShadow : bool).
    (* [lutOk]: the LUT was fetched, parsed and is not degenerate;
       [dataUrl]: [canvas.toDataURL] after the transform and the effects;
       [useShadow]: the overlay strategy applies to this element *)

(** The handler of the outer [catch] (lines 818-830), which is also what
    the unprocessed branch does first (lines 808-815). *)
Definition restoreRecorded (e : Element) : Element :=
  match originalSrc e with
  | Some o =>
      if negb (o =? EmptyString)%string && negb (src e =? o)%string
      then withProcessed None (authorizedSetSrc o e)
      else e
  | None => e
  end.

(** The direct strategy (lines 779-806). *)
Definition commitDirect (descriptor : bool) (job : Job) (dataUrl : string)
    (e : Element) : Element :=
  let e := lockImageSrc descriptor e in
  let e := withOriginalSrc (Some (jobOriginalSrc job)) e in
  let e := withProcessed (Some "true"%string) e in
  authorizedSetSrc dataUrl e.

(** [processImage] from the suspension to its end (lines 690-838),
    including the delayed removal of the in-flight marker. *)
Definition resume (st : Settings) (descriptor : bool) (out : Outcome) (job : Job)
    (processedUrlCache : gset string) (e : Element) : Element * gset string :=
  match out with
  | LoadError => (withProcessing false (restoreRecorded e), processedUrlCache)
  | EmptyImage | NoContext | PixelReadBlocked =>
      (withProcessing false e, processedUrlCache)
  | Rendered lutOk dataUrl useShadow =>
      let processedFlag :=
        (negb (preset st =? "none")%string && lutOk)
        || enableGrain st || enableVignette st in
      if processedFlag then
        if useShadow
        then (withProcessing false (robustShadowReplace dataUrl e), processedUrlCache)
        else (withProcessing false (commitDirect descriptor job dataUrl e),
              {[jobCacheKey job]} ∪ processedUrlCache)
      else
        (withProcessing false (withOriginalSrc None (restoreRecorded e)),
         processedUrlCache)
  end.

(** One call of [processImage] run to its end. *)
Definition processImage (st : Settings) (forceReprocess descriptor : bool)
    (out : Outcome) (processedUrlCache : gset string) (e : Element)
  : Element * gset string :=
  match start st forceReprocess processedUrlCache e with
  | (e, Some job) => resume st descriptor out job processedUrlCache e
  | (e, None) => (e, processedUrlCache)
  end.

(** [batch.map(el => processElement(el))] (line 1202): every call runs to
    its first suspension before any of them resumes. *)
Definition dispatch (st : Settings) (forceReprocess : bool)
    (processedUrlCache : gset string) (batch : list Element)
  : list (Element * option Job) :=
  start st forceReprocess processedUrlCache <$> batch.

Definition inFlight (es : list Element) : nat :=
  length (filter (fun e => processing e = true) es).

(** [await Promise.all(...)]: the suspended calls resume, each with the
    answer the platform gives it; [processElement] catches whatever one
    of them throws (lines 1172-1184). *)
Fixpoint settle (st : Settings) (descriptor : bool)
    (pending : list (Element * option Job)) (outs : list Outcome)
    (processedUrlCache : gset string) : list Element * gset string :=
  match pending with
  | [] => ([], processedUrlCache)
  | (e, job) :: pending' =>
      let '(e', cache') :=
        match job, head outs with
        | Some job, Some out => resume st descriptor out job processedUrlCache e
        | _, _ => (e, processedUrlCache)
        end in
      let '(es, cache'') := settle st descriptor pending' (tail outs) cache' in
      (e' :: es, cache'')
  end.

Definition processBatch (st : Settings) (forceReprocess descriptor : bool)
    (outs : list Outcome) (processedUrlCache : gset string) (batch : list Element)
  : list Element * gset string :=
  settle st descriptor (dispatch st forceReprocess processedUrlCache batch) outs
         processedUrlCache.

(** The disabled branch of [processAllMedia] (lines 1153-1162): every
    element matching [[data-film-grade-processed],
    [data-film-grade-robust-shadow]] is reverted; nothing else is
    touched. *)
Definition selectedForRevert (e : Element) : bool :=
  match processed e with Some _ => true | None => robustShadow e end.

Definition disable (document : list Element) (processedUrlCache : gset string)
  : list Element * gset string :=
  ((fun e => if selectedForRevert e then revertElement e else e) <$> document,
   processedUrlCache).

(** The source a surface shows when it is untransformed: the recorded
    original when there is one, its current source otherwise. *)
Definition recordedOrCurrent (e : Element) : string :=
  match originalSrc e with
  | Some o => if (o =? EmptyString)%string then src e else o
  | None => src e
  end.



(** An image that [processImage] takes up: it has a source, and is
    neither locked, nor in flight, nor processed before. *)
Definition eligible (e : Element) : Prop :=
  src e <> EmptyString /\ isTrue (locked e) = false /\ processing e = false /\
  originalSrc e = None /\ processed e = None.

(** A fresh image of the host page. *)
Definition freshImage (url : string) : Element :=
  {| kind := Image; src := url; originalSrc := None; processed := None;
     locked := None; allowSet := None; processing := false;
     srcGuard := false; setAttributeGuard := false; robustShadow := false;
     overlay := None; hidden := false |}.

Definition sixImages : list Element :=
  freshImage <$> ["https://host/a.png"; "https://host/b.png"; "https://host/c.png";
                  "https://host/d.png"; "https://host/e.png"; "https://host/f.png"]%string.

Definition fuji : Settings :=
  {| preset := "fuji"; enableGrain := false; enableVignette := false |}.

Definition fujiGrain : Settings :=
  {| preset := "fuji"; enableGrain := true; enableVignette := false |}.

Definition jpeg : string := "data:image/jpeg;base64,AAAA".

(** An image after a direct commit, one after an overlay commit, and the
    cache after the former. *)
Definition committedImage : Element :=
  (processImage fuji true true (Rendered true jpeg false) ∅
                (freshImage "https://host/a.png")).1.

Definition cacheAfterCommit : gset string :=
  (processImage fuji true true (Rendered true jpeg false) ∅
                (freshImage "https://host/a.png")).2.

Definition overlaidImage : Element :=
  (processImage fuji true true (Rendered true jpeg true) ∅
                (freshImage "https://host/b.png")).1.

End Pipeline.

(** ** Calls of [processImage] one after the other *)
Module History.
Import Dom Pipeline.

(** One call of [processImage] on an image: the settings in force, the
    [forceReprocess] argument, whether the prototype has a [src]
    descriptor, and what the platform answers. *)
Record Pass := {
  passSettings : Settings;
  passForce : bool;
  passDescriptor : bool;
  passOutcome : Outcome
}.

Definition pass (state : Element * gset string) (p : Pass) : Element * gset string :=
  processImage (passSettings p) (passForce p) (passDescriptor p) (passOutcome p)
               state.2 state.1.

(** Calls made one after the other, each run to its end. *)
Definition passes (e : Element) (processedUrlCache : gset string) (ps : list Pass)
  : Element * gset string :=
  foldl pass (e, processedUrlCache) ps.

(** [canvas.toDataURL] returns a [data:image/...] URL. *)
Definition rendersDataUrl (out : Outcome) : Prop :=
  match out with
  | Rendered _ dataUrl _ => String.prefix "data:image" dataUrl = true
  | _ => True
  end.

(** What the calls keep about an image whose source was [u]: the recorded
    original, when there is one, is [u]; the source is [u] unless the image
    shows a data URL over a recorded original; no call is left in flight. *)
Definition keepsOriginal (u : string) (e : Element) : Prop :=
  kind e = Image /\ u <> EmptyString /\
  recordedOrCurrent e = u /\
  (src e = u \/ (String.prefix "data:image" (src e) = true /\ originalSrc e = Some u)) /\
  processing e = false.

Definition samplePasses : list Pass :=
  [ {| passSettings := fuji; passForce := true; passDescriptor := true;
       passOutcome := Rendered true jpeg false |};
    {| passSettings := fujiGrain; passForce := true; passDescriptor := true;
       passOutcome := Rendered false jpeg false |};
    {| passSettings := fuji; passForce := true; passDescriptor := true;
       passOutcome := LoadError |};
    {| passSettings := fuji; passForce := false; passDescriptor := true;
       passOutcome := Rendered true jpeg true |} ].

End History.

(** ** The LUT stage of a call (lines 733-753, and the same lines of
    [processBackgroundImage] and [processMediumImage]) *)
Module LutStep.
Import JS ColorTransform LutTable.

(** [n === 0] on an integer-valued number. *)
Definition isZero (i : integral) : bool :=
  match i with Int z => z =? 0 | _ => false end.

Section Step.
Variable Number : str -> number.

(** [fetched] is the text of the preset's asset, [None] when the response
    is not ok.  The result is the buffer put back on the canvas, [None]
    when the canvas is left as it is: no preset, or an error, which is
    caught and logged. *)
Definition lutStep (preset : string) (fetched : option string)
    (lutCache : gmap string Lut) (imageData : ImageData)
  : option ImageData * gmap string Lut :=
  if (preset =? "none")%string then (None, lutCache)
  else
    match fetched with
    | None => (None, lutCache)
    | Some lutText =>
        let '(lut, lutCache) := parseCubeLUT Number lutText preset lutCache in
        if isZero (size lut) || (length (data lut) =? 0)%nat then (None, lutCache)
        else (applyCubeLUT imageData lut, lutCache)
    end.
End Step.
End LutStep.

(** ** Finding the media of a page ([findMediaElements],
    [findAllMediaElements], lines 313-469) and scheduling them
    ([processAllMedia], lines 1186-1205) *)
Module Scan.
Import JS.

(** [a < b] and [a <= b] on numbers; [a > b] is [numLt b a]. *)
Definition numLt (a b : number) : bool := SFltb a b.
Definition numLe (a b : number) : bool := SFleb a b.

(** [s.includes(sub)]. *)
Fixpoint includes (sub s : string) : bool :=
  String.prefix sub s ||
  match s with
  | String _ s' => includes sub s'
  | EmptyString => false
  end.

(** [CONFIG]: the fields the scan reads.  [VIEWPORT_EXPANSION] is
    assigned by [performFullPageScan], hence an argument of the scan. *)
Definition MAX_IMAGES_TO_PROCESS : nat := 150.
Definition MIN_IMAGE_SIZE : number := ofZ 30.
Definition LARGE_IMAGE_SIZE : number := ofZ 200.
Definition CACHE_DURATION : Z := 1000.

(** [getBoundingClientRect()]. *)
Record Rect := {
  rectWidth : number; rectHeight : number;
  rectTop : number; rectBottom : number; rectLeft : number; rectRight : number
}.

(** An element as the scan sees it. *)
Record Node := {
  tagName : string;
  ancestors : list string;          (* [tagName] of the parent, of its parent, ... *)
  rect : Rect;
  computedBackground : string;      (* getComputedStyle(el).backgroundImage *)
  recordedSrc : option string       (* dataset.filmGradeOriginalSrc *)
}.

(** The page at the time of a scan: the elements the two selectors match,
    in document order, and the size of the window. *)
Record Page := {
  images : list Node;
  backgrounds : list Node;
  innerWidth : number;
  innerHeight : number
}.

(** [isSVGorVector] (lines 80-92). *)
Definition isSVGorVector (element : Node) : bool :=
  (tagName element =? "svg")%string || (tagName element =? "path")%string
  || existsb (fun t => (t =? "svg")%string) (ancestors element).

(** [vertInView && horInView] (lines 356-361 and 385-390). *)
Definition inView (expansion : number) (page : Page) (r : Rect) : bool :=
  let vertInView := numLe (rectTop r) (add (innerHeight page) expansion)
                    && numLe (SFopp expansion) (rectBottom r) in
  let horInView := numLe (rectLeft r) (add (innerWidth page) expansion)
                   && numLe (SFopp expansion) (rectRight r) in
  vertInView && horInView.

Definition isLarge (r : Rect) : bool :=
  numLt LARGE_IMAGE_SIZE (rectWidth r) || numLt LARGE_IMAGE_SIZE (rectHeight r).

(** The tests an image passes before it is pushed (lines 345-361). *)
Definition acceptsImage (expansion : number) (page : Page) (img : Node) : bool :=
  negb (isSVGorVector img)
  && negb (numLt (rectWidth (rect img)) MIN_IMAGE_SIZE
           || numLt (rectHeight (rect img)) MIN_IMAGE_SIZE)
  && inView expansion page (rect img).

(** The first characters of a background that shows a data URL. *)
Definition dataUrlPrefix : string :=
  ("url(" ++ String (ascii_of_nat 34) "data:image")%string.

(** The tests a background container passes (lines 382-390). *)
Definition acceptsBackground (expansion : number) (page : Page) (el : Node) : bool :=
  let bg := computedBackground el in
  negb (bg =? EmptyString)%string && negb (bg =? "none")%string
  && negb (includes "svg" bg)
  && negb (String.prefix dataUrlPrefix bg && Dom.truthy (recordedSrc el))
  && inView expansion page (rect el).

Record MediaElements := { regular : list Node; large : list Node }.

(** The accumulators of the two [forEach] loops. *)
Record Found := { found : MediaElements; imageCount : nat }.

Definition push (acc : Found) (el : Node) : Found :=
  {| found := if isLarge (rect el)
              then {| regular := regular (found acc); large := large (found acc) ++ [el] |}
              else {| regular := regular (found acc) ++ [el]; large := large (found acc) |};
     imageCount := S (imageCount acc) |}.

Definition visit (accepts : Node -> bool) (acc : Found) (el : Node) : Found :=
  if (MAX_IMAGES_TO_PROCESS <=? imageCount acc)%nat then acc
  else if accepts el then push acc el else acc.

(** The scan proper (lines 331-400). *)
Definition scan (expansion : number) (page : Page) : MediaElements :=
  let acc := {| found := {| regular := []; large := [] |}; imageCount := 0 |} in
  let acc := foldl (visit (acceptsImage expansion page)) acc (images page) in
  let acc :=
    if (imageCount acc <? MAX_IMAGES_TO_PROCESS)%nat
    then foldl (visit (acceptsBackground expansion page)) acc (backgrounds page)
    else acc in
  found acc.

(** The module-level variables of the scan, and
    [window.FilmGradeExt.lastResult]. *)
Record ScanState := {
  mediaElementsCache : option MediaElements;
  lastCacheTime : Z;
  lastResult : option MediaElements
}.

Definition noScanYet : ScanState :=
  {| mediaElementsCache := None; lastCacheTime := 0; lastResult := None |}.

(** [findMediaElements()] (lines 318-416); [now] is [Date.now()]. *)
Definition findMediaElements (expansion : number) (now : Z) (page : Page)
    (s : ScanState) : MediaElements * ScanState :=
  let rescan :=
    let result := scan expansion page in
    (result, {| mediaElementsCache := Some result; lastCacheTime := now;
                lastResult := Some result |}) in
  match mediaElementsCache s with
  | Some cached => if now - lastCacheTime s <? CACHE_DURATION then (cached, s) else rescan
  | None => rescan
  end.

(** [findAllMediaElements()] (lines 420-469). *)
Definition findAllMediaElements (expansion : number) (now : Z) (page : Page)
    (s : ScanState) : list Node * ScanState :=
  match lastResult s with
  | Some result => (regular result ++ large result, s)
  | None =>
      let '(result, s) := findMediaElements expansion now page s in
      (regular result ++ large result, s)
  end.

(** The split of [processAllMedia] (lines 1187-1197). *)
Definition isVisible (page : Page) (r : Rect) : bool :=
  numLt (ofZ 0) (rectWidth r) && numLt (ofZ 0) (rectHeight r)
  && numLt (rectTop r) (innerHeight page) && numLt (ofZ 0) (rectBottom r)
  && numLt (rectLeft r) (innerWidth page) && numLt (ofZ 0) (rectRight r).

Definition splitVisible (page : Page) (allElements : list Node)
  : list Node * list Node :=
  foldl (fun acc element =>
           if isVisible page (rect element)
           then (acc.1 ++ [element], acc.2)
           else (acc.1, acc.2 ++ [element]))
        ([], []) allElements.

(** [arr.slice(i, j)] for [0 <= i <= j]. *)
Definition slice {A} (l : list A) (i j : nat) : list A := take (j - i) (drop i l).

(** The batches of the loop
    [for (let i = 0; i < arr.length; i += CONFIG.BATCH_SIZE)
       arr.slice(i, i + CONFIG.BATCH_SIZE)]
    (lines 1200-1201 and 1566-1567); the loop runs at most [arr.length]
    times. *)
Fixpoint batchesFrom {A} (fuel i : nat) (arr : list A) : list (list A) :=
  match fuel with
  | O => []
  | S fuel' =>
      if (i <? length arr)%nat
      then slice arr i (i + Pipeline.BATCH_SIZE)
           :: batchesFrom fuel' (i + Pipeline.BATCH_SIZE) arr
      else []
  end.

Definition batches {A} (arr : list A) : list (list A) :=
  batchesFrom (length arr) 0 arr.

(** A page of three images (a thumbnail, a photograph, an icon drawn
    inside an [svg]) and one background, in a window of 1280 by 720. *)
Definition rectAt (x y w h : Z) : Rect :=
  {| rectWidth := ofZ w; rectHeight := ofZ h;
     rectTop := ofZ y; rectBottom := ofZ (y + h);
     rectLeft := ofZ x; rectRight := ofZ (x + w) |}.

Definition samplePage : Page :=
  {| images :=
       [ {| tagName := "IMG"; ancestors := ["DIV"; "BODY"; "HTML"]%string;
            rect := rectAt 10 10 120 80; computedBackground := "none";
            recordedSrc := None |};
         {| tagName := "IMG"; ancestors := ["BODY"; "HTML"]%string;
            rect := rectAt 0 200 800 600; computedBackground := "none";
            recordedSrc := None |};
         {| tagName := "IMG"; ancestors := ["foreignObject"; "svg"; "BODY"; "HTML"]%string;
            rect := rectAt 0 0 64 64; computedBackground := "none";
            recordedSrc := None |} ];
     backgrounds :=
       [ {| tagName := "DIV"; ancestors := ["BODY"; "HTML"]%string;
            rect := rectAt 0 900 1280 300;
            computedBackground :=
              ("url(" ++ String (ascii_of_nat 34) "https://host/bg.png"
                 ++ String (ascii_of_nat 34) ")")%string;
            recordedSrc := None |} ];
     innerWidth := ofZ 1280;
     innerHeight := ofZ 720 |}.

Definition emptyPage : Page :=
  {| images := []; backgrounds := []; innerWidth := ofZ 1280; innerHeight := ofZ 720 |}.

End Scan.

(** ** Sites that get the overlay ([isProblematicSite], lines 598-625) *)
Module Site.
Import Dom Scan.

Definition problematicDomains : list string :=
  [ "hackernoon.com"; "dev.to"; "react.dev"; "github.com"; "gitlab.com";
    "bitbucket.org"; "npmjs.com"; "yarnpkg.com"; "exa.ai";
    "katestanislavska.com"; "https://satabdi.framer.website/" ]%string.

(** [isProblematicSite()] as a function of [window.location.hostname]. *)
Definition isProblematicSite (hostname : string) : bool :=
  let url := toLowerCase hostname in
  if includes "medium.com" url then false
  else existsb (fun domain => includes domain url) problematicDomains.

(** The characters of a string. *)
Definition occurs (c : ascii) (s : string) : Prop := c ∈ list_ascii_of_string s.

End Site.

(** ** The regular expression of [processBackgroundImage] (line 875) *)
Module Regex.
Import JS.

(** The fragment of regular expressions the pipeline uses: literal
    characters, [.], character classes, a greedy [?] on one character, and
    one capturing group around a lazy [*?] on one character. *)
Inductive Atom :=
| Lit (c : ascii)
| Dot
| OneOf (cs : list ascii).

Inductive Item :=
| One (a : Atom)               (* a *)
| Maybe (a : Atom)             (* a? *)
| CaptureLazy (a : Atom).      (* (a*?) *)

(** [.] matches any character but a line terminator. *)
Definition accepts (a : Atom) (c : ascii) : bool :=
  match a with
  | Lit c' => Ascii.eqb c c'
  | Dot => negb (Ascii.eqb c LF || Ascii.eqb c CubeText.CR)
  | OneOf cs => existsb (Ascii.eqb c) cs
  end.

(** The lazy star on [a], followed by [rest]: stop as soon as the rest of
    the pattern matches, take one more character otherwise. *)
Fixpoint lazyStar (a : Atom) (rest : str -> option str -> option (option str))
    (s consumed : str) : option (option str) :=
  match rest s (Some (rev consumed)) with
  | Some r => Some r
  | None =>
      match s with
      | c :: s' => if accepts a c then lazyStar a rest s' (c :: consumed) else None
      | [] => None
      end
  end.

(** A match of the pattern at the start of [s], by backtracking in the
    order of the language: a greedy item first tries to take its
    character, a lazy one first tries to stop.  The result is the text of
    the group. *)
Fixpoint matchHere (p : list Item) (s : str) (group : option str) : option (option str) :=
  match p with
  | [] => Some group
  | One a :: p' =>
      match s with
      | c :: s' => if accepts a c then matchHere p' s' group else None
      | [] => None
      end
  | Maybe a :: p' =>
      match s with
      | c :: s' =>
          if accepts a c then
            match matchHere p' s' group with
            | Some r => Some r
            | None => matchHere p' s group
            end
          else matchHere p' s group
      | [] => matchHere p' s group
      end
  | CaptureLazy a :: p' => lazyStar a (matchHere p') s []
  end.

(** [s.match(p)] for a pattern without the global flag: the match that
    starts leftmost; [None] is [null]. *)
Fixpoint search (p : list Item) (s : str) : option (option str) :=
  match matchHere p s None with
  | Some r => Some r
  | None =>
      match s with
      | _ :: s' => search p s'
      | [] => None
      end
  end.

Definition doubleQuote : ascii := ascii_of_nat 34.
Definition singleQuote : ascii := ascii_of_nat 39.

(** The pattern: [url], an opening parenthesis, an optional quote of
    either kind, the group (any characters, as few as possible), an
    optional quote, a closing parenthesis. *)
Definition urlPattern : list Item :=
  [ One (Lit "u"); One (Lit "r"); One (Lit "l"); One (Lit "(");
    Maybe (OneOf [singleQuote; doubleQuote]);
    CaptureLazy Dot;
    Maybe (OneOf [singleQuote; doubleQuote]);
    One (Lit ")") ]%char.

(** How the platform writes the value [url(u)] of a background image when
    it is read back ([getComputedStyle], [element.style]): with double
    quotes. *)
Definition cssUrl (u : str) : str :=
  list_ascii_of_string "url(" ++ doubleQuote :: u ++ [doubleQuote; ")"%char].

(** Characters of a URL that the pattern reads through. *)
Definition plain (c : ascii) : Prop := c <> ")"%char /\ c <> LF /\ c <> CubeText.CR.

End Regex.

(** ** The pipeline on background surfaces ([processBackgroundImage],
    lines 842-992)

    [src e] is the URL of the inline background image of the element, the
    computed value being that of the inline style; URLs are free of quotes
    and backslashes, which the platform would escape.  An element without
    an inline background image has the empty [src]. *)
Module Background.
Import JS Dom Pipeline Regex.

(** How a call stands at its first suspension. *)
Inductive Started :=
| Returned                 (* the call has returned *)
| TextElement              (* handed over to [processTextElement] *)
| Suspended (job : Job).   (* waiting on [loadImageCrossOrigin] *)

(** [processBackgroundImage] up to its first suspension (lines 849-900). *)
Definition startBackground (st : Settings) (forceReprocess : bool)
    (processedUrlCache : gset string) (e : Element) : Element * Started :=
  if processing e then (e, Returned)
  else
    let e := withProcessing true e in
    if (src e =? EmptyString)%string then (e, TextElement)
    else
      match search urlPattern (cssUrl (list_ascii_of_string (src e))) with
      | Some (Some captured) =>
          let imageUrl := string_of_list_ascii captured in
          if (imageUrl =? EmptyString)%string then (withProcessing false e, Returned)
          else if (imageUrl =? "none")%string || isEmpty (trim captured)
          then (withProcessing false e, Returned)
          else
            let key := cacheKey imageUrl st in
            if negb forceReprocess && bool_decide (key ∈ processedUrlCache)
               && isTrue (processed e)
            then (withProcessing false e, Returned)
            else (e, Suspended {| jobOriginalSrc := imageUrl; jobCacheKey := key |})
      | _ => (withProcessing false e, Returned)
      end.

(** The template [`url('${u}')`]. *)
Definition singleQuoted (u : string) : str :=
  list_ascii_of_string "url(" ++ singleQuote :: list_ascii_of_string u
    ++ [singleQuote; ")"%char].

Definition sameText (a b : str) : bool := bool_decide (a = b).

(** From the suspension to the end (lines 900-991), the delayed removal
    of the in-flight marker included. *)
Definition resumeBackground (st : Settings) (out : Outcome) (job : Job)
    (processedUrlCache : gset string) (e : Element) : Element * gset string :=
  match out with
  | LoadError =>
      let e :=
        match originalSrc e with
        | Some o =>
            if negb (o =? EmptyString)%string
               && negb (sameText (cssUrl (list_ascii_of_string (src e))) (singleQuoted o))
            then withProcessed None (withSrc o e)
            else e
        | None => e
        end in
      (withProcessing false e, processedUrlCache)
  | EmptyImage | NoContext | PixelReadBlocked =>
      (withProcessing false e, processedUrlCache)
  | Rendered lutOk dataUrl _ =>
      let processedFlag :=
        (negb (preset st =? "none")%string && lutOk)
        || enableGrain st || enableVignette st in
      if processedFlag then
        let e := withOriginalSrc (Some (jobOriginalSrc job)) e in
        let e := withProcessed (Some "true"%string) e in
        (withProcessing false (withSrc dataUrl e),
         {[jobCacheKey job]} ∪ processedUrlCache)
      else
        let e :=
          match originalSrc e with
          | Some o =>
              if String.prefix "data:image" (src e) && negb (o =? EmptyString)%string
              then withProcessed None (withSrc o e)
              else e
          | None => e
          end in
        (withProcessing false (withOriginalSrc None e), processedUrlCache)
  end.

Definition processBackgroundImage (st : Settings) (forceReprocess : bool)
    (out : Outcome) (processedUrlCache : gset string) (e : Element)
  : Element * gset string :=
  match startBackground st forceReprocess processedUrlCache e with
  | (e, Suspended job) => resumeBackground st out job processedUrlCache e
  | (e, _) => (e, processedUrlCache)
  end.

(** The settings and the answer of the platform under which a surface is
    committed, showing [dataUrl]. *)
Definition commits (st : Settings) (out : Outcome) (dataUrl : string) : Prop :=
  exists lutOk useShadow,
    out = Rendered lutOk dataUrl useShadow /\
    ((negb (preset st =? "none")%string && lutOk)
     || enableGrain st || enableVignette st) = true /\
    String.prefix "data:image" dataUrl = true.

(** A URL that [startBackground] takes up. *)
Definition loadable (u : string) : Prop :=
  Forall plain (list_ascii_of_string u) /\
  u <> EmptyString /\ u <> "none"%string /\ trim (list_ascii_of_string u) <> [].

Definition freshBackground (url : string) : Element :=
  {| kind := Dom.Background; src := url; originalSrc := None; processed := None;
     locked := None; allowSet := None; processing := false;
     srcGuard := false; setAttributeGuard := false; robustShadow := false;
     overlay := None; hidden := false |}.

Definition png : string := "data:image/png;base64,BBBB".

End Background.

(** ** The sources of a picture ([disablePictureSourceElements], lines
    1693-1737; step 4 of [revertElement]) *)
Module Picture.
Import Dom.

(** A [<source>] of a [<picture>]: its [srcset], and what
    [dataset.filmGradeOriginalSrcset] holds. *)
Record Source := { srcset : string; originalSrcset : option string }.

(** The [<picture>] an image lies in: [dataset.filmGradeSourcesDisabled]
    and its [<source>] elements. *)
Record Picture := { sourcesDisabled : option string; sources : list Source }.

(** [disablePictureSourceElements] on the picture found by
    [closest('picture')]. *)
Definition disablePictureSourceElements (p : Picture) : Picture :=
  match sources p with
  | [] => p
  | _ =>
      if truthy (sourcesDisabled p) then p
      else
        let originalSources :=
          List.filter (fun s => negb (srcset s =? EmptyString)%string) (sources p) in
        if (0 <? length originalSources)%nat then
          {| sourcesDisabled := Some "true"%string;
             sources := (fun s => {| srcset := EmptyString;
                                     originalSrcset := Some (srcset s) |}) <$> sources p |}
        else p
  end.

(** Step 4 of [revertElement] (lines 1122-1134). *)
Definition restoreSources (p : Picture) : Picture :=
  if isTrue (sourcesDisabled p) then
    {| sourcesDisabled := None;
       sources := (fun s => if truthy (originalSrcset s)
                            then {| srcset := default EmptyString (originalSrcset s);
                                    originalSrcset := None |}
                            else s) <$> sources p |}
  else p.

(** What [processMediumImage] does to the sources (lines 2283-2291). *)
Definition disableSourcesOnMedium (p : Picture) : Picture :=
  {| sourcesDisabled := sourcesDisabled p;
     sources := (fun s => if negb (srcset s =? EmptyString)%string
                          then {| srcset := EmptyString;
                                  originalSrcset := Some (srcset s) |}
                          else s) <$> sources p |}.

Definition samplePicture : Picture :=
  {| sourcesDisabled := None;
     sources := [ {| srcset := "a-2x.webp 2x, a.webp"; originalSrcset := None |};
                  {| srcset := EmptyString; originalSrcset := None |};
                  {| srcset := "a.jpg"; originalSrcset := None |} ] |}.
End Picture.

(** ** Images on medium.com ([processMediumImage], lines 2161-2299) *)
Module Medium.
Import Dom Pipeline.

(** The attributes in which Medium keeps the address of the full image:
    [dataset.src], [dataset.origSrc], [dataset.actualSrc]. *)
Record HostData := {
  dataSrc : option string;
  origSrc : option string;
  actualSrc : option string
}.

(** [a || b]. *)
Definition orElse (a b : option string) : option string :=
  if truthy a then a else b.

(** [processMediumImage] up to its suspension on [loadImageCrossOrigin]
    (lines 2168-2200): the element, and the address being loaded when the
    call is suspended. *)
Definition startMedium (host : HostData) (e : Element) : Element * option string :=
  if (src e =? EmptyString)%string then (e, None)
  else if processing e then (e, None)
  else
    let e := withProcessing true e in
    let originalSrc :=
      if String.prefix "data:" (src e)
      then orElse (dataSrc host)
             (orElse (origSrc host) (orElse (actualSrc host) (Some (src e))))
      else Some (src e) in
    if truthy originalSrc
    then (e, Some (default EmptyString originalSrc))
    else (withProcessing false e, None).

(** From the suspension to the end (lines 2200-2298). *)
Definition resumeMedium (st : Settings) (out : Outcome) (loaded : string) (e : Element)
  : Element :=
  match out with
  | Rendered lutOk dataUrl _ =>
      let processedFlag :=
        (negb (preset st =? "none")%string && lutOk)
        || enableGrain st || enableVignette st in
      if processedFlag then
        let e := if truthy (originalSrc e) then e
                 else withOriginalSrc (Some loaded) e in
        let e := setSrc dataUrl e in
        withProcessing false (withProcessed (Some "true"%string) e)
      else withProcessing false e
  | _ => withProcessing false e
  end.

Definition processMediumImage (st : Settings) (host : HostData) (out : Outcome)
    (e : Element) : Element :=
  match startMedium host e with
  | (e, Some loaded) => resumeMedium st out loaded e
  | (e, None) => e
  end.

(** A call: the settings, Medium's attributes at the time, the answer of
    the platform. *)
Record MediumPass := {
  mediumSettings : Settings;
  mediumHost : HostData;
  mediumOutcome : Outcome
}.

Definition mediumPasses (e : Element) (ps : list MediumPass) : Element :=
  foldl (fun e p => processMediumImage (mediumSettings p) (mediumHost p)
                                       (mediumOutcome p) e)
        e ps.

(** What the calls keep about an image whose source was [u]: until a
    first commit the image shows [u]; from then on [u] is the recorded
    original. *)
Definition keepsFirstOriginal (u : string) (e : Element) : Prop :=
  kind e = Image /\ u <> EmptyString /\
  ((originalSrc e = None /\ src e = u) \/ originalSrc e = Some u).

Definition noHostData : HostData :=
  {| dataSrc := None; origSrc := None; actualSrc := None |}.

Definition sampleMediumPasses : list MediumPass :=
  [ {| mediumSettings := fuji; mediumHost := noHostData;
       mediumOutcome := Rendered true jpeg false |};
    {| mediumSettings := fujiGrain; mediumHost := noHostData;
       mediumOutcome := Rendered true jpeg false |};
    {| mediumSettings := fuji; mediumHost := noHostData; mediumOutcome := LoadError |} ].

End Medium.

(** ** The throttle of the message handler ([throttleProcessing], lines
    1063-1080)

    A call is named by the timer it sets.  [processingTask] is the module
    variable; [timers] are the timeouts set and neither fired nor
    cleared; [running] are the calls whose [fn] has been started and has
    not settled; [resolved] are the calls whose promise is resolved. *)
Module Throttle.

Record State := {
  processingTask : option nat;
  timers : list nat;
  running : list nat;
  resolved : list nat;
  next : nat          (* the identifier [setTimeout] returns next *)
}.

Definition idle : State :=
  {| processingTask := None; timers := []; running := []; resolved := []; next := 1 |}.

Inductive Event :=
| Invoke                  (* the throttled function is called *)
| TimerFires (t : nat)    (* the timeout [t] elapses *)
| FnFulfils (t : nat)     (* the promise of [fn(...args)] of call [t] is fulfilled *)
| FnRejects (t : nat).    (* it is rejected: the [then] callback does not run *)

Definition remove (t : nat) (l : list nat) : list nat :=
  List.filter (fun x => negb (x =? t)%nat) l.

Definition member (t : nat) (l : list nat) : bool := existsb (Nat.eqb t) l.

Definition step (s : State) (ev : Event) : State :=
  match ev with
  | Invoke =>
      let cleared :=
        match processingTask s with
        | Some t => remove t (timers s)       (* clearTimeout(processingTask) *)
        | None => timers s
        end in
      {| processingTask := Some (next s);
         timers := cleared ++ [next s];
         running := running s; resolved := resolved s; next := S (next s) |}
  | TimerFires t =>
      if member t (timers s) then
        {| processingTask := processingTask s;
           timers := remove t (timers s);
           running := running s ++ [t];
           resolved := resolved s; next := next s |}
      else s
  | FnFulfils t =>
      if member t (running s) then
        {| processingTask := None;
           timers := timers s;
           running := remove t (running s);
           resolved := resolved s ++ [t]; next := next s |}
      else s
  | FnRejects t =>
      if member t (running s) then
        {| processingTask := processingTask s;
           timers := timers s;
           running := remove t (running s);
           resolved := resolved s; next := next s |}
      else s
  end.

Definition runEvents (evs : list Event) : State := foldl step idle evs.

(** A call that can no longer run: it is known, and is neither waiting,
    nor running, nor resolved. *)
Definition dropped (c : nat) (s : State) : Prop :=
  (c < next s)%nat /\ (c ∉ timers s) /\ (c ∉ running s) /\ (c ∉ resolved s).

(** Identifiers in use are below [next]. *)
Definition inUse (s : State) : Prop :=
  Forall (fun t => (t < next s)%nat) (timers s) /\
  Forall (fun t => (t < next s)%nat) (running s) /\
  Forall (fun t => (t < next s)%nat) (resolved s).

End Throttle.

(** Reduction of the fields of an element. *)
Ltac fields :=
  cbn [Dom.kind Dom.src Dom.originalSrc Dom.processed Dom.locked
       Dom.allowSet Dom.processing Dom.srcGuard Dom.setAttributeGuard
       Dom.robustShadow Dom.overlay Dom.hidden Dom.withSrc
       Dom.withOriginalSrc Dom.withProcessed Dom.withLocked Dom.withAllowSet
       Dom.withProcessing Dom.withGuards Dom.withOverlay
       Dom.shadowRootVisible].

Ltac fields_in H :=
  cbn [Dom.kind Dom.src Dom.originalSrc Dom.processed Dom.locked
       Dom.allowSet Dom.processing Dom.srcGuard Dom.setAttributeGuard
       Dom.robustShadow Dom.overlay Dom.hidden Dom.withSrc
       Dom.withOriginalSrc Dom.withProcessed Dom.withLocked Dom.withAllowSet
       Dom.withProcessing Dom.withGuards Dom.withOverlay
       Dom.shadowRootVisible] in H.

(* ===================================================================== *)
(** * Part II: the properties                                             *)
(* ===================================================================== *)

Section NumberFacts.
Import JS.

Lemma shr_1_nonneg mrs : 0 <= shr_m mrs -> 0 <= shr_m (shr_1 mrs).
Proof.
  destruct mrs as [m r s]; simpl.
  destruct m as [|[p|p|]|[p|p|]]; simpl; lia.
Qed.

Lemma iter_shr_1_nonneg p : forall mrs,
  0 <= shr_m mrs -> 0 <= shr_m (SpecFloat.iter_pos shr_1 p mrs).
Proof.
  induction p as [p IH|p IH|]; intros mrs H; simpl.
  - apply IH, IH, shr_1_nonneg, H.
  - apply IH, IH, H.
  - apply shr_1_nonneg, H.
Qed.

Lemma shr_fexp_nonneg m e l :
  0 <= m -> 0 <= shr_m (shr_fexp prec emax m e l).1.
Proof.
  intros Hm. unfold shr_fexp, shr.
  assert (H0 : 0 <= shr_m (shr_record_of_loc m l)).
  { destruct l as [|[]]; simpl; exact Hm. }
  destruct (fexp prec emax (Zdigits2 m + e) - e); simpl; auto.
  apply iter_shr_1_nonneg, H0.
Qed.

Lemma round_nearest_even_nonneg m l : 0 <= m -> 0 <= round_nearest_even m l.
Proof.
  intros Hm. destruct l as [|[]]; simpl; try lia.
  destruct (Z.even m); lia.
Qed.

Lemma binary_round_aux_not_nan s m e l :
  0 <= m -> binary_round_aux prec emax s m e l <> S754_nan.
Proof.
  intros Hm. unfold binary_round_aux.
  pose proof (shr_fexp_nonneg m e l Hm) as H1.
  destruct (shr_fexp prec emax m e l) as [mrs' e'] eqn:E1. simpl in H1.
  pose proof (shr_fexp_nonneg _ e' loc_Exact
                (round_nearest_even_nonneg _ (loc_of_shr_record mrs') H1)) as H2.
  destruct (shr_fexp prec emax _ e' loc_Exact) as [mrs'' e''] eqn:E2.
  simpl in H2.
  destruct (shr_m mrs'') as [|q|q]; try discriminate; try lia.
  destruct (e'' <=? emax - prec); discriminate.
Qed.

(** The product of two finite numbers is never NaN. *)
Lemma mul_finite_not_nan x y :
  is_finite x = true -> is_finite y = true -> mul x y <> S754_nan.
Proof.
  destruct x as [sx|sx| |sx mx ex], y as [sy|sy| |sy my ey];
    simpl; try discriminate; intros _ _.
  apply binary_round_aux_not_nan. lia.
Qed.

Lemma floor_not_nan x : x <> S754_nan -> floor x <> NaN.
Proof. destruct x as [s|[]| |s m e]; simpl; congruence. Qed.

End NumberFacts.

(** ** The colour transform *)
Section ColorTransformFacts.
Import JS ColorTransform.

Lemma toByte_byteZ b : toByte (byteZ b) = b.
Proof. destruct b; reflexivity. Qed.

Lemma normalize_finite c : is_finite (normalize c) = true.
Proof. destruct c; vm_compute; reflexivity. Qed.

Lemma pred_Int n : pred (Int n) = Int (n - 1).
Proof. reflexivity. Qed.

(** On an integer size the scaled channel is never NaN, so the clamped
    grid coordinate is an integer. *)
Lemma gridIndex_Int n c :
  is_finite (ofZ (n - 1)) = true ->
  exists q, floor (mul (normalize c) (ofZ (n - 1))) = q /\ q <> NaN /\
            gridIndex (Int n) (normalize c) = min (Int (n - 1)) (max (Int 0) q).
Proof.
  intros Hn. eexists; split; [reflexivity|]. split.
  - apply floor_not_nan, mul_finite_not_nan; [apply normalize_finite|exact Hn].
  - reflexivity.
Qed.

Lemma gridIndex_value n c :
  is_finite (ofZ (n - 1)) = true ->
  exists v, gridIndex (Int n) (normalize c) = Int v.
Proof.
  intros Hn. destruct (gridIndex_Int n c Hn) as (q & _ & Hq & ->).
  destruct q; simpl; try congruence; eauto.
Qed.

Lemma lutIndex_in_bounds lut n p :
  size lut = Int n ->
  is_finite (ofZ (n - 1)) = true ->
  data lut <> [] ->
  exists i, lutIndex lut p = Int i /\ 0 <= i < Z.of_nat (length (data lut)).
Proof.
  intros Hs Hn Hd. unfold lutIndex. rewrite Hs.
  destruct (gridIndex_value n (red p) Hn) as [x ->].
  destruct (gridIndex_value n (green p) Hn) as [y ->].
  destruct (gridIndex_value n (blue p) Hn) as [z ->].
  simpl. eexists; split; [reflexivity|].
  destruct (data lut); [congruence|]. simpl length. lia.
Qed.

Lemma index_in_bounds {A} (l : list A) i :
  0 <= i < Z.of_nat (length l) -> is_Some (index l (Int i)).
Proof.
  intros Hi. unfold index.
  destruct (Z.ltb_spec i 0); [lia|].
  apply lookup_lt_is_Some. lia.
Qed.

End ColorTransformFacts.

Section ColorTransformClaims.
Import JS ColorTransform.

Lemma lutPixel_alpha lut p q : lutPixel lut p = Some q -> alpha q = alpha p.
Proof.
  unfold lutPixel. destruct (index _ _) as [[[e0 e1] e2]|]; [|discriminate].
  intros [= <-]. reflexivity.
Qed.

Lemma applyCubeLUT_alpha lut : forall buffer out,
  applyCubeLUT buffer lut = Some out -> alpha <$> out = alpha <$> buffer.
Proof.
  intros buffer out H. apply mapM_Some_1 in H.
  induction H as [|p q ps qs Hpq _ IH]; [reflexivity|].
  simpl. f_equal; [eapply lutPixel_alpha; eassumption | exact IH].
Qed.

Lemma applyCubeLUT_returns lut n imageData :
  size lut = Int n ->
  is_finite (ofZ (n - 1)) = true ->
  data lut <> [] ->
  exists out, applyCubeLUT imageData lut = Some out /\
              length out = length imageData.
Proof.
  intros Hs Hn Hd.
  assert (Hall : Forall (is_Some ∘ lutPixel lut) imageData).
  { apply Forall_forall. intros p _. unfold compose, lutPixel.
    destruct (lutIndex_in_bounds lut n p Hs Hn Hd) as (i & -> & Hr).
    destruct (index_in_bounds (data lut) i Hr) as [[[e0 e1] e2] ->].
    eauto. }
  apply mapM_is_Some_2 in Hall. destruct Hall as [out Hout].
  exists out. split; [exact Hout|].
  symmetry. eapply length_mapM. exact Hout.
Qed.






(** The end-to-end example of the specification. *)
Example red_lut_end_to_end :
  applyCubeLUT image_2x2 red_lut =
  Some [ {| red := "255"; green := "000"; blue := "000"; alpha := "255" |};
         {| red := "255"; green := "000"; blue := "000"; alpha := "128" |};
         {| red := "255"; green := "000"; blue := "000"; alpha := "000" |};
         {| red := "255"; green := "000"; blue := "000"; alpha := "001" |} ]%byte.
Proof. vm_compute. reflexivity. Qed.

(** *** The older variant

    Up to size 65 (CUBE files use 17, 33 and 65) the unclamped variant of
    unnamed/part_003 computes the same buffer on a table with all its
    entries: its coordinates never leave the grid. *)
Lemma gridCheck_65 : gridCheck 65 = true.
Proof. vm_compute. reflexivity. Qed.

Lemma gridCheck_spec bound :
  gridCheck bound = true ->
  forall n k, (1 <= n < 1 + bound)%nat -> (k < 256)%nat ->
              inGrid (Z.of_nat n) (toByte (Z.of_nat k)) = true.
Proof.
  unfold gridCheck. intros H n k Hn Hk.
  rewrite forallb_forall in H.
  assert (Hin : In n (seq 1 bound)) by (apply in_seq; lia).
  specialize (H n Hin). rewrite forallb_forall in H.
  apply H. apply in_seq. lia.
Qed.

Lemma floor_in_grid N c :
  1 <= N <= 65 ->
  exists q, floor (mul (normalize c) (ofZ (N - 1))) = Int q /\ 0 <= q <= N - 1.
Proof.
  intros HN.
  assert (Hb : (Byte.to_N c <= 255)%N) by apply Byte.to_N_bounded.
  pose proof (gridCheck_spec 65 gridCheck_65 (Z.to_nat N)
                (N.to_nat (Byte.to_N c))) as H.
  assert (H' : inGrid N c = true).
  { rewrite <- (toByte_byteZ c) at 1. unfold byteZ.
    rewrite <- (Z2Nat.id N) at 1 by lia. rewrite <- (N_nat_Z (Byte.to_N c)).
    apply H; lia. }
  clear H. unfold inGrid in H'.
  destruct (floor (mul (normalize c) (ofZ (N - 1)))) as [| | |q]; try discriminate.
  exists q. split; [reflexivity|]. lia.
Qed.

Lemma lutPixel_unclamped_agrees lut N p :
  size lut = Int N ->
  1 <= N <= 65 ->
  Z.of_nat (length (data lut)) = N * N * N ->
  lutPixel_unclamped lut p = lutPixel lut p.
Proof.
  intros Hs HN Hlen. unfold lutPixel_unclamped, lutPixel, lutIndex, gridIndex.
  rewrite Hs, pred_Int. cbn [toNumber].
  destruct (floor_in_grid N (red p) HN) as (x & -> & Hx).
  destruct (floor_in_grid N (green p) HN) as (y & -> & Hy).
  destruct (floor_in_grid N (blue p) HN) as (z & -> & Hz).
  cbn [max min iadd imul ge0 ltLen]. rewrite Hlen.
  replace (Z.min (N - 1) (Z.max 0 x)) with x by lia.
  replace (Z.min (N - 1) (Z.max 0 y)) with y by lia.
  replace (Z.min (N - 1) (Z.max 0 z)) with z by lia.
  assert (Hr : 0 <= z + y * N + x * N * N <= N * N * N - 1) by nia.
  replace (Z.min (N * N * N - 1) (Z.max 0 (z + y * N + x * N * N)))
    with (z + y * N + x * N * N) by lia.
  destruct (Z.leb_spec 0 (z + y * N + x * N * N)); [|lia].
  destruct (Z.ltb_spec (z + y * N + x * N * N) (N * N * N)); [|lia].
  reflexivity.
Qed.

Lemma applyCubeLUT_unclamped_agrees lut N buffer :
  size lut = Int N ->
  1 <= N <= 65 ->
  Z.of_nat (length (data lut)) = N * N * N ->
  applyCubeLUT_unclamped buffer lut = applyCubeLUT buffer lut.
Proof.
  intros Hs HN Hlen. apply mapM_ext. intros p.
  apply lutPixel_unclamped_agrees with N; assumption.
Qed.

(** A float effect the exact quotient would miss: for size 52 the byte 155
    scales to just under 31, and the coordinate is 30. *)
Example gridIndex_52_155 :
  gridIndex (Int 52) (normalize "155"%byte) = Int 30 /\ (155 * 51 / 255 = 31)%Z.
Proof. vm_compute. split; reflexivity. Qed.


(** Outside these tables: a size that is not a number (a size directive
    without one) makes every index NaN, and reading the row throws. *)
Example applyCubeLUT_NaN_size :
  applyCubeLUT image_2x2 {| size := NaN; data := data red_lut |} = None.
Proof. vm_compute. reflexivity. Qed.
End ColorTransformClaims.

(** ** Strings *)
Section StringFacts.
Import JS CubeText.

Lemma splitOn_nonempty sep s : splitOn sep s <> [].
Proof.
  destruct s as [|c s]; simpl; [discriminate|].
  destruct (Ascii.eqb c sep); [discriminate|].
  destruct (splitOn sep s); discriminate.
Qed.

Lemma splitOn_no_sep sep s : sep ∉ s -> splitOn sep s = [s].
Proof.
  induction s as [|c s IH]; intros Hs; [reflexivity|].
  simpl. destruct (Ascii.eqb_spec c sep) as [->|Hne].
  - exfalso. apply Hs. left.
  - rewrite IH; [reflexivity|]. intros Hin. apply Hs. right. exact Hin.
Qed.

Lemma splitOn_app sep s rest :
  sep ∉ s -> splitOn sep (s ++ sep :: rest) = s :: splitOn sep rest.
Proof.
  induction s as [|c s IH]; intros Hs; simpl.
  - rewrite Ascii.eqb_refl. reflexivity.
  - destruct (Ascii.eqb_spec c sep) as [->|Hne].
    + exfalso. apply Hs. left.
    + rewrite IH; [reflexivity|]. intros Hin. apply Hs. right. exact Hin.
Qed.

Lemma trimStart_space ws s : allSpace ws -> trimStart (ws ++ s) = trimStart s.
Proof.
  induction 1 as [|c ws Hc _ IH]; [reflexivity|]. simpl. rewrite Hc. exact IH.
Qed.

Lemma trimStart_all_space ws : allSpace ws -> trimStart ws = [].
Proof.
  intros H. rewrite <- (app_nil_r ws). rewrite trimStart_space by exact H.
  reflexivity.
Qed.

Lemma trimStart_head c s : isWhiteSpace c = false -> trimStart (c :: s) = c :: s.
Proof. intros H. simpl. rewrite H. reflexivity. Qed.

Lemma allSpace_rev ws : allSpace ws -> allSpace (rev ws).
Proof.
  induction 1 as [|c ws Hc _ IH]; [constructor|]. simpl.
  apply Forall_app. split; [exact IH|]. constructor; [exact Hc|constructor].
Qed.

(** [trimEnd] removes a white-space tail after a character that is not
    white space. *)
Lemma trimEnd_tail s c ws :
  isWhiteSpace c = false -> allSpace ws -> trimEnd (s ++ c :: ws) = s ++ [c].
Proof.
  intros Hc Hws. unfold trimEnd.
  rewrite rev_app_distr. simpl rev. rewrite <- app_assoc.
  rewrite trimStart_space by (apply allSpace_rev; exact Hws).
  simpl app. rewrite trimStart_head by exact Hc.
  change (c :: rev s) with ([c] ++ rev s).
  rewrite rev_app_distr, rev_involutive. reflexivity.
Qed.

Lemma trim_tight ws1 s ws2 :
  allSpace ws1 -> allSpace ws2 -> tight s -> trim (ws1 ++ s ++ ws2) = s.
Proof.
  intros H1 H2 [(c & rest & Hs & Hc) (init & c' & Hs' & Hc')]. unfold trim.
  rewrite trimStart_space by exact H1.
  rewrite Hs. simpl app. rewrite trimStart_head by exact Hc.
  change (c :: rest ++ ws2) with ((c :: rest) ++ ws2). rewrite <- Hs, Hs'.
  rewrite <- app_assoc. apply trimEnd_tail; assumption.
Qed.

Lemma tight_between a mid b :
  noSpace a -> a <> [] -> noSpace b -> b <> [] -> tight (a ++ mid ++ b).
Proof.
  intros Ha Hane Hb Hbne. split.
  - destruct Ha as [|c a Hc _]; [congruence|]. simpl. eauto.
  - destruct b as [|x b' _] using rev_ind; [congruence|].
    apply Forall_app in Hb as [_ Hx]. inversion Hx as [|? ? Hx' _]; subst.
    exists (a ++ mid ++ b'), x. split; [|exact Hx'].
    rewrite <- !app_assoc. reflexivity.
Qed.

Lemma trimStart_keeps_last l c :
  isWhiteSpace c = false -> exists l', trimStart (l ++ [c]) = l' ++ [c].
Proof.
  intros Hc. induction l as [|d l [l' IH]]; simpl.
  - rewrite Hc. exists []. reflexivity.
  - destruct (isWhiteSpace d); [eauto|]. exists (d :: l). reflexivity.
Qed.

Lemma trimEnd_head c s :
  isWhiteSpace c = false -> exists s', trimEnd (c :: s) = c :: s'.
Proof.
  intros Hc. unfold trimEnd. simpl rev.
  destruct (trimStart_keeps_last (rev s) c Hc) as [l' ->].
  rewrite rev_app_distr. simpl. eauto.
Qed.

Lemma trim_all_space ws : allSpace ws -> trim ws = [].
Proof.
  intros H. unfold trim. rewrite trimStart_all_space by exact H. reflexivity.
Qed.

Lemma startsWith_app p s : startsWith p (p ++ s) = true.
Proof.
  induction p as [|c p IH]; [reflexivity|]. simpl.
  rewrite Ascii.eqb_refl. exact IH.
Qed.

Lemma startsWith_head_ne p ps c s : p <> c -> startsWith (p :: ps) (c :: s) = false.
Proof.
  intros H. simpl. destruct (Ascii.eqb_spec p c); [contradiction|reflexivity].
Qed.

Lemma splitWhiteSpace_unfold c s :
  splitWhiteSpace (c :: s) =
  if isWhiteSpace c then
    match s with
    | c' :: _ => if isWhiteSpace c' then splitWhiteSpace s
                 else [] :: splitWhiteSpace s
    | [] => [[]; []]
    end
  else match splitWhiteSpace s with
       | l :: ls => (c :: l) :: ls
       | [] => [[c]]
       end.
Proof. reflexivity. Qed.

Lemma splitWhiteSpace_gap gap c rest :
  allSpace gap -> gap <> [] -> isWhiteSpace c = false ->
  splitWhiteSpace (gap ++ c :: rest) = [] :: splitWhiteSpace (c :: rest).
Proof.
  intros Hg Hne Hc. induction Hg as [|w gap Hw Hg IH]; [congruence|].
  destruct gap as [|w' gap'].
  - simpl app. rewrite (splitWhiteSpace_unfold w), Hw, Hc. reflexivity.
  - change ((w :: w' :: gap') ++ c :: rest)
      with (w :: w' :: (gap' ++ c :: rest)).
    rewrite (splitWhiteSpace_unfold w), Hw.
    inversion Hg as [|? ? Hw' _]; subst. rewrite Hw'.
    apply IH. discriminate.
Qed.

Lemma splitWhiteSpace_cons c s :
  isWhiteSpace c = false ->
  splitWhiteSpace (c :: s) =
  match splitWhiteSpace s with l :: ls => (c :: l) :: ls | [] => [[c]] end.
Proof. intros Hc. rewrite splitWhiteSpace_unfold, Hc. reflexivity. Qed.

Lemma splitWhiteSpace_token t gap c rest :
  noSpace t -> allSpace gap -> gap <> [] -> isWhiteSpace c = false ->
  splitWhiteSpace (t ++ gap ++ c :: rest) = t :: splitWhiteSpace (c :: rest).
Proof.
  intros Ht Hg Hne Hc. induction Ht as [|d t Hd _ IH].
  - apply splitWhiteSpace_gap; assumption.
  - simpl app. rewrite splitWhiteSpace_cons by exact Hd. rewrite IH. reflexivity.
Qed.

Lemma splitWhiteSpace_last t : noSpace t -> splitWhiteSpace t = [t].
Proof.
  induction 1 as [|d t Hd _ IH]; [reflexivity|].
  rewrite splitWhiteSpace_cons by exact Hd. rewrite IH. reflexivity.
Qed.

End StringFacts.

(** ** Decimal numerals and [parseInt] *)
Section NumeralFacts.
Import JS CubeText.

Lemma parseDigits_step c v s acc :
  digitValue c = Some v ->
  parseDigits (c :: s) acc = parseDigits s (Some (10 * default 0 acc + v)).
Proof. intros H. simpl. rewrite H. reflexivity. Qed.

Ltac digit_step c v :=
  match goal with
  | |- parseDigits (uintChars (?D ?d)) ?acc = _ =>
      change (uintChars (D d)) with (c :: uintChars d);
      rewrite (parseDigits_step c v) by reflexivity;
      cbn [default from_option]
  end.

Lemma parseDigits_acc d : forall p,
  parseDigits (uintChars d) (Some (Z.pos p)) = Some (Z.pos (Pos.of_uint_acc d p)).
Proof.
  induction d as [|d IH|d IH|d IH|d IH|d IH|d IH|d IH|d IH|d IH|d IH];
    intros p; [reflexivity|..]; cbn [Pos.of_uint_acc].
  - digit_step "0"%char 0. rewrite <- IH; f_equal; f_equal; unfold id; lia.
  - digit_step "1"%char 1. rewrite <- IH; f_equal; f_equal; unfold id; lia.
  - digit_step "2"%char 2. rewrite <- IH; f_equal; f_equal; unfold id; lia.
  - digit_step "3"%char 3. rewrite <- IH; f_equal; f_equal; unfold id; lia.
  - digit_step "4"%char 4. rewrite <- IH; f_equal; f_equal; unfold id; lia.
  - digit_step "5"%char 5. rewrite <- IH; f_equal; f_equal; unfold id; lia.
  - digit_step "6"%char 6. rewrite <- IH; f_equal; f_equal; unfold id; lia.
  - digit_step "7"%char 7. rewrite <- IH; f_equal; f_equal; unfold id; lia.
  - digit_step "8"%char 8. rewrite <- IH; f_equal; f_equal; unfold id; lia.
  - digit_step "9"%char 9. rewrite <- IH; f_equal; f_equal; unfold id; lia.
Qed.

Lemma parseDigits_zero d :
  parseDigits (uintChars d) (Some 0) = Some (Z.of_N (Pos.of_uint d)).
Proof.
  induction d as [|d IH|d IH|d IH|d IH|d IH|d IH|d IH|d IH|d IH|d IH];
    [reflexivity|..]; cbn [Pos.of_uint].
  - digit_step "0"%char 0. exact IH.
  - digit_step "1"%char 1. apply (parseDigits_acc d 1).
  - digit_step "2"%char 2. apply (parseDigits_acc d 2).
  - digit_step "3"%char 3. apply (parseDigits_acc d 3).
  - digit_step "4"%char 4. apply (parseDigits_acc d 4).
  - digit_step "5"%char 5. apply (parseDigits_acc d 5).
  - digit_step "6"%char 6. apply (parseDigits_acc d 6).
  - digit_step "7"%char 7. apply (parseDigits_acc d 7).
  - digit_step "8"%char 8. apply (parseDigits_acc d 8).
  - digit_step "9"%char 9. apply (parseDigits_acc d 9).
Qed.

Lemma parseDigits_uint d :
  d <> Decimal.Nil ->
  parseDigits (uintChars d) None = Some (Z.of_N (N.of_uint d)).
Proof.
  intros Hd. rewrite <- parseDigits_zero.
  destruct d; [congruence|..]; reflexivity.
Qed.

Lemma uintChars_digits d : Forall isDigit (uintChars d).
Proof.
  induction d; [constructor|..]; constructor; try exact IHd;
    eexists; reflexivity.
Qed.

Lemma to_uint_nonnil n : N.to_uint n <> Decimal.Nil.
Proof.
  destruct n as [|p]; [discriminate|]. apply DecimalPos.Unsigned.to_uint_nonnil.
Qed.

Lemma decimal_chars n : decimal n = uintChars (N.to_uint n).
Proof.
  unfold decimal, uintChars, NilZero.string_of_uint.
  pose proof (to_uint_nonnil n). destruct (N.to_uint n); congruence.
Qed.

Lemma decimal_digits n : Forall isDigit (decimal n).
Proof. rewrite decimal_chars. apply uintChars_digits. Qed.

Lemma decimal_nonempty n : decimal n <> [].
Proof.
  rewrite decimal_chars. pose proof (to_uint_nonnil n).
  destruct (N.to_uint n); [congruence|..]; discriminate.
Qed.

Lemma parseDigits_decimal n : parseDigits (decimal n) None = Some (Z.of_N n).
Proof.
  rewrite decimal_chars, parseDigits_uint by apply to_uint_nonnil.
  rewrite DecimalN.Unsigned.of_to. reflexivity.
Qed.

Lemma digit_facts c :
  isDigit c ->
  isWhiteSpace c = false /\ c <> LF /\
  Ascii.eqb c "-" = false /\ Ascii.eqb c "+" = false.
Proof.
  intros [v Hv]. revert Hv.
  destruct c as [[] [] [] [] [] [] [] []]; vm_compute; intros Hv;
    try discriminate Hv; repeat split; congruence.
Qed.

Lemma numeralChar_facts c :
  numeralChar c = true ->
  isWhiteSpace c = false /\ c <> LF /\ c <> "#"%char /\ c <> "L"%char.
Proof.
  destruct c as [[] [] [] [] [] [] [] []]; vm_compute; intros Hv;
    try discriminate Hv; repeat split; congruence.
Qed.

(** [parseInt] reads back the decimal numeral of a natural number. *)
Lemma parseInt_decimal n : parseInt (Some (decimal n)) = Int (Z.of_N n).
Proof.
  unfold parseInt.
  pose proof (decimal_digits n) as Hd. pose proof (decimal_nonempty n) as Hne.
  pose proof (parseDigits_decimal n) as Hp.
  destruct (decimal n) as [|c s]; [congruence|].
  inversion Hd as [|? ? Hc _]; subst.
  destruct (digit_facts c Hc) as (Hws & _ & Hm & Hpl).
  rewrite trimStart_head by exact Hws. rewrite Hm, Hpl, Hp. reflexivity.
Qed.
End NumeralFacts.

(** ** The parser on the lines of a CUBE text *)
Section ParserFacts.
Import JS ColorTransform LutTable CubeText.
Variable Number : str -> number.

Lemma inlineSpace_allSpace s : inlineSpace s -> allSpace s.
Proof. intros H. eapply Forall_impl; [exact H|]. simpl. tauto. Qed.

Lemma inlineSpace_no_LF s : inlineSpace s -> LF ∉ s.
Proof.
  intros H Hin. eapply Forall_forall in H; [|exact Hin]. tauto.
Qed.

Lemma numeral_noSpace t : numeral t -> noSpace t.
Proof. intros [_ H]. eapply Forall_impl; [exact H|]. intros c Hc.
       apply numeralChar_facts, Hc. Qed.

Lemma numeral_no_LF t : numeral t -> LF ∉ t.
Proof.
  intros [_ H] Hin. eapply Forall_forall in H; [|exact Hin].
  apply numeralChar_facts in H. tauto.
Qed.

Lemma digits_noSpace s : Forall isDigit s -> noSpace s.
Proof.
  intros H. eapply Forall_impl; [exact H|]. intros c Hc. apply digit_facts, Hc.
Qed.

Lemma digits_no_LF s : Forall isDigit s -> LF ∉ s.
Proof.
  intros H Hin. eapply Forall_forall in H; [|exact Hin].
  apply digit_facts in H. tauto.
Qed.

Lemma keyword_noSpace : noSpace keyword.
Proof. repeat constructor. Qed.

Lemma keyword_no_LF : LF ∉ keyword.
Proof.
  unfold keyword. simpl.
  repeat (apply not_elem_of_cons; split; [discriminate|]).
  apply not_elem_of_nil.
Qed.

Lemma renderLine_no_LF l : validLine l -> LF ∉ renderLine l.
Proof.
  destruct l as [sp|ind body|ind gap n tr|ind r g1 g g2 b tr];
    cbn [renderLine validLine].
  - apply inlineSpace_no_LF.
  - intros [Hi Hb]. apply not_elem_of_app. split; [apply inlineSpace_no_LF, Hi|].
    apply not_elem_of_cons. split; [discriminate|exact Hb].
  - intros (Hi & Hg & _ & Ht).
    repeat (apply not_elem_of_app; split);
      auto using inlineSpace_no_LF, keyword_no_LF, digits_no_LF, decimal_digits.
  - intros (Hi & Hr & H1 & _ & Hg & H2 & _ & Hb & Ht).
    repeat (apply not_elem_of_app; split);
      auto using inlineSpace_no_LF, numeral_no_LF.
Qed.

Lemma parseLine_blank lut sp : inlineSpace sp -> parseLine Number lut sp = lut.
Proof.
  intros H. unfold parseLine.
  rewrite trim_all_space by (apply inlineSpace_allSpace, H). reflexivity.
Qed.

Lemma parseLine_comment lut ind body :
  inlineSpace ind -> parseLine Number lut (ind ++ "#"%char :: body) = lut.
Proof.
  intros H. unfold parseLine, trim.
  rewrite trimStart_space by (apply inlineSpace_allSpace, H).
  rewrite trimStart_head by reflexivity.
  destruct (trimEnd_head "#"%char body) as [s' ->]; reflexivity.
Qed.

Lemma parseLine_size lut ind gap n tr :
  inlineSpace ind -> inlineSpace gap -> gap <> [] -> inlineSpace tr ->
  parseLine Number lut (ind ++ keyword ++ gap ++ decimal n ++ tr) =
  {| size := Int (Z.of_N n); data := data lut |}.
Proof.
  intros Hi Hg Hne Ht. unfold parseLine.
  replace (ind ++ keyword ++ gap ++ decimal n ++ tr)
    with (ind ++ (keyword ++ gap ++ decimal n) ++ tr)
    by (rewrite <- !app_assoc; reflexivity).
  rewrite trim_tight; try (apply inlineSpace_allSpace; assumption).
  2:{ apply tight_between; auto using keyword_noSpace, digits_noSpace,
        decimal_digits, decimal_nonempty; discriminate. }
  change (startsWith ["#"%char] (keyword ++ gap ++ decimal n)) with false.
  change (isEmpty (keyword ++ gap ++ decimal n)) with false.
  change (list_ascii_of_string "LUT_3D_SIZE") with keyword.
  rewrite startsWith_app. cbn [orb].
  pose proof (decimal_digits n) as Hd. pose proof (decimal_nonempty n) as Hdn.
  assert (Hsplit : splitWhiteSpace (keyword ++ gap ++ decimal n)
                   = [keyword; decimal n]).
  { destruct (decimal n) as [|c ds] eqn:E; [congruence|].
    inversion Hd as [|? ? Hc Hds]; subst.
    rewrite splitWhiteSpace_token;
      auto using keyword_noSpace, inlineSpace_allSpace.
    - rewrite splitWhiteSpace_last; [reflexivity|].
      apply digits_noSpace. constructor; assumption.
    - apply digit_facts, Hc. }
  rewrite Hsplit. cbn [lookup list_lookup]. rewrite parseInt_decimal.
  reflexivity.
Qed.

Lemma numeral_head t :
  numeral t -> exists c rest, t = c :: rest /\ numeralChar c = true.
Proof.
  intros [Hne H]. destruct H as [|c rest Hc _]; [congruence|]. eauto.
Qed.

Lemma parseLine_row lut ind r g1 g g2 b tr :
  inlineSpace ind -> numeral r -> inlineSpace g1 -> g1 <> [] -> numeral g ->
  inlineSpace g2 -> g2 <> [] -> numeral b -> inlineSpace tr ->
  parseLine Number lut (ind ++ r ++ g1 ++ g ++ g2 ++ b ++ tr) =
  {| size := size lut; data := data lut ++ [(Number r, Number g, Number b)] |}.
Proof.
  intros Hi Hr H1 H1n Hg H2 H2n Hb Ht. unfold parseLine.
  replace (ind ++ r ++ g1 ++ g ++ g2 ++ b ++ tr)
    with (ind ++ (r ++ (g1 ++ g ++ g2) ++ b) ++ tr)
    by (rewrite <- !app_assoc; reflexivity).
  rewrite trim_tight; try (apply inlineSpace_allSpace; assumption).
  2:{ apply tight_between; auto using numeral_noSpace; [apply Hr|apply Hb]. }
  rewrite <- !app_assoc.
  assert (Hsplit : splitWhiteSpace (r ++ g1 ++ g ++ g2 ++ b) = [r; g; b]).
  { destruct (numeral_head g Hg) as (cg & g' & Eg & Hcg).
    destruct (numeral_head b Hb) as (cb & b' & Eb & Hcb).
    rewrite Eg. simpl app.
    rewrite splitWhiteSpace_token;
      auto using numeral_noSpace, inlineSpace_allSpace;
      [|apply numeralChar_facts, Hcg].
    change (cg :: g' ++ g2 ++ b) with ((cg :: g') ++ g2 ++ b).
    rewrite <- Eg, Eb.
    rewrite splitWhiteSpace_token;
      auto using numeral_noSpace, inlineSpace_allSpace;
      [|apply numeralChar_facts, Hcb].
    rewrite <- Eb. rewrite splitWhiteSpace_last by (apply numeral_noSpace, Hb).
    reflexivity. }
  rewrite Hsplit.
  destruct (numeral_head r Hr) as (cr & r' & Er & Hcr).
  destruct (numeralChar_facts cr Hcr) as (_ & _ & Hhash & HL).
  rewrite Er at 1 2 3. simpl app.
  rewrite (startsWith_head_ne "#"%char [] cr) by congruence.
  unfold isEmpty. cbn [orb].
  rewrite Er at 1. simpl app.
  change (list_ascii_of_string "LUT_3D_SIZE")
    with ("L"%char :: list_ascii_of_string "UT_3D_SIZE").
  rewrite (startsWith_head_ne "L"%char _ cr) by congruence.
  rewrite Er. reflexivity.
Qed.

Lemma parseLine_renderLine lut l :
  validLine l -> parseLine Number lut (renderLine l) = lineEffect Number lut l.
Proof.
  destruct l as [sp|ind body|ind gap n tr|ind r g1 g g2 b tr];
    cbn [renderLine validLine lineEffect].
  - apply parseLine_blank.
  - intros [Hi _]. apply parseLine_comment, Hi.
  - intros (Hi & Hg & Hne & Ht). apply parseLine_size; assumption.
  - intros (Hi & Hr & H1 & H1n & Hg & H2 & H2n & Hb & Ht).
    apply parseLine_row; assumption.
Qed.

Lemma foldl_parseLine_render ls : forall lut,
  Forall validLine ls ->
  foldl (parseLine Number) lut (renderLine <$> ls) =
  foldl (lineEffect Number) lut ls.
Proof.
  induction ls as [|l ls IH]; intros lut H; [reflexivity|].
  inversion H as [|? ? Hl Hls]; subst. simpl.
  rewrite parseLine_renderLine by exact Hl. apply IH, Hls.
Qed.

Lemma splitOn_joinLines ls :
  ls <> [] -> Forall (fun l => LF ∉ l) ls -> splitOn LF (joinLines ls) = ls.
Proof.
  intros Hne H. induction H as [|l ls Hl Hls IH]; [congruence|].
  destruct ls as [|l2 ls'].
  - simpl. apply splitOn_no_sep, Hl.
  - change (joinLines (l :: l2 :: ls')) with (l ++ LF :: joinLines (l2 :: ls')).
    rewrite splitOn_app by exact Hl. rewrite IH by discriminate. reflexivity.
Qed.

(** Parsing a rendered text is folding the effect of its lines. *)
Lemma parseLines_render ls :
  Forall validLine ls ->
  parseLines Number (render ls) =
  foldl (lineEffect Number) {| size := Int 0; data := [] |} ls.
Proof.
  intros H. unfold parseLines, render.
  rewrite list_ascii_of_string_of_list_ascii.
  destruct ls as [|l ls]; [reflexivity|].
  rewrite splitOn_joinLines.
  - apply foldl_parseLine_render, H.
  - discriminate.
  - apply Forall_fmap. eapply Forall_impl; [exact H|].
    intros x Hx. apply renderLine_no_LF, Hx.
Qed.

Lemma foldl_lineEffect ls : forall lut,
  foldl (lineEffect Number) lut ls =
  {| size := match last (declaredSizes ls) with
             | Some n => Int (Z.of_N n)
             | None => size lut
             end;
     data := data lut ++ (numbers Number <$> colorRows ls) |}.
Proof.
  induction ls as [|l ls IH]; intros [sz dt].
  - simpl. rewrite app_nil_r. reflexivity.
  - cbn [foldl]. rewrite IH.
    destruct l as [sp|ind body|ind gap n tr|ind r g1 g g2 b tr];
      cbn [lineEffect size data]; try reflexivity.
    + change (declaredSizes (SizeDirective ind gap n tr :: ls))
        with (n :: declaredSizes ls).
      rewrite last_cons. destruct (last (declaredSizes ls)); reflexivity.
    + change (colorRows (ColorRow ind r g1 g g2 b tr :: ls))
        with ((r, g, b) :: colorRows ls).
      rewrite <- app_assoc. reflexivity.
Qed.

(** The table read from a rendered text: the last size declared and the
    colour rows in order. *)
Lemma parseLines_valid ls N :
  Forall validLine ls ->
  declaredSizes ls <> [] ->
  (forall n, n ∈ declaredSizes ls -> n = N) ->
  parseLines Number (render ls) =
  {| size := Int (Z.of_N N); data := numbers Number <$> colorRows ls |}.
Proof.
  intros Hv Hne Hall. rewrite parseLines_render by exact Hv.
  rewrite foldl_lineEffect. cbn [size data app].
  apply last_is_Some in Hne as [n Hn]. rewrite Hn.
  rewrite (Hall n) by (eapply last_Some_elem_of, Hn). reflexivity.
Qed.


End ParserFacts.

Section ParserWitness.
Import JS ColorTransform LutTable CubeText.

Lemma sampleLines_valid : Forall validLine sampleLines.
Proof.
  unfold sampleLines, validLine, inlineSpace, numeral, chars.
  repeat first
    [ apply Forall_nil
    | apply Forall_cons
    | split
    | discriminate
    | reflexivity
    | apply not_elem_of_nil
    | apply not_elem_of_cons ].
Qed.

(** Outside the format of the specification: a [TITLE] line whose title
    has two words splits into three tokens and is read as a row, so that
    this one-point table comes out with two entries. *)
Example title_line_is_read_as_row :
  size (parseLines integerLiteral titled) = Int 1 /\
  length (data (parseLines integerLiteral titled)) = 2%nat.
Proof. vm_compute. split; reflexivity. Qed.

End ParserWitness.

(** ** Row-count mismatches *)
Section RowCountFacts.
Import JS ColorTransform CubeText.

(** C3 (the extension's parser). A text that declares size 2 but carries
    seven rows is returned with its seven rows, neither padded to eight
    nor rejected; a text that declares size 3 and carries one row (a
    mismatch of 26) is returned as well: this parser has no error
    result. *)
Theorem parseCubeLUT_keeps_mismatch :
  let short := (LutTable.parseCubeLUT integerLiteral sevenRows "fuji" ∅).1 in
  let far := (LutTable.parseCubeLUT integerLiteral oneRow "kodak" ∅).1 in
  (size short = Int 2 /\ length (data short) = 7%nat) /\
  (size far = Int 3 /\ length (data far) = 1%nat).
Proof. vm_compute. repeat split. Qed.

(** The example page's parser does what the extension's does not: with a
    declared size N >= 1 and at least one row, a mismatch of at most 20
    rows is repaired to exactly N^3 entries (padding with the last row,
    or truncating), and a larger one is an error. *)
Lemma lightsOut_checkRows n (rows : list row) :
  1 <= n -> rows <> [] ->
  let len := Z.of_nat (length rows) in
  (Z.abs (n * n * n - len) <= 20 ->
     exists lut, LightsOut.checkRows n rows = inr lut /\ size lut = Int n /\
                 Z.of_nat (length (data lut)) = n * n * n /\
                 (len <= n * n * n ->
                    exists lastRow, last rows = Some lastRow /\
                      data lut = rows ++ replicate (Z.to_nat (n * n * n - len)) lastRow) /\
                 (n * n * n <= len -> data lut = take (Z.to_nat (n * n * n)) rows)) /\
  (20 < Z.abs (n * n * n - len) ->
     LightsOut.checkRows n rows = inl LightsOut.SizeMismatchTooLarge).
Proof.
  intros Hn Hne len. unfold LightsOut.checkRows. fold len.
  assert (Hcube : 1 <= n * n * n) by nia.
  destruct (last rows) as [lastRow|] eqn:Hlast;
    [|apply last_None in Hlast; congruence].
  split.
  - intros Hd. destruct (Z.eqb_spec len (n * n * n)) as [E|E].
    + eexists; split; [reflexivity|]. cbn [size data].
      split; [reflexivity|]. split; [exact E|]. split.
      * intros _. exists lastRow. split; [reflexivity|].
        replace (n * n * n - len) with 0 by lia. simpl. rewrite app_nil_r.
        reflexivity.
      * intros _. rewrite take_ge; [reflexivity|lia].
    + destruct (Z.leb_spec (Z.abs (n * n * n - len)) 20); [|lia].
      destruct (Z.ltb_spec len (n * n * n)).
      * eexists; split; [reflexivity|]. cbn [size data].
        split; [reflexivity|]. split; [|split].
        -- rewrite length_app, length_replicate. lia.
        -- intros _. exists lastRow. split; reflexivity.
        -- intros Hle. lia.
      * eexists; split; [reflexivity|]. cbn [size data]. unfold LightsOut.slice0.
        destruct (Z.ltb_spec (n * n * n) 0); [lia|].
        split; [reflexivity|]. split; [|split].
        -- rewrite length_take. lia.
        -- intros Hle. lia.
        -- intros _. reflexivity.
  - intros Hd. destruct (Z.eqb_spec len (n * n * n)) as [E|E]; [lia|].
    destruct (Z.leb_spec (Z.abs (n * n * n - len)) 20); [lia|]. reflexivity.
Qed.

Example lightsOut_repairs_sevenRows :
  exists lut, LightsOut.parseCubeLUT integerLiteral nearestCubeRoot sevenRows = inr lut /\
              size lut = Int 2 /\ length (data lut) = 8%nat.
Proof. eexists. vm_compute. repeat split. Qed.

Example lightsOut_rejects_oneRow :
  LightsOut.parseCubeLUT integerLiteral nearestCubeRoot oneRow = inl LightsOut.SizeMismatchTooLarge.
Proof. vm_compute. reflexivity. Qed.
End RowCountFacts.

(** ** The result cache *)
Section CacheFacts.
Import Cache.
Implicit Types (m : list (string * Z)) (s : State).

Lemma keys_mapSet key value m :
  (mapSet key value m).*1 = if decide (key ∈ m.*1) then m.*1 else m.*1 ++ [key].
Proof.
  unfold mapSet. destruct (decide (key ∈ m.*1)).
  - rewrite <- list_fmap_compose. apply list_fmap_ext. intros i x _. simpl.
    destruct (decide (x.1 = key)) as [<-|]; reflexivity.
  - rewrite fmap_app. reflexivity.
Qed.

Lemma consistent_empty : consistent empty.
Proof. split; [reflexivity|constructor]. Qed.

Lemma consistent_inserted key now s : consistent s -> consistent (inserted key now s).
Proof.
  intros [Hc Hn]. unfold consistent, inserted. cbn [processedUrlCache entries].
  rewrite keys_mapSet, Hc. destruct (decide (key ∈ (entries s).*1)) as [Hin|Hin].
  - split; [|exact Hn]. apply set_eq. intros x.
    rewrite elem_of_union, elem_of_singleton, elem_of_list_to_set.
    split; [intros [->|]; assumption | auto].
  - split.
    + rewrite list_to_set_app_L, list_to_set_singleton_L. apply union_comm_L.
    + apply NoDup_app. split; [exact Hn|]. split.
      * intros x Hx Hx'. apply list_elem_of_singleton in Hx'. congruence.
      * apply NoDup_singleton.
Qed.

Lemma NoDup_keys_filter (P : string * Z -> Prop) `{!forall e, Decision (P e)} m :
  NoDup m.*1 -> NoDup (filter P m).*1.
Proof.
  induction m as [|e m IH]; intros Hn; [constructor|].
  rewrite fmap_cons in Hn. apply NoDup_cons in Hn as [Hnotin Hn].
  rewrite filter_cons. destruct (decide (P e)); [|apply IH, Hn].
  rewrite fmap_cons. apply NoDup_cons. split; [|apply IH, Hn].
  intros Hin. apply Hnotin.
  apply list_elem_of_fmap in Hin as (e' & -> & He').
  apply list_elem_of_filter in He' as [_ He']. apply list_elem_of_fmap_2, He'.
Qed.

Lemma consistent_delete key s : consistent s -> consistent (delete key s).
Proof.
  intros [Hc Hn]. unfold consistent, delete, mapDelete.
  cbn [processedUrlCache entries]. split.
  - rewrite Hc. apply set_eq. intros x.
    rewrite elem_of_difference, elem_of_singleton, !elem_of_list_to_set,
      !list_elem_of_fmap.
    split.
    + intros [(e & -> & He) Hne]. exists e. split; [reflexivity|].
      apply list_elem_of_filter. split; assumption.
    + intros (e & -> & He). apply list_elem_of_filter in He as [Hne He].
      split; [eauto|exact Hne].
  - apply NoDup_keys_filter, Hn.
Qed.

Lemma consistent_deletes (ks : list (string * Z)) : forall s,
  consistent s -> consistent (foldl (fun s e => delete e.1 s) s ks).
Proof.
  induction ks as [|k ks IH]; intros s Hs; [exact Hs|].
  simpl. apply IH, consistent_delete, Hs.
Qed.

Lemma entries_deletes (ks : list (string * Z)) : forall s,
  entries (foldl (fun s e => delete e.1 s) s ks) =
  filter (fun e => e.1 ∉ ks.*1) (entries s).
Proof.
  induction ks as [|k ks IH]; intros s.
  - simpl. induction (entries s) as [|e m IHm]; [reflexivity|].
    rewrite filter_cons_True by apply not_elem_of_nil. rewrite <- IHm.
    reflexivity.
  - simpl. rewrite IH. unfold delete, mapDelete. cbn [entries].
    rewrite list_filter_filter. apply list_filter_iff. intros e.
    rewrite not_elem_of_cons. tauto.
Qed.

Lemma consistent_size s : consistent s -> size (processedUrlCache s) = length (entries s).
Proof.
  intros [Hc Hn]. rewrite Hc, size_list_to_set by exact Hn. apply length_fmap.
Qed.

Lemma consistent_cleanup s : consistent s -> consistent (cleanup s).
Proof.
  intros Hs. unfold cleanup. case_decide; [exact Hs|].
  apply consistent_deletes, Hs.
Qed.

Lemma consistent_add key now s : consistent s -> consistent (add key now s).
Proof.
  intros Hs. unfold add. case_decide.
  - apply consistent_cleanup, consistent_inserted, Hs.
  - apply consistent_inserted, Hs.
Qed.

Lemma filter_none {A} (P : A -> Prop) `{!forall x, Decision (P x)} (l : list A) :
  Forall (fun x => ~ P x) l -> filter P l = [].
Proof.
  induction 1 as [|x l Hx _ IH]; [reflexivity|].
  rewrite filter_cons_False by exact Hx. exact IH.
Qed.

Lemma filter_all {A} (P : A -> Prop) `{!forall x, Decision (P x)} (l : list A) :
  Forall P l -> filter P l = l.
Proof.
  induction 1 as [|x l Hx _ IH]; [reflexivity|].
  rewrite filter_cons_True by exact Hx. rewrite IH. reflexivity.
Qed.

(** Deleting the keys of a prefix, when keys are unique, leaves the rest. *)
Lemma filter_prefix_keys (l1 l2 : list (string * Z)) :
  NoDup (l1 ++ l2).*1 ->
  filter (fun e => e.1 ∉ l1.*1) (l1 ++ l2) = l2.
Proof.
  intros Hn. rewrite fmap_app in Hn. apply NoDup_app in Hn as (_ & Hdisj & _).
  rewrite filter_app, filter_none, filter_all; [reflexivity| |].
  - apply Forall_forall. intros e He Hin. apply (Hdisj e.1 Hin).
    apply list_elem_of_fmap_2, He.
  - apply Forall_forall. intros e He Hnot. apply Hnot.
    apply list_elem_of_fmap_2, He.
Qed.

Lemma insertByTime_perm x m : insertByTime x m ≡ₚ x :: m.
Proof.
  induction m as [|y m IH]; [reflexivity|]. simpl.
  destruct (x.2 <=? y.2); [reflexivity|].
  rewrite IH. apply Permutation_swap.
Qed.

Lemma sortByTime_perm m : sortByTime m ≡ₚ m.
Proof.
  induction m as [|x m IH]; [reflexivity|]. simpl.
  rewrite insertByTime_perm, IH. reflexivity.
Qed.



(** The sort keeps entries of equal timestamp in the order of the map. *)
Example sortByTime_stable :
  sortByTime [("a", 1); ("b", 1); ("c", 0); ("d", 1); ("e", 0)]%string
  = [("c", 0); ("e", 0); ("a", 1); ("b", 1); ("d", 1)]%string.
Proof. reflexivity. Qed.

(** What [cleanup] leaves, up to the order of the entries: the sorted
    entries without their first [removeCount]. *)
Lemma entries_cleanup s :
  consistent s ->
  (MAX_CACHE_SIZE < length (entries s))%nat ->
  entries (cleanup s) ≡ₚ
  drop (length (entries s) - MAX_CACHE_SIZE) (sortByTime (entries s)).
Proof.
  intros Hs Hlen. pose proof (consistent_size s Hs) as Hsize.
  unfold cleanup. case_decide; [lia|]. rewrite entries_deletes, Hsize.
  set (r := (length (entries s) - MAX_CACHE_SIZE)%nat).
  set (sorted := sortByTime (entries s)).
  assert (Hperm : entries s ≡ₚ sorted) by (symmetry; apply sortByTime_perm).
  rewrite Hperm.
  pose proof (filter_prefix_keys (take r sorted) (drop r sorted)) as Hf.
  rewrite take_drop in Hf. rewrite Hf; [reflexivity|].
  rewrite <- Hperm. apply Hs.
Qed.

Lemma size_cleanup s :
  consistent s ->
  size (processedUrlCache (cleanup s)) =
  Nat.min (size (processedUrlCache s)) MAX_CACHE_SIZE.
Proof.
  intros Hs.
  rewrite (consistent_size _ (consistent_cleanup s Hs)), (consistent_size s Hs).
  destruct (decide (length (entries s) ≤ MAX_CACHE_SIZE)%nat) as [Hle|Hgt].
  - unfold cleanup. rewrite (consistent_size s Hs).
    case_decide; [lia|contradiction].
  - rewrite entries_cleanup by (exact Hs || lia).
    rewrite length_drop.
    rewrite (Permutation_length (sortByTime_perm (entries s))). lia.
Qed.

Lemma size_add key now s :
  consistent s -> (size (processedUrlCache (add key now s)) ≤ MAX_CACHE_SIZE)%nat.
Proof.
  intros Hs. unfold add. case_decide as Hthr.
  - rewrite size_cleanup by (apply consistent_inserted, Hs). lia.
  - unfold CACHE_CLEAN_THRESHOLD, MAX_CACHE_SIZE in *. lia.
Qed.

Lemma size_delete key s :
  (size (processedUrlCache (delete key s)) ≤ size (processedUrlCache s))%nat.
Proof.
  apply subseteq_size. unfold delete. cbn [processedUrlCache].
  apply subseteq_difference_l. reflexivity.
Qed.

Lemma size_empty_cache : size (processedUrlCache empty) = 0%nat.
Proof. apply size_empty. Qed.

(** Every reachable state is consistent and within the bound. *)
Lemma run_invariant calls :
  consistent (run calls) /\
  (size (processedUrlCache (run calls)) ≤ MAX_CACHE_SIZE)%nat.
Proof.
  unfold run. induction calls as [|c calls IH] using rev_ind.
  - split; [apply consistent_empty|]. cbn [foldl]. rewrite size_empty_cache. lia.
  - rewrite foldl_app. cbn [foldl]. destruct IH as [Hc Hb].
    destruct c as [key now|key|key|]; cbn [call].
    + split; [apply consistent_add, Hc|apply size_add, Hc].
    + split; assumption.
    + split; [apply consistent_delete, Hc|].
      etransitivity; [apply size_delete|exact Hb].
    + split; [apply consistent_empty|]. unfold clear.
      rewrite size_empty_cache. lia.
Qed.




(** Keys "0" .. "300" added at times 0 .. 300: the 301st [add] evicts
    key "0" and nothing else. *)
Example cacheManager_evicts_first_key :
  let s := run (manyKeys 301) in
  size (processedUrlCache s) = 300%nat /\
  has "0" s = false /\ has "1" s = true /\ has "300" s = true.
Proof. vm_compute. repeat split. Qed.

End CacheFacts.

(** ** Grain and vignette at zero strength *)
Section EffectFacts.
Import JS ColorTransform Effects.
Local Open Scope Q_scope.

Lemma byteOfUnit_unitQ b : byteOfUnit (unitQ b) = b.
Proof. destruct b; vm_compute; reflexivity. Qed.

Lemma byteOfUnit_comp x y : x == y -> byteOfUnit x = byteOfUnit y.
Proof.
  intros H. unfold byteOfUnit. f_equal. apply Qfloor_comp. rewrite H. reflexivity.
Qed.

Lemma compositeChannel_transparent a alphaB cs c :
  a == 0 -> ~ alphaB == 0 ->
  compositeChannel a alphaB (a + alphaB * (1 - a)) cs c = c.
Proof.
  intros Ha Hb. unfold compositeChannel.
  transitivity (byteOfUnit (unitQ c)); [|apply byteOfUnit_unitQ].
  apply byteOfUnit_comp.
  generalize (overlay (unitQ c) cs) as o. intros o.
  rewrite Ha. field. exact Hb.
Qed.

(** Painting a fully transparent colour leaves the pixel as it is. *)
Lemma compositeOverlay_transparent r g b a p :
  a == 0 -> compositeOverlay (r, g, b, a) p = p.
Proof.
  intros Ha. unfold compositeOverlay.
  destruct (Qeq_bool (a + unitQ (alpha p) * (1 - a)) 0) eqn:E; [reflexivity|].
  apply Qeq_bool_neq in E.
  assert (Hb : ~ unitQ (alpha p) == 0).
  { intros Hb. apply E. rewrite Ha, Hb. reflexivity. }
  rewrite !compositeChannel_transparent by assumption.
  assert (Hal : byteOfUnit (a + unitQ (alpha p) * (1 - a)) = alpha p).
  { transitivity (byteOfUnit (unitQ (alpha p))); [|apply byteOfUnit_unitQ].
    apply byteOfUnit_comp. rewrite Ha. ring. }
  rewrite Hal. destruct p; reflexivity.
Qed.

Lemma clamp01_zero amount : amount == 0 -> clamp01 amount = 0.
Proof.
  intros H. unfold clamp01.
  assert (Hle : Qle_bool amount 0 = true).
  { apply Qle_bool_iff. rewrite H. apply Qle_refl. }
  rewrite Hle. reflexivity.
Qed.

Lemma gradient_transparent amount t :
  amount == 0 ->
  exists r g b a, gradientColor (rgba_black 0) (rgba_black amount) t = (r, g, b, a)
                  /\ a == 0.
Proof.
  intros H. unfold gradientColor, rgba_black. rewrite (clamp01_zero amount H).
  do 4 eexists. split; [reflexivity|]. unfold lerp, clamp01. simpl. ring.
Qed.

Lemma imap_id {A} (f : nat -> A -> A) (l : list A) :
  (forall i x, f i x = x) -> imap f l = l.
Proof.
  revert f. induction l as [|x l IH]; intros f Hf; [reflexivity|].
  simpl. rewrite Hf. f_equal. apply IH. intros i y. apply Hf.
Qed.

(** C9. With intensity 0 (the test [intensity === 0] holds) [applyGrain]
    returns the bitmap it was given, and with amount 0 [applyVignette]
    leaves every byte of the canvas, alpha included, as it was. *)
Theorem effects_identity_at_zero
    (random : nat -> number) (intensity : number) (buffer : list Pixel)
    (norm : Q -> Q -> Q) (canvas : Canvas) (amount : Q) :
  strictEq intensity (ofZ 0) = true ->
  amount == 0 ->
  applyGrain random intensity buffer = buffer /\
  applyVignette norm canvas amount = canvas.
Proof.
  intros Hi Ha. split.
  - unfold applyGrain. rewrite Hi. reflexivity.
  - unfold applyVignette. destruct canvas as [w h px]. cbn [width height bitmap].
    f_equal. apply imap_id. intros i p.
    match goal with
    | |- compositeOverlay (gradientColor _ _ ?t) p = p =>
        destruct (gradient_transparent amount t Ha) as (r & g & b & a & -> & Hz)
    end.
    apply compositeOverlay_transparent, Hz.
Qed.

Lemma effects_identity_at_zero_witness :
  applyGrain (fun _ => half) (ofZ 0) (bitmap sampleCanvas) = bitmap sampleCanvas /\
  applyVignette taxicab sampleCanvas 0 = sampleCanvas.
Proof.
  apply (effects_identity_at_zero (fun _ => half) (ofZ 0) (bitmap sampleCanvas)
           taxicab sampleCanvas 0).
  - reflexivity.
  - reflexivity.
Defined.

(** At a non-zero strength both effects do change the sample canvas. *)
Example effects_change_pixels :
  applyGrain (fun _ => ofZ 1) (div (ofZ 1) (ofZ 10)) (bitmap sampleCanvas)
    <> bitmap sampleCanvas /\
  applyVignette taxicab sampleCanvas (3 # 10) <> sampleCanvas.
Proof. split; vm_compute; intros H; inversion H. Qed.

End EffectFacts.

(** ** The write guard *)
Section GuardFacts.
Import Dom Pipeline.



Lemma authorizedSetSrc_src v e : src (authorizedSetSrc v e) = v.
Proof.
  unfold authorizedSetSrc, setSrc. simpl.
  destruct (srcGuard e); reflexivity.
Qed.



Lemma lockImageSrc_installs e :
  isTrue (locked e) = false ->
  srcGuard (lockImageSrc true e) = true /\
  setAttributeGuard (lockImageSrc true e) = true.
Proof. intros H. unfold lockImageSrc. rewrite H. split; reflexivity. Qed.



(** Without the guard the same host writes do replace the reference. *)
Example unguarded_write_takes_effect :
  src (hostWrite (freshImage "https://host/a.png") (AssignSrc "https://host/x.png"))
  = "https://host/x.png"%string.
Proof. reflexivity. Qed.

End GuardFacts.

(** ** Scheduling, failures and the disable toggle *)
Section PipelineFacts.
Import Dom Pipeline.

(** A call that passes the entry tests of [processImage] is suspended with
    the in-flight marker set. *)
Lemma start_marks st force cache e :
  src e <> EmptyString -> isTrue (locked e) = false -> processing e = false ->
  originalSrc e = None ->
  processed e = None ->
  exists job, start st force cache e = (withProcessing true e, Some job).
Proof.
  intros Hsrc Hl Hp Ho Hpr. unfold start.
  destruct (String.eqb_spec (src e) EmptyString) as [E|_]; [contradiction|].
  rewrite Hl, Hp. simpl. rewrite Ho. simpl.
  rewrite andb_false_r. simpl.
  destruct (String.eqb_spec (src e) EmptyString) as [E|_]; [contradiction|].
  rewrite Hpr. simpl. rewrite andb_false_r. eauto.
Qed.

(** Nothing in the dispatch counts the calls in flight: every eligible
    image of a batch is marked, however long the batch. *)
Lemma dispatch_marks_all st force cache batch :
  Forall eligible batch ->
  inFlight (fst <$> dispatch st force cache batch) = length batch.
Proof.
  unfold inFlight, dispatch.
  induction 1 as [|e batch (Hs & Hl & Hp & Ho & Hpr) _ IH]; [reflexivity|].
  destruct (start_marks st force cache e Hs Hl Hp Ho Hpr) as [job Hj].
  rewrite !fmap_cons, Hj. cbn [fst].
  rewrite filter_cons_True by reflexivity. simpl. rewrite IH. reflexivity.
Qed.

(** C5 (the code at six visible images). The first batch of
    [processAllMedia] starts six calls of [processImage] before any of
    them resumes; all six elements carry the in-flight marker at once,
    which is more than MAX_CONCURRENT. *)
Theorem dispatch_exceeds_MAX_CONCURRENT :
  let batch := take BATCH_SIZE sixImages in
  inFlight (fst <$> dispatch fuji true ∅ batch) = 6%nat /\
  (MAX_CONCURRENT < inFlight (fst <$> dispatch fuji true ∅ batch))%nat.
Proof. vm_compute. split; [reflexivity|lia]. Qed.



Lemma restoreRecorded_src e : src (restoreRecorded e) = recordedOrCurrent e.
Proof.
  unfold restoreRecorded, recordedOrCurrent.
  destruct (originalSrc e) as [o|]; [|reflexivity].
  destruct (String.eqb_spec o EmptyString); simpl; [reflexivity|].
  destruct (String.eqb_spec (src e) o) as [E|E]; simpl; [exact E|].
  apply authorizedSetSrc_src.
Qed.



End PipelineFacts.

Section PipelineClaims.
Import Dom Pipeline.


(** The image of the witness was showing the transformed data URL and
    shows its original again after the failed reload, while its sibling
    in the batch is committed. *)
Example failed_reload_restores_original :
  src committedImage = jpeg /\
  src (processImage fuji true true LoadError cacheAfterCommit committedImage).1
    = "https://host/a.png"%string /\
  src <$> (processBatch fuji true true [Rendered true jpeg false; LoadError]
             cacheAfterCommit [freshImage "https://host/b.png"; committedImage]).1
    = [jpeg; "https://host/a.png"%string].
Proof. vm_compute. repeat split. Qed.






(** Nor is an overlay removed by the toggle: the wrapper's shadow tree is
    closed, so [revertElement] does not recognise the wrapper, and the
    image stays hidden under it. *)
Example disable_leaves_overlay :
  let after := disable [overlaidImage] ∅ in
  (fun e => (shown <$> overlay e, hidden e, robustShadow e)) <$> after.1
  = [(Some jpeg, true, false)].
Proof. reflexivity. Qed.

End PipelineClaims.

(** ** Calls of [processImage] on one image, one after the other *)
Section HistoryFacts.
Import Dom Pipeline History.

Lemma eligible_keepsOriginal e :
  kind e = Image -> eligible e -> keepsOriginal (src e) e.
Proof.
  intros Hk (Hs & _ & Hp & Ho & _). unfold keepsOriginal, recordedOrCurrent.
  rewrite Ho. repeat split; auto.
Qed.

(** A call that is suspended is loading the original. *)
Lemma start_keepsOriginal u st force cache e e1 oj :
  keepsOriginal u e ->
  start st force cache e = (e1, oj) ->
  match oj with
  | Some job => e1 = withProcessing true e /\ jobOriginalSrc job = u /\
                jobCacheKey job = cacheKey u st
  | None => e1 = e
  end.
Proof.
  intros (Hk & Hu & Hr & Hs & Hp). unfold start. rewrite Hp.
  destruct ((src e =? EmptyString)%string || isTrue (locked e) && negb force);
    [intros [= <- <-]; reflexivity|].
  cbn [src originalSrc withProcessing].
  assert (Hpe : withProcessing false (withProcessing true e) = e).
  { destruct e; simpl in *; subst; reflexivity. }
  destruct (String.prefix "data:image" (src e) && truthy (originalSrc e)) eqn:Hd.
  - apply andb_prop in Hd as [Hd Ht].
    assert (Ho : default EmptyString (originalSrc e) = u).
    { unfold recordedOrCurrent in Hr. destruct (originalSrc e) as [o|]; [|discriminate].
      simpl in *. destruct (String.eqb_spec o EmptyString); [discriminate|exact Hr]. }
    rewrite Ho. destruct (String.eqb_spec u EmptyString); [contradiction|].
    simpl. intros [= <- <-]. auto.
  - assert (Hsu : src e = u).
    { destruct Hs as [E|[Hd' Ho]]; [exact E|]. rewrite Hd', Ho in Hd. simpl in Hd.
      destruct (String.eqb_spec u EmptyString); [contradiction|discriminate]. }
    rewrite Hsu. destruct (String.eqb_spec u EmptyString); [contradiction|].
    match goal with |- context [if ?b then _ else _] => destruct b end.
    + rewrite Hpe. intros [= <- <-]. reflexivity.
    + intros [= <- <-]. auto.
Qed.

Lemma restoreRecorded_keepsOriginal u e :
  kind e = Image -> u <> EmptyString -> recordedOrCurrent e = u ->
  (src e = u \/ (String.prefix "data:image" (src e) = true /\ originalSrc e = Some u)) ->
  kind (restoreRecorded e) = Image /\
  src (restoreRecorded e) = u /\
  originalSrc (restoreRecorded e) = originalSrc e.
Proof.
  intros Hk Hu Hr Hs. split; [|split].
  - unfold restoreRecorded. destruct (originalSrc e); [|exact Hk].
    destruct (_ && _); [|exact Hk]. unfold authorizedSetSrc, setSrc. simpl.
    destruct (srcGuard e); exact Hk.
  - rewrite restoreRecorded_src. exact Hr.
  - unfold restoreRecorded. destruct (originalSrc e) eqn:E; [|exact E].
    destruct (_ && _); [|exact E]. unfold authorizedSetSrc, setSrc. simpl.
    destruct (srcGuard e); exact E.
Qed.

Lemma resume_keepsOriginal u st d out job cache e :
  keepsOriginal u e -> jobOriginalSrc job = u -> rendersDataUrl out ->
  keepsOriginal u (resume st d out job cache (withProcessing true e)).1.
Proof.
  intros (Hk & Hu & Hr & Hs & Hp) Hj Hout.
  assert (Hk' : kind (withProcessing true e) = Image) by exact Hk.
  assert (Hr' : recordedOrCurrent (withProcessing true e) = u) by exact Hr.
  assert (Hs' : src (withProcessing true e) = u \/
                (String.prefix "data:image" (src (withProcessing true e)) = true /\
                 originalSrc (withProcessing true e) = Some u)) by exact Hs.
  destruct (restoreRecorded_keepsOriginal u _ Hk' Hu Hr' Hs') as (Rk & Rs & Ro).
  destruct out as [| | | |lutOk dataUrl useShadow]; cbn [resume fst].
  - unfold keepsOriginal. cbn [kind src originalSrc processing withProcessing].
    repeat split; auto.
    unfold recordedOrCurrent. cbn [originalSrc src withProcessing].
    rewrite Ro, Rs. cbn [originalSrc withProcessing].
    unfold recordedOrCurrent in Hr.
    destruct (originalSrc e) as [o|]; [|reflexivity].
    destruct (String.eqb_spec o EmptyString); [reflexivity|exact Hr].
  - unfold keepsOriginal. destruct e; simpl in *. auto.
  - unfold keepsOriginal. destruct e; simpl in *. auto.
  - unfold keepsOriginal. destruct e; simpl in *. auto.
  - simpl in Hout.
    destruct (negb (preset st =? "none")%string && lutOk || enableGrain st || enableVignette st).
    + destruct useShadow; cbn [fst].
      * unfold robustShadowReplace. cbn [robustShadow withProcessing].
        destruct (robustShadow e); unfold keepsOriginal; destruct e; simpl in *; auto.
      * unfold keepsOriginal, commitDirect.
        cbn [kind src originalSrc processing withProcessing].
        rewrite authorizedSetSrc_src.
        assert (Ha : forall v x, kind (authorizedSetSrc v x) = kind x /\
                                 originalSrc (authorizedSetSrc v x) = originalSrc x).
        { intros v x. unfold authorizedSetSrc, setSrc. simpl.
          destruct (srcGuard x); split; reflexivity. }
        assert (Hl : forall x, kind (lockImageSrc d x) = kind x).
        { intros x. unfold lockImageSrc. destruct (isTrue (locked x)); [reflexivity|].
          destruct d; reflexivity. }
        unfold recordedOrCurrent. cbn [originalSrc src withProcessing].
        rewrite authorizedSetSrc_src.
        destruct (Ha dataUrl (withProcessed (Some "true"%string)
                    (withOriginalSrc (Some (jobOriginalSrc job))
                       (lockImageSrc d (withProcessing true e))))) as [-> ->].
        cbn [kind originalSrc withProcessed withOriginalSrc].
        rewrite Hl, Hj. cbn [kind withProcessing].
        destruct (String.eqb_spec u EmptyString); [contradiction|].
        repeat split; auto.
    + cbn [fst]. unfold keepsOriginal.
      cbn [kind src originalSrc processing withProcessing withOriginalSrc].
      unfold recordedOrCurrent.
      cbn [kind src originalSrc processing withProcessing withOriginalSrc].
      repeat split; auto.
Qed.

Lemma processImage_keepsOriginal u st force d out cache e :
  keepsOriginal u e -> rendersDataUrl out ->
  keepsOriginal u (processImage st force d out cache e).1.
Proof.
  intros He Hout. unfold processImage.
  destruct (start st force cache e) as [e1 [job|]] eqn:E;
    apply (start_keepsOriginal u) in E; try exact He.
  - destruct E as (-> & Hj & _). apply resume_keepsOriginal; assumption.
  - subst e1. exact He.
Qed.

Lemma passes_keepsOriginal u ps : forall e cache,
  keepsOriginal u e ->
  Forall (fun p => rendersDataUrl (passOutcome p)) ps ->
  keepsOriginal u (passes e cache ps).1.
Proof.
  unfold passes. induction ps as [|p ps IH]; intros e cache He Hps; [exact He|].
  apply Forall_cons in Hps as [Hp Hps]. cbn [foldl]. unfold pass at 2. cbn [fst snd].
  destruct (processImage (passSettings p) (passForce p) (passDescriptor p)
              (passOutcome p) cache e) as [e' cache'] eqn:E.
  apply IH; [|exact Hps].
  change e' with (e', cache').1. rewrite <- E.
  apply processImage_keepsOriginal; assumption.
Qed.

Lemma revertElement_keepsOriginal u e :
  keepsOriginal u e ->
  let e' := revertElement e in
  src e' = u /\ originalSrc e' = None /\ processed e' = None /\ locked e' = None /\
  processing e' = false.
Proof.
  intros (Hk & Hu & Hr & Hs & Hp). unfold revertElement.
  destruct e as [k s os pr lk al pg sg ag rs ov hd]. simpl in *. subst k.
  unfold recordedOrCurrent in Hr. simpl in Hr.
  destruct ov as [[sh []]|]; simpl;
    (destruct os as [o|]; simpl;
     [ destruct (String.eqb_spec o EmptyString) as [->|Ho]; simpl;
       [ repeat split; try reflexivity; exact Hr
       | destruct (String.eqb_spec s o) as [->|Hso]; simpl;
         [ repeat split; try reflexivity; exact Hr
         | repeat split; try reflexivity;
           unfold authorizedSetSrc, setSrc; simpl; destruct sg; exact Hr ] ]
     | repeat split; try reflexivity; exact Hr ]).
Qed.

(** X1. Whatever calls of [processImage] an image has gone through (any
    settings, forced or not, any answers of the platform, the data URLs
    being [data:image/...] URLs), [revertElement] gives it back the source
    it had before the first call and clears the recorded original and the
    processed, locked and in-flight markers. *)
Theorem revert_restores_original_after_any_passes
    (e : Element) (cache : gset string) (ps : list Pass) :
  kind e = Image -> eligible e ->
  Forall (fun p => rendersDataUrl (passOutcome p)) ps ->
  let e' := revertElement (passes e cache ps).1 in
  src e' = src e /\ originalSrc e' = None /\ processed e' = None /\
  locked e' = None /\ processing e' = false.
Proof.
  intros Hk He Hps. apply revertElement_keepsOriginal, passes_keepsOriginal;
    [apply eligible_keepsOriginal; assumption|exact Hps].
Qed.

(** X2. After any such calls, a further call of [processImage] that gets
    as far as loading an image loads the original of the element, never
    the data URL it shows, and its cache key is built from that
    original. *)
Theorem every_load_is_of_the_original
    (e : Element) (cache cache' : gset string) (ps : list Pass)
    (st : Settings) (force : bool) (job : Job) :
  kind e = Image -> eligible e ->
  Forall (fun p => rendersDataUrl (passOutcome p)) ps ->
  (start st force cache' (passes e cache ps).1).2 = Some job ->
  jobOriginalSrc job = src e /\ jobCacheKey job = cacheKey (src e) st.
Proof.
  intros Hk He Hps Hj.
  pose proof (passes_keepsOriginal (src e) ps e cache
                (eligible_keepsOriginal e Hk He) Hps) as Hinv.
  destruct (start st force cache' (passes e cache ps).1) as [e1 oj] eqn:E.
  simpl in Hj. subst oj.
  apply (start_keepsOriginal (src e)) in E; [|exact Hinv].
  destruct E as (_ & H1 & H2). split; assumption.
Qed.

Lemma freshImage_eligible url : url <> EmptyString -> eligible (freshImage url).
Proof. intros H. unfold eligible. simpl. auto. Qed.

Lemma samplePasses_render : Forall (fun p => rendersDataUrl (passOutcome p)) samplePasses.
Proof. repeat constructor. Qed.

Lemma revert_restores_original_after_any_passes_witness :
  let e' := revertElement (passes (freshImage "https://host/a.png") ∅ samplePasses).1 in
  src e' = "https://host/a.png"%string /\ originalSrc e' = None /\ processed e' = None /\
  locked e' = None /\ processing e' = false.
Proof.
  apply (revert_restores_original_after_any_passes
           (freshImage "https://host/a.png") ∅ samplePasses).
  - reflexivity.
  - apply freshImage_eligible. discriminate.
  - exact samplePasses_render.
Defined.

Lemma every_load_is_of_the_original_witness :
  jobOriginalSrc {| jobOriginalSrc := "https://host/a.png";
                    jobCacheKey := "https://host/a.png-fuji-1-0" |}
    = src (freshImage "https://host/a.png") /\
  jobCacheKey {| jobOriginalSrc := "https://host/a.png";
                 jobCacheKey := "https://host/a.png-fuji-1-0" |}
    = cacheKey (src (freshImage "https://host/a.png")) fujiGrain.
Proof.
  apply (every_load_is_of_the_original
           (freshImage "https://host/a.png") ∅ ∅ (take 1 samplePasses) fujiGrain true).
  - reflexivity.
  - apply freshImage_eligible. discriminate.
  - repeat constructor.
  - vm_compute. reflexivity.
Defined.

(** In the second witness the image shows the data URL of its first pass
    when the further call starts. *)
Example image_shows_data_url_after_first_pass :
  src (passes (freshImage "https://host/a.png") ∅ (take 1 samplePasses)).1 = jpeg.
Proof. reflexivity. Qed.
End HistoryFacts.

(** ** A batch run to its end *)
Section BatchFacts.
Import Dom Pipeline.

Lemma resume_settled st d out job cache e :
  processing (resume st d out job cache e).1 = false /\
  cache ⊆ (resume st d out job cache e).2.
Proof.
  destruct out; cbn [resume]; try (split; [reflexivity|set_solver]).
  repeat match goal with |- context [if ?b then _ else _] => destruct b end;
    (split; [reflexivity|set_solver]).
Qed.

Lemma start_not_suspended st force cache e e1 :
  processing e = false -> start st force cache e = (e1, None) -> processing e1 = false.
Proof.
  intros Hp. unfold start. rewrite Hp.
  repeat match goal with
         | |- context [if ?b then _ else _] => destruct b
         | |- context [let '(_, _) := ?p in _] => destruct p
         end; intros [= <-]; try exact Hp; reflexivity.
Qed.

Lemma settle_settled st d : forall pending outs cache,
  Forall (fun p => p.2 = None -> processing p.1 = false) pending ->
  (length pending <= length outs)%nat ->
  Forall (fun e => processing e = false) (settle st d pending outs cache).1 /\
  length (settle st d pending outs cache).1 = length pending /\
  cache ⊆ (settle st d pending outs cache).2.
Proof.
  induction pending as [|[e oj] pending IH]; intros outs cache Hp Hlen.
  - simpl. split; [constructor|]. split; [reflexivity|set_solver].
  - apply Forall_cons in Hp as [He Hp]. destruct outs as [|out outs]; [simpl in Hlen; lia|].
    simpl in Hlen. cbn [settle head tail].
    destruct (match oj with
              | Some job => resume st d out job cache e
              | None => (e, cache)
              end) as [e' cache'] eqn:E.
    specialize (IH outs cache' Hp ltac:(lia)).
    destruct (settle st d pending outs cache') as [es cache''].
    cbn [fst snd] in *. destruct IH as (IH1 & IH2 & IH3).
    assert (He' : processing e' = false /\ cache ⊆ cache').
    { destruct oj as [job|].
      - pose proof (resume_settled st d out job cache e) as H. rewrite E in H. exact H.
      - injection E as <- <-. split; [apply He; reflexivity|reflexivity]. }
    destruct He' as [He1 He2].
    split; [constructor; assumption|]. split; [simpl; lia|].
    etransitivity; eassumption.
Qed.

(** X3. When no element of a batch is in flight at the start and the
    platform answers every call, the batch ends with no element in
    flight, with as many elements as it had, and with a result cache
    that holds at least the keys it held: processing never removes a
    key. *)
Theorem processBatch_settles
    (st : Settings) (force descriptor : bool) (outs : list Outcome)
    (cache : gset string) (batch : list Element) :
  Forall (fun e => processing e = false) batch ->
  (length batch <= length outs)%nat ->
  let after := processBatch st force descriptor outs cache batch in
  inFlight after.1 = 0%nat /\ length after.1 = length batch /\ cache ⊆ after.2.
Proof.
  intros Hb Hlen after. unfold after, processBatch.
  destruct (settle_settled st descriptor (dispatch st force cache batch) outs cache)
    as (H1 & H2 & H3).
  - unfold dispatch. apply Forall_fmap. eapply Forall_impl; [exact Hb|].
    intros e He. simpl. destruct (start st force cache e) as [e1 oj] eqn:E.
    simpl. intros ->. exact (start_not_suspended st force cache e e1 He E).
  - unfold dispatch. rewrite length_fmap. exact Hlen.
  - split; [|split; [|exact H3]].
    + unfold inFlight. rewrite filter_none; [reflexivity|].
      eapply Forall_impl; [exact H1|]. simpl. intros e -> . discriminate.
    + rewrite H2. unfold dispatch. apply length_fmap.
Qed.

Lemma processBatch_settles_witness :
  let after := processBatch fuji true true
                 [Rendered true jpeg false; LoadError; PixelReadBlocked;
                  Rendered true jpeg true; EmptyImage; NoContext]
                 ∅ sixImages in
  inFlight after.1 = 0%nat /\ length after.1 = length sixImages /\ ∅ ⊆ after.2.
Proof.
  apply (processBatch_settles fuji true true
           [Rendered true jpeg false; LoadError; PixelReadBlocked;
            Rendered true jpeg true; EmptyImage; NoContext] ∅ sixImages).
  - repeat constructor.
  - simpl. lia.
Defined.
End BatchFacts.

(** ** Reverting *)
Section RevertFacts.
Import Dom Pipeline.





(** X5. Reverting an element twice is reverting it once. *)
Theorem revertElement_idempotent (e : Element) :
  revertElement (revertElement e) = revertElement e.
Proof.
  destruct e as [k s os pr lk al pg sg ag rs ov hd].
  match goal with |- _ = ?x => remember x as r eqn:Hr end.
  unfold revertElement in Hr. fields_in Hr.
  destruct ov as [[sh []]|], k, os as [o|]; fields_in Hr.
  all: try match type of Hr with
       | context [negb (?x =? EmptyString)%string && ?c] =>
           destruct (negb (x =? EmptyString)%string && c) eqn:E
       end.
  all: unfold authorizedSetSrc, setSrc in Hr; fields_in Hr.
  all: try (destruct sg; fields_in Hr;
            try change (isTrue (Some "true"%string)) with true in Hr; fields_in Hr).
  all: cbv beta iota zeta delta
         [kind src originalSrc processed locked allowSet processing srcGuard
          setAttributeGuard robustShadow overlay hidden
          withSrc withOriginalSrc withProcessed withLocked withAllowSet withProcessing
          withGuards withOverlay shadowRootVisible] in Hr.
  all: subst r; unfold revertElement; fields; rewrite ?E; reflexivity.
Qed.
End RevertFacts.

(** ** The result cache: membership *)
Section CacheRoundTrip.
Import Cache.

Lemma sortByTime_snoc_head (x : string * Z) (m : list (string * Z)) :
  m <> [] -> Forall (fun e => e.2 <= x.2) m ->
  exists h rest, sortByTime (m ++ [x]) = h :: rest /\ h ∈ m.
Proof.
  induction m as [|y m IH]; intros Hne Hall; [contradiction|].
  apply Forall_cons in Hall as [Hy Hall]. cbn [app sortByTime foldr].
  destruct m as [|z m].
  - simpl. destruct (Z.leb_spec y.2 x.2); [|lia].
    eexists _, _. split; [reflexivity|]. apply list_elem_of_here.
  - destruct (IH ltac:(discriminate) Hall) as (h & rest & E & Hh).
    unfold sortByTime in E. cbn [app foldr] in E |- *. rewrite E. simpl.
    destruct (y.2 <=? h.2).
    + eexists _, _. split; [reflexivity|]. apply list_elem_of_here.
    + eexists _, _. split; [reflexivity|]. apply list_elem_of_further, Hh.
Qed.

(** X6. After any sequence of calls on the cache manager, a key added at
    a time that is not earlier than the times recorded in the cache is
    in the cache when [add] returns: the clean-up that [add] may run
    evicts another key. *)
Theorem cacheManager_add_then_has (calls : list Call) (key : string) (now : Z) :
  Forall (fun e => e.2 <= now) (entries (run calls)) ->
  has key (add key now (run calls)) = true.
Proof.
  intros Hclock. destruct (run_invariant calls) as [Hc Hb].
  set (s := run calls) in *.
  assert (Hin : key ∈ processedUrlCache (inserted key now s)).
  { unfold inserted. cbn [processedUrlCache]. set_solver. }
  unfold has. apply bool_decide_eq_true. unfold add. case_decide as Hthr; [|exact Hin].
  unfold cleanup. case_decide as Hsz; [exact Hin|].
  pose proof (consistent_inserted key now s Hc) as Hci.
  pose proof (consistent_size _ Hci) as Hlen.
  pose proof (consistent_size _ Hc) as Hlen0.
  assert (Hnew : key ∉ (entries s).*1).
  { intros Hk. apply Hsz. rewrite Hlen. unfold inserted, mapSet. cbn [entries].
    rewrite decide_True by exact Hk. rewrite length_fmap. lia. }
  assert (He : entries (inserted key now s) = entries s ++ [(key, now)]).
  { unfold inserted, mapSet. cbn [entries]. rewrite decide_False by exact Hnew.
    reflexivity. }
  rewrite Hlen, He, length_app in *. simpl in *.
  assert (H300 : length (entries s) = MAX_CACHE_SIZE) by lia.
  replace (length (entries s) + 1 - MAX_CACHE_SIZE)%nat with 1%nat by lia.
  destruct (sortByTime_snoc_head (key, now) (entries s)) as (h & rest & E & Hh).
  { intros E. rewrite E in H300. discriminate. }
  { exact Hclock. }
  rewrite E. cbn [take foldl]. unfold delete. cbn [processedUrlCache].
  apply elem_of_difference. split; [exact Hin|].
  rewrite elem_of_singleton. intros ->. apply Hnew.
  apply list_elem_of_fmap_2, Hh.
Qed.

Lemma cacheManager_add_then_has_witness :
  has "300" (add "300" 300 (run (manyKeys 300))) = true.
Proof.
  apply (cacheManager_add_then_has (manyKeys 300) "300" 300).
  apply (bool_decide_unpack _). vm_compute. exact I.
Defined.

(** With a clock that has stepped back the key just added is the oldest,
    and is the one evicted. *)
Example cacheManager_add_with_old_clock :
  has "new" (add "new" 0 (run (drop 1 (manyKeys 301)))) = false.
Proof. vm_compute. reflexivity. Qed.

(** X7. After any sequence of calls on the cache manager its two stores
    agree: a key is in [processedUrlCache] exactly when [entries] has a
    timestamp for it, no key has two timestamps, and the two have the
    same size. *)
Theorem cacheManager_stores_agree (calls : list Call) (key : string) :
  let s := run calls in
  (has key s = true <-> key ∈ (entries s).*1) /\
  NoDup (entries s).*1 /\
  size (processedUrlCache s) = length (entries s).
Proof.
  intros s. destruct (run_invariant calls) as [Hc _]. fold s in Hc.
  split; [|split; [apply Hc|apply consistent_size, Hc]].
  unfold has. rewrite bool_decide_eq_true. destruct Hc as [-> _].
  apply elem_of_list_to_set.
Qed.
End CacheRoundTrip.

(** ** From the text of a preset to the transformed buffer *)
Section LutStepFacts.
Import JS ColorTransform LutTable CubeText LutStep.
Variable Number : str -> number.

(** X8. For a preset other than 'none' that is parsed for the first
    time, and a CUBE text of comment lines, blank lines, size directives
    that all declare N >= 1 and N*N*N colour rows, the LUT stage caches
    the table of the text under the preset and puts on the canvas the
    transform of the buffer by that table: it does not fail, the buffer
    keeps its length and every alpha byte. *)
Theorem lutStep_valid_text (ls : list Line) (N : N) (preset : string)
    (lutCache : gmap string Lut) (imageData : ImageData) :
  preset <> "none"%string ->
  Forall validLine ls ->
  declaredSizes ls <> [] ->
  (forall n, n ∈ declaredSizes ls -> n = N) ->
  (1 <= N)%N ->
  length (colorRows ls) = N.to_nat (N * N * N) ->
  is_finite (ofZ (Z.of_N N - 1)) = true ->
  lutCache !! preset = None ->
  let table := {| size := Int (Z.of_N N); data := numbers Number <$> colorRows ls |} in
  let after := lutStep Number preset (Some (render ls)) lutCache imageData in
  after.2 !! preset = Some table /\
  exists out, after.1 = Some out /\ applyCubeLUT imageData table = Some out /\
              length out = length imageData /\ alpha <$> out = alpha <$> imageData.
Proof.
  intros Hp Hv Hne Hall HN Hrows Hfin Hc table after.
  unfold after, lutStep. apply String.eqb_neq in Hp. rewrite Hp.
  unfold parseCubeLUT. rewrite Hc.
  rewrite (parseLines_valid Number ls N Hv Hne Hall). fold table.
  cbn [size data table isZero fst snd].
  assert (Hlen : length (numbers Number <$> colorRows ls) <> 0%nat).
  { rewrite length_fmap, Hrows. lia. }
  destruct (Z.eqb_spec (Z.of_N N) 0); [lia|].
  destruct (Nat.eqb_spec (length (numbers Number <$> colorRows ls)) 0); [contradiction|].
  cbn [orb fst snd]. split; [apply lookup_insert_eq|].
  destruct (applyCubeLUT_returns table (Z.of_N N) imageData) as (out & Hout & Hl);
    [reflexivity|exact Hfin| |].
  { intros E. apply Hlen. unfold table in E. cbn [data] in E. rewrite E. reflexivity. }
  exists out. split; [exact Hout|]. split; [exact Hout|]. split; [exact Hl|].
  eapply applyCubeLUT_alpha, Hout.
Qed.

(** X9. A preset is parsed once: whatever text a later call of
    [parseCubeLUT] is given for the same preset, it returns the table of
    the first call and leaves the cache as it is. *)
Theorem parseCubeLUT_parses_once (text1 text2 presetName : string)
    (lutCache : gmap string Lut) :
  let first := parseCubeLUT Number text1 presetName lutCache in
  parseCubeLUT Number text2 presetName first.2 = first.
Proof.
  unfold parseCubeLUT. destruct (lutCache !! presetName) as [cached|] eqn:E.
  - cbn [snd]. rewrite E. reflexivity.
  - cbn [snd]. rewrite lookup_insert_eq. reflexivity.
Qed.
End LutStepFacts.

Section LutStepWitness.
Import JS ColorTransform LutTable CubeText LutStep.

Lemma lutStep_valid_text_witness :
  let table := {| size := Int (Z.of_N 1);
                  data := numbers integerLiteral <$> colorRows sampleLines |} in
  let after := lutStep integerLiteral "fuji" (Some (render sampleLines)) ∅ image_2x2 in
  after.2 !! "fuji"%string = Some table /\
  exists out, after.1 = Some out /\ applyCubeLUT image_2x2 table = Some out /\
              length out = length image_2x2 /\ alpha <$> out = alpha <$> image_2x2.
Proof.
  apply (lutStep_valid_text integerLiteral sampleLines 1 "fuji" ∅ image_2x2).
  - discriminate.
  - exact sampleLines_valid.
  - discriminate.
  - intros n Hn. vm_compute in Hn. apply list_elem_of_singleton in Hn. exact Hn.
  - lia.
  - reflexivity.
  - vm_compute. reflexivity.
  - apply lookup_empty.
Defined.

(** X10. The parser of the example page, once the lines are read: with
    a declared size n >= 1 and at least one row, the result is a table
    exactly when the row count is within 20 of n*n*n; the table then has
    size n and n*n*n entries, which are the rows read, cut at n*n*n or
    followed by copies of the last row; otherwise the result is the
    size-mismatch error. *)
Theorem lightsOut_finish_repairs_or_rejects
    (roundedCubeRoot : nat -> Z) (n : Z) (rows : list row) :
  1 <= n -> rows <> [] ->
  let len := Z.of_nat (length rows) in
  match LightsOut.finish roundedCubeRoot (Int n) rows with
  | inr lut =>
      Z.abs (n * n * n - len) <= 20 /\ size lut = Int n /\
      Z.of_nat (length (data lut)) = n * n * n /\
      exists lastRow, last rows = Some lastRow /\
        data lut = take (Z.to_nat (n * n * n)) rows
                     ++ replicate (Z.to_nat (n * n * n - len)) lastRow
  | inl err => 20 < Z.abs (n * n * n - len) /\ err = LightsOut.SizeMismatchTooLarge
  end.
Proof.
  intros Hn Hne len. unfold LightsOut.finish.
  destruct (Z.eqb_spec n 0); [lia|].
  destruct (lightsOut_checkRows n rows Hn Hne) as [Hfix Hrej]. fold len in Hfix, Hrej.
  destruct (Z_le_gt_dec (Z.abs (n * n * n - len)) 20) as [Hle|Hgt].
  - destruct (Hfix Hle) as (lut & -> & Hs & Hl & Hpad & Hcut).
    split; [exact Hle|]. split; [exact Hs|]. split; [exact Hl|].
    destruct (last rows) as [lastRow|] eqn:Hlast;
      [|apply last_None in Hlast; contradiction].
    exists lastRow. split; [reflexivity|].
    destruct (Z_le_gt_dec len (n * n * n)) as [Hshort|Hlong].
    + destruct (Hpad Hshort) as (lr & [= <-] & ->).
      rewrite take_ge by (unfold len in Hshort; lia). reflexivity.
    + rewrite (Hcut ltac:(lia)).
      replace (Z.to_nat (n * n * n - len)) with 0%nat by lia.
      simpl. rewrite app_nil_r. reflexivity.
  - rewrite (Hrej ltac:(lia)). split; [lia|reflexivity].
Qed.

Lemma lightsOut_finish_repairs_or_rejects_witness :
  let rows := data (LutTable.parseCubeLUT integerLiteral sevenRows "fuji" ∅).1 in
  let len := Z.of_nat (length rows) in
  match LightsOut.finish nearestCubeRoot (Int 2) rows with
  | inr lut =>
      Z.abs (2 * 2 * 2 - len) <= 20 /\ size lut = Int 2 /\
      Z.of_nat (length (data lut)) = 2 * 2 * 2 /\
      exists lastRow, last rows = Some lastRow /\
        data lut = take (Z.to_nat (2 * 2 * 2)) rows
                     ++ replicate (Z.to_nat (2 * 2 * 2 - len)) lastRow
  | inl err => 20 < Z.abs (2 * 2 * 2 - len) /\ err = LightsOut.SizeMismatchTooLarge
  end.
Proof.
  apply (lightsOut_finish_repairs_or_rejects nearestCubeRoot 2
           (data (LutTable.parseCubeLUT integerLiteral sevenRows "fuji" ∅).1)).
  - lia.
  - vm_compute. discriminate.
Defined.
End LutStepWitness.

(** ** Finding and scheduling the media of a page *)
Section ScanFacts.
Import JS Scan.

Variable expansion : number.
Variable page : Page.

(** What one of the two loops leaves: the first elements that pass the
    tests, as many as there is room for, split by size. *)
Lemma visit_foldl accepts (els : list Node) : forall acc,
  let room := (MAX_IMAGES_TO_PROCESS - imageCount acc)%nat in
  let taken := take room (List.filter accepts els) in
  foldl (visit accepts) acc els =
  {| found := {| regular := regular (found acc)
                              ++ List.filter (fun el => negb (isLarge (rect el))) taken;
                 large := large (found acc)
                            ++ List.filter (fun el => isLarge (rect el)) taken |};
     imageCount := (imageCount acc + length taken)%nat |}.
Proof.
  induction els as [|el els IH]; intros [[reg lar] cnt]; cbn zeta.
  - cbn [List.filter foldl found regular large imageCount]. rewrite take_nil. simpl.
    rewrite !app_nil_r, Nat.add_0_r. reflexivity.
  - cbn [foldl]. rewrite IH. cbn zeta. unfold visit.
    cbn [found regular large imageCount].
    destruct (Nat.leb_spec MAX_IMAGES_TO_PROCESS cnt) as [Hfull|Hroom].
    + cbn [found regular large imageCount].
      replace (MAX_IMAGES_TO_PROCESS - cnt)%nat with 0%nat by lia.
      rewrite !take_0. reflexivity.
    + cbn [List.filter]. destruct (accepts el) eqn:Ha.
      * cbn [push found regular large imageCount].
        replace (MAX_IMAGES_TO_PROCESS - cnt)%nat
          with (S (MAX_IMAGES_TO_PROCESS - S cnt))%nat by lia.
        cbn [take List.filter length].
        destruct (isLarge (rect el)); cbn [negb found regular large];
          rewrite <- ?app_assoc; cbn [app]; f_equal; lia.
      * reflexivity.
Qed.

Lemma filter_split {A} (f : A -> bool) (l : list A) :
  (length (List.filter (fun x => negb (f x)) l) + length (List.filter f l))%nat = length l.
Proof.
  induction l as [|x l IH]; [reflexivity|]. simpl.
  destruct (f x); simpl; lia.
Qed.

(** X11. A call of [findMediaElements] that scans the page (no result is
    cached, or the cached one is a second old) returns the first 150
    elements that pass the tests, images before background containers,
    each kind in document order, split into the elements with a side
    above 200 and the others; it never returns more than 150
    elements. *)
Theorem findMediaElements_scan (now : Z) (s : ScanState) :
  mediaElementsCache s = None \/ CACHE_DURATION <= now - lastCacheTime s ->
  let result := (findMediaElements expansion now page s).1 in
  let imgs := take MAX_IMAGES_TO_PROCESS
                (List.filter (acceptsImage expansion page) (images page)) in
  let bgs := take (MAX_IMAGES_TO_PROCESS - length imgs)
               (List.filter (acceptsBackground expansion page) (backgrounds page)) in
  regular result = List.filter (fun el => negb (isLarge (rect el))) (imgs ++ bgs) /\
  large result = List.filter (fun el => isLarge (rect el)) (imgs ++ bgs) /\
  (length (regular result) + length (large result) <= MAX_IMAGES_TO_PROCESS)%nat.
Proof.
  intros Hfresh result imgs bgs.
  assert (Hr : result = scan expansion page).
  { unfold result, findMediaElements. destruct (mediaElementsCache s) as [cached|].
    - destruct Hfresh as [E|Hold]; [discriminate|].
      destruct (Z.ltb_spec (now - lastCacheTime s) CACHE_DURATION); [lia|reflexivity].
    - reflexivity. }
  assert (Hs : regular (scan expansion page)
                 = List.filter (fun el => negb (isLarge (rect el))) (imgs ++ bgs) /\
               large (scan expansion page)
                 = List.filter (fun el => isLarge (rect el)) (imgs ++ bgs)).
  { unfold scan. rewrite !visit_foldl. cbn [found regular large imageCount app Nat.add].
    rewrite Nat.sub_0_r. fold imgs. fold bgs. rewrite !List.filter_app.
    destruct (Nat.ltb_spec (length imgs) MAX_IMAGES_TO_PROCESS) as [Hroom|Hfull].
    - cbn [found regular large]. split; reflexivity.
    - cbn [found regular large].
      assert (Hb : bgs = []).
      { unfold bgs. replace (MAX_IMAGES_TO_PROCESS - length imgs)%nat with 0%nat by lia.
        apply take_0. }
      rewrite Hb. cbn [List.filter]. rewrite !app_nil_r. split; reflexivity. }
  rewrite Hr. destruct Hs as [-> ->]. split; [reflexivity|]. split; [reflexivity|].
  rewrite filter_split, length_app.
  assert (length imgs <= MAX_IMAGES_TO_PROCESS)%nat by (unfold imgs; rewrite length_take; lia).
  assert (length bgs <= MAX_IMAGES_TO_PROCESS - length imgs)%nat
    by (unfold bgs; rewrite length_take; lia).
  lia.
Qed.

(** X12. The result of a scan is reused: [findAllMediaElements] returns
    it, flattened, whatever the page, the viewport expansion and the time
    have become, and so does [findMediaElements] itself for a call made
    less than a second after the scan. *)
Theorem scan_result_is_reused (now : Z) (s : ScanState)
    (expansion' : number) (now' : Z) (page' : Page) :
  mediaElementsCache s = None \/ CACHE_DURATION <= now - lastCacheTime s ->
  let result := (findMediaElements expansion now page s).1 in
  let s' := (findMediaElements expansion now page s).2 in
  findAllMediaElements expansion' now' page' s' = (regular result ++ large result, s') /\
  (now' - now < CACHE_DURATION ->
   findMediaElements expansion' now' page' s' = (result, s')).
Proof.
  intros Hfresh result s'.
  assert (Hr : findMediaElements expansion now page s =
               (scan expansion page,
                {| mediaElementsCache := Some (scan expansion page);
                   lastCacheTime := now; lastResult := Some (scan expansion page) |})).
  { unfold findMediaElements. destruct (mediaElementsCache s) as [cached|].
    - destruct Hfresh as [E|Hold]; [discriminate|].
      destruct (Z.ltb_spec (now - lastCacheTime s) CACHE_DURATION); [lia|reflexivity].
    - reflexivity. }
  unfold result, s'. rewrite Hr. cbn [fst snd]. split; [reflexivity|].
  intros Hsoon. unfold findMediaElements. cbn [mediaElementsCache lastCacheTime].
  destruct (Z.ltb_spec (now' - now) CACHE_DURATION); [reflexivity|lia].
Qed.
End ScanFacts.

Section ScheduleFacts.
Import JS Scan.

Lemma splitVisible_filter page (allElements : list Node) :
  splitVisible page allElements =
  (List.filter (fun el => isVisible page (rect el)) allElements,
   List.filter (fun el => negb (isVisible page (rect el))) allElements).
Proof.
  unfold splitVisible.
  assert (H : forall acc,
    foldl (fun acc element =>
             if isVisible page (rect element)
             then (acc.1 ++ [element], acc.2)
             else (acc.1, acc.2 ++ [element])) acc allElements =
    (acc.1 ++ List.filter (fun el => isVisible page (rect el)) allElements,
     acc.2 ++ List.filter (fun el => negb (isVisible page (rect el))) allElements)).
  { induction allElements as [|el els IH]; intros [v d]; cbn [foldl List.filter fst snd].
    - rewrite !app_nil_r. reflexivity.
    - rewrite IH. destruct (isVisible page (rect el)); cbn [negb fst snd];
        rewrite <- ?app_assoc; reflexivity. }
  rewrite H. reflexivity.
Qed.

Lemma batchesFrom_spec {A} (arr : list A) : forall fuel i,
  (length arr - i <= fuel)%nat ->
  concat (batchesFrom fuel i arr) = drop i arr /\
  Forall (fun b => (1 <= length b <= Pipeline.BATCH_SIZE)%nat) (batchesFrom fuel i arr).
Proof.
  induction fuel as [|fuel IH]; intros i Hfuel.
  - simpl. split; [|constructor]. symmetry. apply drop_ge. lia.
  - cbn [batchesFrom]. destruct (Nat.ltb_spec i (length arr)) as [Hlt|Hge].
    + destruct (IH (i + Pipeline.BATCH_SIZE)%nat) as [IH1 IH2];
        [unfold Pipeline.BATCH_SIZE; lia|].
      cbn [concat]. rewrite IH1. unfold slice.
      replace (i + Pipeline.BATCH_SIZE - i)%nat with Pipeline.BATCH_SIZE by lia.
      split.
      * rewrite <- drop_drop. apply take_drop.
      * constructor; [|exact IH2]. rewrite length_take, length_drop.
        unfold Pipeline.BATCH_SIZE. lia.
    + simpl. split; [|constructor]. symmetry. apply drop_ge. lia.
Qed.

Lemma filter_partition_perm {A} (f : A -> bool) (l : list A) :
  List.filter f l ++ List.filter (fun x => negb (f x)) l ≡ₚ l.
Proof.
  induction l as [|x l IH]; [reflexivity|].
  cbn [List.filter]. destruct (f x); cbn [negb app].
  - constructor. exact IH.
  - rewrite <- Permutation_middle. constructor. exact IH.
Qed.

(** X13. [processAllMedia] schedules every element it was given once:
    the batches of the visible elements, put end to end, are the visible
    elements in order, every batch has between one and BATCH_SIZE
    elements, and the visible and the deferred elements together are the
    elements given. *)
Theorem processAllMedia_schedules_each_element_once
    (page : Page) (allElements : list Node) :
  let visibleElements := (splitVisible page allElements).1 in
  let deferredElements := (splitVisible page allElements).2 in
  concat (batches visibleElements) = visibleElements /\
  Forall (fun batch => (1 <= length batch <= Pipeline.BATCH_SIZE)%nat)
         (batches visibleElements) /\
  visibleElements ++ deferredElements ≡ₚ allElements.
Proof.
  intros v d. unfold batches.
  destruct (batchesFrom_spec v (length v) 0) as [H1 H2]; [lia|].
  split; [exact H1|]. split; [exact H2|].
  unfold v, d. rewrite splitVisible_filter. cbn [fst snd].
  apply (filter_partition_perm (fun el => isVisible page (rect el))).
Qed.

Lemma findMediaElements_scan_witness :
  let expansion := ofZ 4000 in
  let result := (findMediaElements expansion 5000 samplePage noScanYet).1 in
  let imgs := take MAX_IMAGES_TO_PROCESS
                (List.filter (acceptsImage expansion samplePage) (images samplePage)) in
  let bgs := take (MAX_IMAGES_TO_PROCESS - length imgs)
               (List.filter (acceptsBackground expansion samplePage)
                            (backgrounds samplePage)) in
  regular result = List.filter (fun el => negb (isLarge (rect el))) (imgs ++ bgs) /\
  large result = List.filter (fun el => isLarge (rect el)) (imgs ++ bgs) /\
  (length (regular result) + length (large result) <= MAX_IMAGES_TO_PROCESS)%nat.
Proof.
  apply (findMediaElements_scan (ofZ 4000) samplePage 5000 noScanYet).
  left. reflexivity.
Defined.

Lemma scan_result_is_reused_witness :
  let expansion := ofZ 4000 in
  let result := (findMediaElements expansion 5000 samplePage noScanYet).1 in
  let s' := (findMediaElements expansion 5000 samplePage noScanYet).2 in
  findAllMediaElements (ofZ 100000) 9000 emptyPage s'
    = (regular result ++ large result, s') /\
  (5400 - 5000 < CACHE_DURATION ->
   findMediaElements (ofZ 100000) 5400 emptyPage s' = (result, s')).
Proof.
  apply (scan_result_is_reused (ofZ 4000) samplePage 5000 noScanYet
           (ofZ 100000) 5400 emptyPage).
  left. reflexivity.
Defined.

(** The sample page: the thumbnail is regular, the photograph and the
    background are large, the icon inside [svg] is left out. *)
Example samplePage_scan :
  let result := (findMediaElements (ofZ 4000) 5000 samplePage noScanYet).1 in
  length (regular result) = 1%nat /\ length (large result) = 2%nat.
Proof. vm_compute. split; reflexivity. Qed.
End ScheduleFacts.

(** ** Sites that get the overlay *)
Section SiteFacts.
Import Dom Scan Site.

Lemma prefix_occurs c sub : forall s,
  String.prefix sub s = true -> occurs c sub -> occurs c s.
Proof.
  unfold occurs. induction sub as [|a sub IH]; intros s Hp Hc; [inversion Hc|].
  destruct s as [|b s]; [simpl in Hp; discriminate|]. simpl in Hp.
  destruct (ascii_dec a b) as [->|]; [|discriminate].
  simpl in *. apply elem_of_cons in Hc as [->|Hc]; [apply list_elem_of_here|].
  apply list_elem_of_further, IH; assumption.
Qed.

Lemma includes_occurs c sub : forall s,
  includes sub s = true -> occurs c sub -> occurs c s.
Proof.
  induction s as [|b s IH]; intros Hi Hc.
  - simpl in Hi. rewrite orb_false_r in Hi. eapply prefix_occurs; eassumption.
  - cbn [includes] in Hi. apply orb_prop in Hi as [Hp|Hi].
    + eapply prefix_occurs; eassumption.
    + unfold occurs. simpl. apply list_elem_of_further. apply IH; assumption.
Qed.

Lemma lowerChar_slash c : lowerChar c = "/"%char -> c = "/"%char.
Proof.
  unfold lowerChar. destruct (_ && _)%nat eqn:E; [|auto].
  apply andb_prop in E as [H1 H2]. apply Nat.leb_le in H1, H2.
  intros H. apply (f_equal nat_of_ascii) in H. rewrite nat_ascii_embedding in H by lia.
  change (nat_of_ascii "/") with 47%nat in H. exfalso. lia.
Qed.

Lemma toLowerCase_slash s : occurs "/" (toLowerCase s) -> occurs "/" s.
Proof.
  unfold occurs. induction s as [|c s IH]; [auto|]. simpl.
  intros H. apply elem_of_cons in H as [H|H].
  - symmetry in H. apply lowerChar_slash in H. subst c. apply list_elem_of_here.
  - apply list_elem_of_further, IH, H.
Qed.

(** X14. For a host name (a name without a slash) [isProblematicSite]
    holds exactly when the name does not contain medium.com and contains
    one of the first ten entries of the list; the eleventh entry, which
    is written as a URL, matches no host name. *)
Theorem isProblematicSite_matches_domains (hostname : string) :
  ~ occurs "/" hostname ->
  isProblematicSite hostname =
  negb (includes "medium.com" (toLowerCase hostname))
  && existsb (fun domain => includes domain (toLowerCase hostname))
             (take 10 problematicDomains).
Proof.
  intros Hslash. unfold isProblematicSite.
  assert (Hlast : includes "https://satabdi.framer.website/" (toLowerCase hostname) = false).
  { destruct (includes _ _) eqn:E; [|reflexivity]. exfalso. apply Hslash.
    apply toLowerCase_slash. eapply includes_occurs; [exact E|].
    unfold occurs. simpl. do 6 apply list_elem_of_further. apply list_elem_of_here. }
  destruct (includes "medium.com" (toLowerCase hostname)); [reflexivity|].
  cbn [negb andb]. unfold problematicDomains. cbn [existsb take].
  rewrite Hlast. rewrite !orb_false_r. reflexivity.
Qed.

Lemma isProblematicSite_matches_domains_witness :
  isProblematicSite "gist.GitHub.com" =
  negb (includes "medium.com" (toLowerCase "gist.GitHub.com"))
  && existsb (fun domain => includes domain (toLowerCase "gist.GitHub.com"))
             (take 10 problematicDomains).
Proof.
  apply (isProblematicSite_matches_domains "gist.GitHub.com").
  unfold occurs. simpl. intros H.
  repeat (apply elem_of_cons in H as [H|H]; [discriminate|]). inversion H.
Defined.

Example isProblematicSite_examples :
  isProblematicSite "gist.github.com" = true /\
  isProblematicSite "github.com.medium.com" = false /\
  isProblematicSite "satabdi.framer.website" = false /\
  isProblematicSite "example.org" = false.
Proof. repeat split. Qed.
End SiteFacts.

(** ** Background surfaces *)
Section RegexFacts.
Import JS Regex.

Lemma lazy_reads_through (u : str) : forall consumed,
  Forall plain u ->
  lazyStar Dot (matchHere [Maybe (OneOf [singleQuote; doubleQuote]); One (Lit ")"%char)])
           (u ++ [doubleQuote; ")"%char]) consumed
  = Some (Some (rev consumed ++ u)).
Proof.
  induction u as [|c u IH]; intros consumed Hu.
  - simpl. rewrite app_nil_r. reflexivity.
  - apply Forall_cons in Hu as [(Hc1 & Hc2 & Hc3) Hu].
    cbn [app lazyStar].
    assert (Hnext : exists c' rest, u ++ [doubleQuote; ")"%char] = c' :: rest /\ c' <> ")"%char).
    { destruct u as [|c' u'].
      - eexists _, _. split; [reflexivity|]. discriminate.
      - apply Forall_cons in Hu as [(H & _) _]. eexists _, _. split; [reflexivity|exact H]. }
    destruct Hnext as (c' & rest & E & Hc').
    assert (Hfail : matchHere [Maybe (OneOf [singleQuote; doubleQuote]); One (Lit ")"%char)]
                      (c :: u ++ [doubleQuote; ")"%char]) (Some (rev consumed)) = None).
    { cbn [matchHere]. rewrite E.
      assert (H1 : accepts (Lit ")"%char) c = false).
      { simpl. apply Ascii.eqb_neq. exact Hc1. }
      assert (H2 : accepts (Lit ")"%char) c' = false).
      { simpl. apply Ascii.eqb_neq. exact Hc'. }
      rewrite H1, H2. destruct (accepts (OneOf [singleQuote; doubleQuote]) c); reflexivity. }
    rewrite Hfail.
    assert (Hdot : accepts Dot c = true).
    { simpl. apply Ascii.eqb_neq in Hc2, Hc3. rewrite Hc2, Hc3. reflexivity. }
    rewrite Hdot. rewrite IH by exact Hu. cbn [rev]. rewrite <- app_assoc. reflexivity.
Qed.

Lemma search_here p s r : matchHere p s None = Some r -> search p s = Some r.
Proof. intros H. destruct s; simpl; rewrite H; reflexivity. Qed.

Lemma matchHere_One a p c s g :
  accepts a c = true -> matchHere (One a :: p) (c :: s) g = matchHere p s g.
Proof. intros H. cbn [matchHere]. rewrite H. reflexivity. Qed.

Lemma matchHere_Maybe_take a p c s g r :
  accepts a c = true -> matchHere p s g = Some r ->
  matchHere (Maybe a :: p) (c :: s) g = Some r.
Proof. intros H Hr. cbn [matchHere]. rewrite H, Hr. reflexivity. Qed.

Lemma url_pattern_reads (u : str) :
  Forall plain u -> search urlPattern (cssUrl u) = Some (Some u).
Proof.
  intros Hu. apply search_here. unfold cssUrl, urlPattern.
  cbn [list_ascii_of_string app].
  rewrite !matchHere_One by reflexivity.
  apply matchHere_Maybe_take; [reflexivity|].
  change (lazyStar Dot
            (matchHere [Maybe (OneOf [singleQuote; doubleQuote]); One (Lit ")"%char)])
            (u ++ [doubleQuote; ")"%char]) [] = Some (Some u)).
  apply (lazy_reads_through u [] Hu).
Qed.

(** X15. On the value [url("u")] of a background image, the regular
    expression of [processBackgroundImage] captures exactly [u], for
    every [u] that has no closing parenthesis and no line terminator. *)
Theorem url_pattern_extracts (u : str) :
  Forall plain u ->
  search urlPattern (cssUrl u) = Some (Some u).
Proof. exact (url_pattern_reads u). Qed.

Lemma url_pattern_extracts_witness :
  search urlPattern (cssUrl (list_ascii_of_string "https://host/bg.png"))
  = Some (Some (list_ascii_of_string "https://host/bg.png")).
Proof.
  apply (url_pattern_extracts (list_ascii_of_string "https://host/bg.png")).
  unfold plain. repeat constructor; discriminate.
Defined.

(** A closing parenthesis inside the URL ends the match early. *)
Example url_pattern_stops_at_parenthesis :
  search urlPattern (cssUrl (list_ascii_of_string "https://host/a(1).png"))
  = Some (Some (list_ascii_of_string "https://host/a(1")).
Proof. reflexivity. Qed.
End RegexFacts.

Section BackgroundFacts.
Import JS Dom Pipeline Regex Background.

Lemma startBackground_loadable st force cache e :
  processing e = false -> loadable (src e) ->
  (force = true \/ processed e = None) ->
  startBackground st force cache e =
  (withProcessing true e,
   Suspended {| jobOriginalSrc := src e; jobCacheKey := cacheKey (src e) st |}).
Proof.
  intros Hp (Hplain & Hne & Hnone & Htrim) Hforce. unfold startBackground. rewrite Hp.
  cbn [src withProcessing processed].
  destruct (String.eqb_spec (src e) EmptyString); [contradiction|].
  rewrite (url_pattern_reads _ Hplain), string_of_list_ascii_of_string.
  destruct (String.eqb_spec (src e) EmptyString); [contradiction|].
  destruct (String.eqb_spec (src e) "none"); [contradiction|].
  destruct (trim (list_ascii_of_string (src e))) eqn:E; [contradiction|].
  cbn [isEmpty orb].
  destruct Hforce as [-> | ->]; cbn [negb andb isTrue]; [reflexivity|].
  rewrite andb_false_r. reflexivity.
Qed.

(** A call that commits: the surface shows the data URL and records the
    URL it showed. *)
Lemma processBackgroundImage_commit st force out dataUrl cache e :
  processing e = false -> loadable (src e) ->
  (force = true \/ processed e = None) -> commits st out dataUrl ->
  processBackgroundImage st force out cache e =
  (withProcessing false
     (withSrc dataUrl
        (withProcessed (Some "true"%string)
           (withOriginalSrc (Some (src e)) (withProcessing true e)))),
   {[cacheKey (src e) st]} ∪ cache).
Proof.
  intros Hp Hl Hforce (lutOk & sh & -> & Hflag & _).
  unfold processBackgroundImage.
  rewrite (startBackground_loadable st force cache e Hp Hl Hforce).
  cbn [resumeBackground]. rewrite Hflag. reflexivity.
Qed.

(** [revertElement] on a surface that shows a data URL and has a recorded
    original. *)
Lemma revertElement_background x o :
  kind x = Dom.Background -> originalSrc x = Some o -> o <> EmptyString ->
  String.prefix "data:image" (src x) = true ->
  src (revertElement x) = o /\ originalSrc (revertElement x) = None /\
  processed (revertElement x) = None.
Proof.
  destruct x as [k s os pr lk al pg sg ag rs ov hd]. fields.
  intros -> -> Hne Hp. apply String.eqb_neq in Hne.
  unfold revertElement. fields.
  destruct ov as [[sh []]|]; fields; rewrite Hne, Hp; fields;
    repeat split; reflexivity.
Qed.

(** X16. A background surface that has not been processed, whose URL
    has no closing parenthesis and no line terminator, and whose
    processing commits a data URL, ends up showing that data URL with
    its own URL as the recorded original, marked as processed, its cache
    key in the result cache; [revertElement] then gives it its URL back
    and clears the recorded original and the marker. *)
Theorem background_commit_then_revert
    (st : Settings) (force : bool) (out : Outcome) (dataUrl : string)
    (cache : gset string) (e : Element) :
  kind e = Dom.Background -> processing e = false -> processed e = None ->
  loadable (src e) -> commits st out dataUrl ->
  let after := processBackgroundImage st force out cache e in
  src after.1 = dataUrl /\ originalSrc after.1 = Some (src e) /\
  processed after.1 = Some "true"%string /\ processing after.1 = false /\
  cacheKey (src e) st ∈ after.2 /\
  src (revertElement after.1) = src e /\
  originalSrc (revertElement after.1) = None /\
  processed (revertElement after.1) = None.
Proof.
  intros Hk Hp Hpr Hl Hc after. unfold after.
  rewrite (processBackgroundImage_commit st force out dataUrl cache e Hp Hl
             (or_intror Hpr) Hc).
  cbn [fst snd].
  do 4 (split; [reflexivity|]). split; [set_solver|].
  apply revertElement_background.
  - exact Hk.
  - reflexivity.
  - destruct Hl as (_ & Hne & _). exact Hne.
  - destruct Hc as (_ & _ & _ & _ & Hd). exact Hd.
Qed.

Lemma sampleBackground_loadable : loadable "https://host/bg.png".
Proof.
  unfold loadable, plain. simpl.
  split; [repeat constructor; discriminate|].
  split; [discriminate|]. split; [discriminate|]. vm_compute. discriminate.
Qed.

Lemma png_loadable : loadable png.
Proof.
  unfold loadable, plain, png. simpl.
  split; [repeat constructor; discriminate|].
  split; [discriminate|]. split; [discriminate|]. vm_compute. discriminate.
Qed.

Lemma background_commit_then_revert_witness :
  let e := freshBackground "https://host/bg.png" in
  let after := processBackgroundImage fuji true (Rendered true png false) ∅ e in
  src after.1 = png /\ originalSrc after.1 = Some (src e) /\
  processed after.1 = Some "true"%string /\ processing after.1 = false /\
  cacheKey (src e) fuji ∈ after.2 /\
  src (revertElement after.1) = src e /\
  originalSrc (revertElement after.1) = None /\
  processed (revertElement after.1) = None.
Proof.
  apply (background_commit_then_revert fuji true (Rendered true png false) png ∅
           (freshBackground "https://host/bg.png")).
  - reflexivity.
  - reflexivity.
  - reflexivity.
  - exact sampleBackground_loadable.
  - exists true, false. split; [reflexivity|]. split; reflexivity.
Defined.

(** X17. [processBackgroundImage] takes the URL to load from what the
    element shows.  A forced call on a surface that shows a committed
    data URL therefore loads that data URL and records it as the
    original, and [revertElement] then puts the data URL back, not the
    URL the surface had at first. *)
Theorem background_forced_repass_records_data_url
    (st st' : Settings) (force : bool) (out out' : Outcome) (dataUrl dataUrl' : string)
    (cache : gset string) (e : Element) :
  kind e = Dom.Background -> processing e = false -> processed e = None ->
  loadable (src e) -> commits st out dataUrl ->
  loadable dataUrl -> commits st' out' dataUrl' ->
  let first := processBackgroundImage st force out cache e in
  let second := processBackgroundImage st' true out' first.2 first.1 in
  originalSrc second.1 = Some dataUrl /\ src second.1 = dataUrl' /\
  src (revertElement second.1) = dataUrl.
Proof.
  intros Hk Hp Hpr Hl Hc Hl' Hc' first second. unfold second, first.
  rewrite (processBackgroundImage_commit st force out dataUrl cache e Hp Hl
             (or_intror Hpr) Hc).
  cbn [fst snd].
  rewrite (processBackgroundImage_commit st' true out' dataUrl'); cycle 1.
  { reflexivity. }
  { exact Hl'. }
  { left. reflexivity. }
  { exact Hc'. }
  cbn [fst]. split; [reflexivity|]. split; [reflexivity|].
  apply revertElement_background.
  - exact Hk.
  - reflexivity.
  - destruct Hl' as (_ & Hne & _). exact Hne.
  - destruct Hc' as (_ & _ & _ & _ & Hd). exact Hd.
Qed.

Lemma background_forced_repass_records_data_url_witness :
  let e := freshBackground "https://host/bg.png" in
  let first := processBackgroundImage fuji true (Rendered true png false) ∅ e in
  let second := processBackgroundImage fujiGrain true (Rendered true jpeg false)
                  first.2 first.1 in
  originalSrc second.1 = Some png /\ src second.1 = jpeg /\
  src (revertElement second.1) = png.
Proof.
  apply (background_forced_repass_records_data_url fuji fujiGrain true
           (Rendered true png false) (Rendered true jpeg false) png jpeg ∅
           (freshBackground "https://host/bg.png")).
  - reflexivity.
  - reflexivity.
  - reflexivity.
  - exact sampleBackground_loadable.
  - exists true, false. split; [reflexivity|]. split; reflexivity.
  - exact png_loadable.
  - exists true, false. split; [reflexivity|]. split; reflexivity.
Defined.
End BackgroundFacts.

(** ** The sources of a picture *)
Section PictureFacts.
Import Dom Picture.

Lemma disable_twice p :
  disablePictureSourceElements (disablePictureSourceElements p)
  = disablePictureSourceElements p.
Proof.
  destruct p as [flag [|s ss]]; [reflexivity|].
  unfold disablePictureSourceElements. cbn [sources sourcesDisabled].
  destruct (truthy flag) eqn:Ht.
  - cbn [sources sourcesDisabled]. rewrite Ht. reflexivity.
  - destruct (0 <? _)%nat eqn:Hn.
    + reflexivity.
    + cbn [sources sourcesDisabled]. rewrite Ht, Hn. reflexivity.
Qed.

(** X18. On a picture whose sources have not been disabled,
    [disablePictureSourceElements] called any number of times has the
    effect of one call, and step 4 of [revertElement] then gives every
    source the [srcset] it had and clears the flag on the picture. *)
Theorem picture_sources_round_trip (p : Picture) (n : nat) :
  sourcesDisabled p = None ->
  let disabled := Nat.iter (S n) disablePictureSourceElements p in
  disabled = disablePictureSourceElements p /\
  srcset <$> sources (restoreSources disabled) = srcset <$> sources p /\
  sourcesDisabled (restoreSources disabled) = None.
Proof.
  intros Hflag disabled.
  assert (Hd : disabled = disablePictureSourceElements p).
  { unfold disabled. induction n as [|n IH]; [reflexivity|].
    change (Nat.iter (S (S n)) disablePictureSourceElements p)
      with (disablePictureSourceElements (Nat.iter (S n) disablePictureSourceElements p)).
    rewrite IH. apply disable_twice. }
  split; [exact Hd|]. rewrite Hd. clear Hd disabled.
  unfold disablePictureSourceElements. rewrite Hflag. cbn [truthy].
  destruct (sources p) as [|s ss] eqn:E.
  { unfold restoreSources. rewrite Hflag. cbn [isTrue]. rewrite E.
    split; [reflexivity|exact Hflag]. }
  rewrite <- E. clear E s ss.
  destruct (0 <? _)%nat eqn:Hn.
  - unfold restoreSources. cbn [sourcesDisabled isTrue]. rewrite String.eqb_refl.
    cbn [sources sourcesDisabled]. split; [|reflexivity].
    rewrite <- !list_fmap_compose. apply list_fmap_ext. intros i s _.
    unfold compose. cbn [originalSrcset truthy srcset].
    destruct (String.eqb_spec (srcset s) EmptyString) as [->|Hs]; reflexivity.
  - unfold restoreSources. rewrite Hflag. cbn [isTrue]. split; [reflexivity|exact Hflag].
Qed.

Lemma picture_sources_round_trip_witness :
  let disabled := Nat.iter 3 disablePictureSourceElements samplePicture in
  disabled = disablePictureSourceElements samplePicture /\
  srcset <$> sources (restoreSources disabled) = srcset <$> sources samplePicture /\
  sourcesDisabled (restoreSources disabled) = None.
Proof.
  apply (picture_sources_round_trip samplePicture 2).
  reflexivity.
Defined.

(** The sources cleared by [processMediumImage] are not restored by that
    step: the flag it tests is never set on that path. *)
Example medium_sources_stay_disabled :
  srcset <$> sources (restoreSources (disableSourcesOnMedium samplePicture))
  = [EmptyString; EmptyString; EmptyString].
Proof. reflexivity. Qed.
End PictureFacts.

(** ** Images on medium.com *)
Section MediumFacts.
Import Dom Pipeline Medium.

Lemma setSrc_fields v e :
  kind (setSrc v e) = kind e /\ originalSrc (setSrc v e) = originalSrc e.
Proof.
  unfold setSrc. destruct (srcGuard e); [destruct (isTrue (allowSet e))|];
    split; reflexivity.
Qed.

Lemma processMediumImage_keepsOriginal u st host out e :
  String.prefix "data:" u = false ->
  keepsFirstOriginal u e -> keepsFirstOriginal u (processMediumImage st host out e).
Proof.
  intros Hu (Hk & Hne & Hs). unfold processMediumImage, startMedium.
  destruct (src e =? EmptyString)%string; [repeat split; assumption|].
  destruct (processing e); [repeat split; assumption|].
  cbn [src withProcessing].
  set (loadedFrom := if String.prefix "data:" (src e) then _ else _).
  assert (Hl : (originalSrc e = None -> loadedFrom = Some u)).
  { intros Ho. destruct Hs as [[_ Hsrc]|Hs]; [|congruence].
    unfold loadedFrom. rewrite Hsrc, Hu. reflexivity. }
  destruct (truthy loadedFrom) eqn:Ht.
  2: { unfold keepsFirstOriginal. destruct e; simpl in *. auto. }
  unfold resumeMedium. destruct out as [| | | |lutOk dataUrl sh];
    try (unfold keepsFirstOriginal; destruct e; simpl in *; auto; fail).
  destruct (_ || _ || _);
    [|unfold keepsFirstOriginal; destruct e; simpl in *; auto].
  unfold keepsFirstOriginal. cbn [kind originalSrc withProcessing withProcessed].
  cbn [originalSrc withProcessing].
  destruct (truthy (originalSrc e)) eqn:Hto.
  - destruct (setSrc_fields dataUrl (withProcessing true e)) as [-> ->].
    cbn [kind originalSrc withProcessing]. split; [exact Hk|]. split; [exact Hne|].
    right. destruct Hs as [[Ho _]|Hs]; [rewrite Ho in Hto; discriminate|exact Hs].
  - destruct (setSrc_fields dataUrl
                (withOriginalSrc (Some (default EmptyString loadedFrom))
                   (withProcessing true e))) as [-> ->].
    cbn [kind originalSrc withProcessing withOriginalSrc].
    split; [exact Hk|]. split; [exact Hne|]. right.
    destruct Hs as [[Ho _]|Hs].
    + rewrite (Hl Ho). reflexivity.
    + rewrite Hs in Hto. simpl in Hto.
      destruct (String.eqb_spec u EmptyString); [contradiction|discriminate].
Qed.

Lemma mediumPasses_keepsOriginal u ps : forall e,
  String.prefix "data:" u = false ->
  keepsFirstOriginal u e -> keepsFirstOriginal u (mediumPasses e ps).
Proof.
  unfold mediumPasses. induction ps as [|p ps IH]; intros e Hu He; [exact He|].
  cbn [foldl]. apply IH; [exact Hu|]. apply processMediumImage_keepsOriginal; assumption.
Qed.

(** X19. On medium.com the recorded original is written once: whatever
    calls of [processMediumImage] an image that showed an address other
    than a data URL has gone through, [revertElement] gives it that
    address back and clears the recorded original and the markers. *)
Theorem medium_revert_restores_original (e : Element) (ps : list MediumPass) :
  kind e = Image -> src e <> EmptyString -> String.prefix "data:" (src e) = false ->
  originalSrc e = None ->
  let e' := revertElement (mediumPasses e ps) in
  src e' = src e /\ originalSrc e' = None /\ processed e' = None /\
  processing e' = false.
Proof.
  intros Hk Hne Hd Ho e'.
  assert (Hinv : keepsFirstOriginal (src e) (mediumPasses e ps)).
  { apply mediumPasses_keepsOriginal; [exact Hd|]. unfold keepsFirstOriginal. auto. }
  unfold e'. destruct Hinv as (Hk' & _ & Hs). revert Hk' Hs.
  generalize (mediumPasses e ps) as x. clear e' Ho Hd Hk. revert Hne.
  generalize (src e) as u. clear e. intros u Hne x Hk Hs. unfold revertElement.
  destruct x as [k s os pr lk al pg sg ag rs ov hd]. simpl in *. subst k.
  destruct Hs as [[-> ->]| ->].
  - destruct ov as [[sh []]|]; simpl; repeat split; reflexivity.
  - assert (Hue : (u =? EmptyString)%string = false) by (apply String.eqb_neq, Hne).
    destruct ov as [[sh []]|]; simpl; rewrite Hue; simpl;
      (destruct (String.eqb_spec s u) as [->|Hsu]; simpl;
       [repeat split; reflexivity
       |repeat split; try reflexivity;
        unfold authorizedSetSrc, setSrc; simpl; destruct sg; reflexivity]).
Qed.

Lemma medium_revert_restores_original_witness :
  let e' := revertElement
              (mediumPasses (freshImage "https://miro.medium.com/a.png")
                            sampleMediumPasses) in
  src e' = "https://miro.medium.com/a.png"%string /\ originalSrc e' = None /\
  processed e' = None /\ processing e' = false.
Proof.
  apply (medium_revert_restores_original
           (freshImage "https://miro.medium.com/a.png") sampleMediumPasses).
  - reflexivity.
  - discriminate.
  - reflexivity.
  - reflexivity.
Defined.

(** A second call on medium.com loads what the image shows, the data URL
    of the first call, when the page gives no other address. *)
Example medium_second_pass_loads_data_url :
  (startMedium noHostData
     (mediumPasses (freshImage "https://miro.medium.com/a.png")
                   (take 1 sampleMediumPasses))).2
  = Some jpeg.
Proof. reflexivity. Qed.
End MediumFacts.

(** ** The vignette at any strength *)
Section VignetteFacts.
Import JS ColorTransform Effects.
Local Open Scope Q_scope.

Variable norm : Q -> Q -> Q.

Lemma clamp01_range q : 0 <= clamp01 q <= 1.
Proof.
  unfold clamp01. destruct (Qle_bool q 0) eqn:E1; [lra|].
  destruct (Qle_bool 1 q) eqn:E2; [lra|].
  assert (~ q <= 0) by (rewrite <- Qle_bool_iff, E1; discriminate).
  assert (~ 1 <= q) by (rewrite <- Qle_bool_iff, E2; discriminate).
  lra.
Qed.

Lemma clamp01_nonpos q : q <= 0 -> clamp01 q = 0.
Proof.
  intros H. unfold clamp01. apply Qle_bool_iff in H. rewrite H. reflexivity.
Qed.

(** X20. Whatever the amount, [applyVignette] leaves unchanged every
    pixel whose centre is not farther from the centre of the canvas than
    the inner radius of the gradient (0.7 of 0.8 of the larger half
    side). *)
Theorem vignette_leaves_centre (canvas : Canvas) (amount : Q) (i : nat) (p : Pixel) :
  (0 <= width canvas)%Z -> (0 <= height canvas)%Z ->
  bitmap canvas !! i = Some p ->
  let centerX := inject_Z (width canvas) / 2 in
  let centerY := inject_Z (height canvas) / 2 in
  let radius := maxQ centerX centerY * (8 # 10) in
  let x := inject_Z (Z.of_nat i mod width canvas) + (1 # 2) in
  let y := inject_Z (Z.of_nat i / width canvas) + (1 # 2) in
  norm (x - centerX) (y - centerY) <= radius * (7 # 10) ->
  bitmap (applyVignette norm canvas amount) !! i = Some p.
Proof.
  intros Hw Hh Hi cx cy radius x y Hn.
  unfold applyVignette. cbn [bitmap]. rewrite list_lookup_imap, Hi.
  cbn [fmap option_fmap option_map].
  f_equal. fold cx cy radius x y.
  assert (Hr : 0 <= radius).
  { unfold radius, maxQ, cx, cy.
    assert (0 <= inject_Z (width canvas))
      by (change 0 with (inject_Z 0); rewrite <- Zle_Qle; exact Hw).
    assert (0 <= inject_Z (height canvas))
      by (change 0 with (inject_Z 0); rewrite <- Zle_Qle; exact Hh).
    assert (Hhalf : forall q, q / 2 == q * (1 # 2)) by (intros q; field).
    destruct (Qle_bool _ _); rewrite Hhalf; lra. }
  assert (Ht : radialOffset norm cx cy (radius * (7 # 10)) radius x y = 0).
  { unfold radialOffset. apply clamp01_nonpos.
    set (n := norm (x - cx) (y - cy)) in *.
    destruct (Qeq_dec radius 0) as [E|E].
    - assert (Hz : radius - radius * (7 # 10) == 0) by (rewrite E; ring).
      rewrite Hz. unfold Qdiv. change (/ 0) with 0. lra.
    - apply Qle_shift_div_r; lra. }
  rewrite Ht. unfold gradientColor, rgba_black, lerp.
  apply compositeOverlay_transparent. rewrite (clamp01_nonpos 0) by lra. ring.
Qed.

Lemma byteZ_range b : (0 <= byteZ b <= 255)%Z.
Proof.
  unfold byteZ. pose proof (Byte.to_N_bounded b). lia.
Qed.

Lemma byteZ_toByte z : (0 <= z <= 255)%Z -> byteZ (toByte z) = z.
Proof.
  intros Hz. unfold toByte, byteZ.
  destruct (Byte.of_N (Z.to_N z)) as [b|] eqn:E.
  - apply Byte.to_of_N in E. rewrite E. lia.
  - apply Byte.of_N_None_iff in E. lia.
Qed.

Lemma unitQ_range c : 0 <= unitQ c <= 1.
Proof.
  unfold unitQ. pose proof (byteZ_range c) as [H0 H1].
  assert (0 <= inject_Z (byteZ c))
    by (change 0 with (inject_Z 0); rewrite <- Zle_Qle; exact H0).
  assert (inject_Z (byteZ c) <= 255)
    by (change 255 with (inject_Z 255); rewrite <- Zle_Qle; exact H1).
  split; [apply Qle_shift_div_l; lra|apply Qle_shift_div_r; lra].
Qed.

Lemma Qfloor_byte c : Qfloor (255 * unitQ c + (1 # 2)) = byteZ c.
Proof.
  unfold unitQ.
  assert (E : 255 * (inject_Z (byteZ c) / 255) + (1 # 2) == inject_Z (byteZ c) + (1 # 2))
    by field.
  rewrite (Qfloor_comp _ _ E).
  pose proof (Qfloor_le (inject_Z (byteZ c) + (1 # 2))) as H1.
  pose proof (Qlt_floor (inject_Z (byteZ c) + (1 # 2))) as H2.
  set (f := Qfloor (inject_Z (byteZ c) + (1 # 2))) in *.
  assert (Hlo : inject_Z f < inject_Z (byteZ c + 1)).
  { rewrite inject_Z_plus. change (inject_Z 1) with 1. lra. }
  assert (Hhi : inject_Z (byteZ c) < inject_Z (f + 1)) by lra.
  rewrite <- Zlt_Qlt in Hlo, Hhi. lia.
Qed.

(** A channel painted with a value between 0 and that of the byte. *)
Lemma byteOfUnit_below q c :
  0 <= q -> q <= unitQ c -> (byteZ (byteOfUnit q) <= byteZ c)%Z.
Proof.
  intros H0 H1. unfold byteOfUnit.
  assert (Hlo : (0 <= Qfloor (255 * q + (1 # 2)))%Z).
  { change 0%Z with (Qfloor 0). apply Qfloor_resp_le. lra. }
  assert (Hhi : (Qfloor (255 * q + (1 # 2)) <= byteZ c)%Z).
  { rewrite <- (Qfloor_byte c). apply Qfloor_resp_le. lra. }
  pose proof (byteZ_range c). rewrite byteZ_toByte by lia. exact Hhi.
Qed.

Lemma overlay_black cb cs :
  cs == 0 -> 0 <= cb <= 1 -> 0 <= overlay cb cs <= cb.
Proof.
  intros Hcs Hcb. unfold overlay, hardLight, multiply, screen.
  destruct (Qle_bool cb (1 # 2)) eqn:E.
  - rewrite Hcs. lra.
  - assert (~ cb <= 1 # 2) by (rewrite <- Qle_bool_iff, E; discriminate).
    rewrite Hcs. lra.
Qed.

Lemma compositeChannel_darkens a alphaB alphaO cs c :
  0 <= a <= 1 -> alphaB == 1 -> alphaO == 1 -> cs == 0 ->
  (byteZ (compositeChannel a alphaB alphaO cs c) <= byteZ c)%Z.
Proof.
  intros Ha Hb Ho Hcs. unfold compositeChannel.
  pose proof (unitQ_range c) as Hc.
  pose proof (overlay_black (unitQ c) cs Hcs Hc) as Hov.
  set (cb := unitQ c) in *. set (ov := overlay cb cs) in *.
  assert (E : (a * ((1 - alphaB) * cs + alphaB * ov) + (1 - a) * alphaB * cb) / alphaO
              == a * ov + (1 - a) * cb).
  { rewrite Hb, Ho, Hcs. field. }
  rewrite (byteOfUnit_comp _ _ E). fold cb.
  assert (H1 : 0 <= a * ov) by (apply Qmult_le_0_compat; lra).
  assert (H2 : 0 <= (1 - a) * cb) by (apply Qmult_le_0_compat; lra).
  assert (H3 : 0 <= a * (cb - ov)) by (apply Qmult_le_0_compat; lra).
  apply byteOfUnit_below; [|change (unitQ c) with cb]; clearbody cb ov; lra.
Qed.

Lemma compositeOverlay_darkens r g b a p :
  r == 0 -> g == 0 -> b == 0 -> 0 <= a <= 1 -> alpha p = "255"%byte ->
  let q := compositeOverlay (r, g, b, a) p in
  alpha q = "255"%byte /\
  (byteZ (red q) <= byteZ (red p))%Z /\
  (byteZ (green q) <= byteZ (green p))%Z /\
  (byteZ (blue q) <= byteZ (blue p))%Z.
Proof.
  intros Hr Hg Hb Ha Hp. unfold compositeOverlay. rewrite Hp.
  assert (Hone : unitQ "255"%byte == 1) by reflexivity.
  assert (Ho : a + unitQ "255"%byte * (1 - a) == 1) by (rewrite Hone; ring).
  destruct (Qeq_bool _ 0) eqn:E.
  { apply Qeq_bool_iff in E. rewrite Ho in E. discriminate. }
  cbn [alpha red green blue]. split.
  - rewrite (byteOfUnit_comp _ _ Ho). reflexivity.
  - repeat split; apply compositeChannel_darkens; assumption.
Qed.

(** X21. Whatever the amount, [applyVignette] keeps an opaque pixel
    opaque and raises none of its three colour channels: the vignette
    only darkens. *)
Theorem vignette_darkens_opaque_pixels
    (canvas : Canvas) (amount : Q) (i : nat) (p : Pixel) :
  bitmap canvas !! i = Some p -> alpha p = "255"%byte ->
  exists q, bitmap (applyVignette norm canvas amount) !! i = Some q /\
            alpha q = "255"%byte /\
            (byteZ (red q) <= byteZ (red p))%Z /\
            (byteZ (green q) <= byteZ (green p))%Z /\
            (byteZ (blue q) <= byteZ (blue p))%Z.
Proof.
  intros Hi Hp. unfold applyVignette. cbn [bitmap]. rewrite list_lookup_imap, Hi.
  cbn [fmap option_fmap option_map]. eexists. split; [reflexivity|].
  unfold gradientColor, rgba_black, lerp.
  match goal with |- context [radialOffset ?n ?a ?b ?c ?d ?x ?y] =>
    set (t := radialOffset n a b c d x y) end.
  assert (Ht : 0 <= t <= 1) by apply clamp01_range.
  pose proof (clamp01_range amount) as Hamt.
  apply compositeOverlay_darkens; try ring; [|exact Hp].
  rewrite (clamp01_nonpos 0) by lra.
  assert (H1 : 0 <= clamp01 amount * t) by (apply Qmult_le_0_compat; lra).
  assert (H2 : 0 <= clamp01 amount * (1 - t)) by (apply Qmult_le_0_compat; lra).
  lra.
Qed.
End VignetteFacts.

Section VignetteWitness.
Import JS ColorTransform Effects.
Local Open Scope Q_scope.

Lemma vignette_leaves_centre_witness :
  bitmap (applyVignette taxicab sampleCanvas (3 # 10)) !! 1%nat
  = Some {| red := "120"; green := "130"; blue := "140"; alpha := "255" |}%byte.
Proof.
  apply (vignette_leaves_centre taxicab sampleCanvas (3 # 10) 1
           {| red := "120"; green := "130"; blue := "140"; alpha := "255" |}%byte).
  - vm_compute. discriminate.
  - vm_compute. discriminate.
  - reflexivity.
  - vm_compute. discriminate.
Defined.

Lemma vignette_darkens_opaque_pixels_witness :
  exists q, bitmap (applyVignette taxicab sampleCanvas (3 # 10)) !! 0%nat = Some q /\
            alpha q = "255"%byte /\
            (byteZ (red q) <= byteZ "200"%byte)%Z /\
            (byteZ (green q) <= byteZ "100"%byte)%Z /\
            (byteZ (blue q) <= byteZ "050"%byte)%Z.
Proof.
  apply (vignette_darkens_opaque_pixels taxicab sampleCanvas (3 # 10) 0
           {| red := "200"; green := "100"; blue := "050"; alpha := "255" |}%byte).
  - reflexivity.
  - reflexivity.
Defined.
End VignetteWitness.

(** ** The throttle *)
Section ThrottleFacts.
Import Throttle.
Local Open Scope nat_scope.

Lemma member_elem_of t l : member t l = true <-> t ∈ l.
Proof.
  unfold member. rewrite existsb_exists. split.
  - intros (x & Hx & E). apply Nat.eqb_eq in E. subst x. apply list_elem_of_In, Hx.
  - intros H. exists t. split; [apply list_elem_of_In, H|apply Nat.eqb_refl].
Qed.

Lemma elem_of_remove x t l : x ∈ remove t l <-> x ∈ l /\ x <> t.
Proof.
  unfold remove. rewrite !list_elem_of_In, filter_In.
  rewrite negb_true_iff, Nat.eqb_neq. reflexivity.
Qed.

Lemma step_inUse s ev : inUse s -> inUse (step s ev).
Proof.
  intros (Ht & Hr & Hd). unfold inUse.
  assert (Hrem : forall t l n, Forall (fun x => x < n) l -> Forall (fun x => x < n) (remove t l)).
  { intros t l n H. apply Forall_forall. intros x Hx. apply elem_of_remove in Hx as [Hx _].
    rewrite Forall_forall in H. apply H, Hx. }
  assert (Hup : forall l n, Forall (fun x => x < n) l -> Forall (fun x => x < S n) l).
  { intros l n H. eapply Forall_impl; [exact H|]. simpl. lia. }
  destruct ev as [|t|t|t]; cbn [step].
  - cbn [timers running resolved next]. split; [|split; apply Hup; assumption].
    apply Forall_app. split; [|repeat constructor].
    apply Hup. destruct (processingTask s); [apply Hrem|]; exact Ht.
  - destruct (member t (timers s)) eqn:E; [|auto].
    cbn [timers running resolved next]. split; [apply Hrem, Ht|]. split; [|exact Hd].
    apply Forall_app. split; [exact Hr|]. constructor; [|constructor].
    apply member_elem_of in E. rewrite Forall_forall in Ht. apply Ht, E.
  - destruct (member t (running s)) eqn:E; [|auto].
    cbn [timers running resolved next]. split; [exact Ht|]. split; [apply Hrem, Hr|].
    apply Forall_app. split; [exact Hd|]. constructor; [|constructor].
    apply member_elem_of in E. rewrite Forall_forall in Hr. apply Hr, E.
  - destruct (member t (running s)) eqn:E; [|auto].
    cbn [timers running resolved next]. split; [exact Ht|]. split; [apply Hrem, Hr|exact Hd].
Qed.

Lemma runEvents_inUse evs : inUse (runEvents evs).
Proof.
  unfold runEvents. induction evs as [|ev evs IH] using rev_ind.
  - repeat split; constructor.
  - rewrite foldl_app. apply step_inUse, IH.
Qed.

Lemma step_dropped c s ev : dropped c s -> dropped c (step s ev).
Proof.
  intros (Hn & Ht & Hr & Hd). unfold dropped.
  destruct ev as [|t|t|t]; cbn [step].
  - cbn [timers running resolved next]. split; [lia|]. split; [|auto].
    rewrite elem_of_app, list_elem_of_singleton. intros [H|H]; [|lia].
    destruct (processingTask s); [apply elem_of_remove in H as [H _]|]; auto.
  - destruct (member t (timers s)) eqn:E; [|auto].
    apply member_elem_of in E.
    cbn [timers running resolved next]. split; [exact Hn|].
    split; [rewrite elem_of_remove; tauto|]. split; [|exact Hd].
    rewrite elem_of_app, list_elem_of_singleton. intros [H| ->]; auto.
  - destruct (member t (running s)) eqn:E; [|auto].
    apply member_elem_of in E.
    cbn [timers running resolved next]. split; [exact Hn|]. split; [exact Ht|].
    split; [rewrite elem_of_remove; tauto|].
    rewrite elem_of_app, list_elem_of_singleton. intros [H| ->]; auto.
  - destruct (member t (running s)) eqn:E; [|auto].
    cbn [timers running resolved next]. split; [exact Hn|]. split; [exact Ht|].
    split; [rewrite elem_of_remove; tauto|exact Hd].
Qed.

Lemma steps_dropped c evs : forall s, dropped c s -> dropped c (foldl step s evs).
Proof.
  induction evs as [|ev evs IH]; intros s H; [exact H|].
  simpl. apply IH, step_dropped, H.
Qed.

(** A burst of calls: all but the last are dropped, and the last holds
    the task. *)
Lemma burst_dropped n : forall s,
  inUse s ->
  let s' := foldl step s (replicate (S n) Invoke) in
  next s' = next s + S n /\ processingTask s' = Some (next s + n) /\
  running s' = running s /\ resolved s' = resolved s /\
  forall j, j < n -> dropped (next s + j) s'.
Proof.
  induction n as [|n IH]; intros s Hs; cbn zeta.
  - cbn [replicate foldl step next processingTask running resolved].
    split; [lia|]. split; [f_equal; lia|]. split; [reflexivity|]. split; [reflexivity|].
    intros j Hj. lia.
  - rewrite (replicate_S_end (S n) Invoke), foldl_app. cbn [foldl].
    destruct (IH s Hs) as (Hn & Hp & Hr & Hd & Hdrop).
    set (s1 := foldl step s (replicate (S n) Invoke)) in *.
    cbn [step next processingTask running resolved].
    split; [lia|]. split; [f_equal; lia|]. split; [exact Hr|]. split; [exact Hd|].
    intros j Hj. destruct (decide (j = n)) as [->|Hne].
    + unfold dropped. cbn [timers running resolved next]. rewrite Hp, Hr, Hd.
      destruct Hs as (_ & Hfr & Hfd). rewrite Forall_forall in Hfr, Hfd.
      split; [lia|]. split; [|split].
      * rewrite elem_of_app, list_elem_of_singleton, elem_of_remove. intros [[_ H]|H]; lia.
      * intros H. apply Hfr in H. lia.
      * intros H. apply Hfd in H. lia.
    + apply (step_dropped _ s1 Invoke), Hdrop. lia.
Qed.

(** X22. When the throttled function is called several times in a row
    before any timer fires, only the last of these calls can ever run:
    whatever happens before and afterwards, the function of the earlier
    calls is never started and their promises are never resolved. *)
Theorem throttle_burst_runs_only_the_last_call
    (before after : list Event) (n j : nat) :
  j < n ->
  let first := next (runEvents before) in
  let final := runEvents (before ++ replicate (S n) Invoke ++ after) in
  (first + j ∉ running final) /\ (first + j ∉ resolved final).
Proof.
  intros Hj first final.
  assert (H : dropped (first + j) final).
  { unfold final, runEvents. rewrite !foldl_app. apply steps_dropped.
    apply (burst_dropped n (foldl step idle before) (runEvents_inUse before)). exact Hj. }
  destruct H as (_ & _ & Hr & Hd). split; assumption.
Qed.

Lemma throttle_burst_runs_only_the_last_call_witness :
  let first := next (runEvents [Invoke; TimerFires 1]) in
  let final := runEvents ([Invoke; TimerFires 1] ++ replicate 3 Invoke
                          ++ [TimerFires 2; TimerFires 3; TimerFires 4; FnFulfils 1;
                              FnFulfils 2; FnFulfils 3; FnFulfils 4]) in
  (first + 1 ∉ running final) /\ (first + 1 ∉ resolved final).
Proof.
  apply (throttle_burst_runs_only_the_last_call
           [Invoke; TimerFires 1]
           [TimerFires 2; TimerFires 3; TimerFires 4; FnFulfils 1;
            FnFulfils 2; FnFulfils 3; FnFulfils 4] 2 1).
  lia.
Defined.

(** In the run of the witness the calls 1 and 4 resolve, the calls 2 and
    3 never do. *)
Example throttle_burst_example :
  resolved (runEvents ([Invoke; TimerFires 1] ++ replicate 3 Invoke
                       ++ [TimerFires 2; TimerFires 3; TimerFires 4; FnFulfils 1;
                           FnFulfils 2; FnFulfils 3; FnFulfils 4])) = [1; 4].
Proof. reflexivity. Qed.
End ThrottleFacts.
